(** * Catalog search relevance engine: a shallow embedding

    The definitions below follow the product routes of the demo API, in
    the version that has the smart search: the edit distance with its
    transposition and phonetic adjustments, the relevance and final score
    formulas, the per-product field aggregation, the comparator and the
    sort of the results, and the price post-filter.

    Modelling conventions.
    - A JavaScript string is a [string]: a sequence of code units, here the
      code units below 256 (Latin-1), on which [toLowerCase], [trim] and the
      regular expressions used by the source are written out exactly.
    - Numbers that the edit distance manipulates (sums and minima of
      integers and of multiples of 0.1, 0.8 and 0.9) are exact rationals
      [Q]; the rounding of binary floating point is not modelled.
    - Numbers that go through [Math.exp] or [Math.log] are real numbers
      [R].  Where the source can divide by zero or compare with the result
      of such a division the type is [ext R], which adds [NaN] and the two
      infinities with their IEEE behaviour.
    - [Array.prototype.sort] and [String.prototype.localeCompare] belong to
      the host.  The sort is a parameter constrained by what ECMAScript
      promises ([SortContract]), with the algorithm of V8 on short arrays
      as an instance; the collation is a parameter. *)

From Stdlib Require Import Bool Arith ZArith Lia List String Ascii.
From Stdlib Require Import QArith Qminmax Qabs Qreals.
From Stdlib Require Import Reals Lra.
From Stdlib Require Import Permutation Sorted Morphisms.
Import ListNotations.

Local Open Scope string_scope.
Local Open Scope nat_scope.

(* ================================================================== *)
(** * JavaScript strings                                               *)
(* ================================================================== *)

(** [!str] for a string: only the empty string is falsy. *)
Definition falsy (s : string) : bool :=
  match s with EmptyString => true | String _ _ => false end.

(** [String.prototype.toLowerCase] on one Latin-1 code unit: A-Z and the
    accented capitals U+00C0..U+00DE (except the multiplication sign
    U+00D7) move up by 32, the rest is unchanged. *)
Definition lower_ascii (c : ascii) : ascii :=
  let n := nat_of_ascii c in
  if ((65 <=? n) && (n <=? 90)) ||
     ((192 <=? n) && (n <=? 222) && negb (n =? 215))
  then ascii_of_nat (n + 32) else c.

Fixpoint toLowerCase (s : string) : string :=
  match s with
  | EmptyString => EmptyString
  | String c r => String (lower_ascii c) (toLowerCase r)
  end.

(** The class [[a-zA-Z0-9]]. *)
Definition isAlnum (c : ascii) : bool :=
  let n := nat_of_ascii c in
  ((97 <=? n) && (n <=? 122)) || ((65 <=? n) && (n <=? 90)) ||
  ((48 <=? n) && (n <=? 57)).

(** [s.replace(/[^a-zA-Z0-9]/g, '')]. *)
Fixpoint stripNonAlnum (s : string) : string :=
  match s with
  | EmptyString => EmptyString
  | String c r =>
      if isAlnum c then String c (stripNonAlnum r) else stripNonAlnum r
  end.

(** [s.includes(pat)]: [pat] occurs in [s] as a contiguous substring. *)
Fixpoint includes (s pat : string) : bool :=
  prefix pat s ||
  match s with
  | EmptyString => false
  | String _ r => includes r pat
  end.

(** [row.indexOf(c)] for a one-character [c]; [None] is the source's -1. *)
Fixpoint indexOf (row : string) (c : ascii) : option nat :=
  match row with
  | EmptyString => None
  | String x r => if Ascii.eqb x c then Some 0 else option_map S (indexOf r c)
  end.

(** [s.substring(a, b)] for [a <= b]. *)
Definition jsSubstring (s : string) (a b : nat) : string :=
  substring a (b - a) s.

(** [s[i] === t[j]]: an index out of range reads [undefined] ([None]). *)
Definition charEq (x y : option ascii) : bool :=
  match x, y with
  | Some a, Some b => Ascii.eqb a b
  | None, None => true
  | _, _ => false
  end.

(** White space of [trim] among the Latin-1 code units: TAB, LF, VT, FF,
    CR, SPACE and NBSP. *)
Definition isWhite (c : ascii) : bool :=
  let n := nat_of_ascii c in
  ((9 <=? n) && (n <=? 13)) || (n =? 32) || (n =? 160).

Fixpoint trimStart (s : string) : string :=
  match s with
  | EmptyString => EmptyString
  | String c r => if isWhite c then trimStart r else s
  end.

Fixpoint trimEnd (s : string) : string :=
  match s with
  | EmptyString => EmptyString
  | String c r =>
      match trimEnd r with
      | EmptyString => if isWhite c then EmptyString else String c EmptyString
      | r' => String c r'
      end
  end.

Definition trim (s : string) : string := trimEnd (trimStart s).

(* ================================================================== *)
(** * PhoneticAdjuster                                                 *)
(* ================================================================== *)

Local Open Scope Q_scope.

(** [isVowel(char)]. *)
Definition isVowel (c : ascii) : bool :=
  includes "aeiouAEIOU" (String c EmptyString).

Definition keyboard : list string := ["qwertyuiop"; "asdfghjkl"; "zxcvbnm"]%string.

(** Position of a key: [None] is the source's [null]. *)
Definition keyPos := option (nat * nat).

(** One turn of the [for (let row ...)] loop of [getKeyboardDistance]. *)
Definition keyboardRow (char1 char2 : ascii) (st : keyPos * keyPos)
    (rk : nat * string) : keyPos * keyPos :=
  let '(pos1, pos2) := st in
  let '(row, keys) := rk in
  let col1 := indexOf keys (lower_ascii char1) in
  let col2 := indexOf keys (lower_ascii char2) in
  let pos1 := match col1 with Some c => Some (row, c) | None => pos1 end in
  let pos2 := match col2 with Some c => Some (row, c) | None => pos2 end in
  (pos1, pos2).

(** The end of [getKeyboardDistance]: 5 if a key was not found, else the
    Manhattan distance of the two positions. *)
Definition positionDistance (st : keyPos * keyPos) : Z :=
  match st with
  | (Some (r1, c1), Some (r2, c2)) =>
      (Z.abs (Z.of_nat r1 - Z.of_nat r2) + Z.abs (Z.of_nat c1 - Z.of_nat c2))%Z
  | _ => 5%Z
  end.

(** [getKeyboardDistance(char1, char2)]. *)
Definition getKeyboardDistance (char1 char2 : ascii) : Z :=
  let rows := combine (seq 0 (List.length keyboard)) keyboard in
  positionDistance (fold_left (keyboardRow char1 char2) rows (None, None)).

Definition phoneticGroups : list (string * string) :=
  [("ph", "f"); ("ck", "k"); ("qu", "kw"); ("x", "ks");
   ("wr", "r"); ("kn", "n"); ("gn", "n"); ("wh", "w");
   ("gh", "g"); ("mb", "m"); ("ps", "s"); ("pn", "n")]%string.

(** One turn of the loop over [phoneticGroups]. *)
Definition phoneticRule (sub1 sub2 : string) (cost : Q)
    (g : string * string) : Q :=
  let '(pattern1, pattern2) := g in
  let cost :=
    if includes sub1 pattern1 && includes sub2 pattern2 then cost * 0.8
    else cost in
  if includes sub2 pattern1 && includes sub1 pattern2 then cost * 0.8
  else cost.

(** One turn of the character loop: [char1 = sub1[i]], [char2 = sub2[i]]. *)
Definition phoneticChar (cost : Q) (cc : ascii * ascii) : Q :=
  let '(char1, char2) := cc in
  let cost := if isVowel char1 && isVowel char2 then cost * 0.9 else cost in
  cost + inject_Z (getKeyboardDistance char1 char2) * 0.1.

(** [getPhoneticSimilarity(sub1, sub2)].  The character loop runs over the
    indices below [Math.min(sub1.length, sub2.length)], that is over the
    aligned pairs of characters. *)
Definition getPhoneticSimilarity (sub1 sub2 : string) : Q :=
  if falsy sub1 || falsy sub2 then 10
  else
    let cost :=
      Qabs (inject_Z (Z.of_nat (String.length sub1))
            - inject_Z (Z.of_nat (String.length sub2))) in
    let cost := fold_left (phoneticRule sub1 sub2) phoneticGroups cost in
    fold_left phoneticChar
      (combine (list_ascii_of_string sub1) (list_ascii_of_string sub2)) cost.

(* ================================================================== *)
(** * EditDistanceCalculator                                           *)
(* ================================================================== *)

(** The matrix of the dynamic programme: an array of rows. *)
Definition Matrix := list (list Q).

(** [l[n] = x] for an index in range (the source never writes outside the
    allocated rows; out of range this model leaves the list unchanged). *)
Fixpoint upd {A : Type} (l : list A) (n : nat) (x : A) : list A :=
  match l, n with
  | [], _ => []
  | _ :: t, O => x :: t
  | h :: t, S n' => h :: upd t n' x
  end.

(** [matrix[i][j]]. *)
Definition mget (m : Matrix) (i j : nat) : Q := nth j (nth i m []) 0.

(** [matrix[i][j] = v]. *)
Definition mset (m : Matrix) (i j : nat) (v : Q) : Matrix :=
  upd m i (upd (nth i m []) j v).

Definition ofNat (n : nat) : Q := inject_Z (Z.of_nat n).

(** [Array(len1 + 1).fill(null).map(() => Array(len2 + 1).fill(0))]. *)
Definition newMatrix (len1 len2 : nat) : Matrix :=
  repeat (repeat 0 (len2 + 1)%nat) (len1 + 1)%nat.

(** The two base-case loops. *)
Definition initMatrix (len1 len2 : nat) : Matrix :=
  let m := newMatrix len1 len2 in
  let m := fold_left (fun m i => mset m i 0 (ofNat i)) (seq 0 (len1 + 1)) m in
  fold_left (fun m j => mset m 0 j (ofNat j)) (seq 0 (len2 + 1)) m.

(** [Math.min(a, b, c)]. *)
Definition min3 (a b c : Q) : Q := Qmin (Qmin a b) c.

(** The body of the inner loop, for one cell [(i, j)]. *)
Definition fillCell (s1 s2 : string) (i : nat) (m : Matrix) (j : nat) : Matrix :=
  let cost : Q :=
    if charEq (get (i - 1) s1) (get (j - 1) s2) then 0 else 1 in
  let deletion := mget m (i - 1) j + 1 in
  let insertion := mget m i (j - 1) + 1 in
  let substitution := mget m (i - 1) (j - 1) + cost in
  let m := mset m i j (min3 deletion insertion substitution) in
  let m :=
    if (1 <? i)%nat && (1 <? j)%nat &&
       charEq (get (i - 1) s1) (get (j - 2) s2) &&
       charEq (get (i - 2) s1) (get (j - 1) s2)
    then mset m i j (Qmin (mget m i j) (mget m (i - 2) (j - 2) + cost))
    else m in
  if ((i mod 3 =? 0) && (j mod 3 =? 0) && (2 <? i) && (2 <? j))%nat
  then
    let phoneticCost :=
      getPhoneticSimilarity (jsSubstring s1 (i - 3) i) (jsSubstring s2 (j - 3) j) in
    mset m i j (Qmin (mget m i j) (mget m (i - 3) (j - 3) + phoneticCost))
  else m.

(** The inner loop [for (let j = 1; j <= len2; j++)]. *)
Definition fillRow (s1 s2 : string) (m : Matrix) (i : nat) : Matrix :=
  fold_left (fillCell s1 s2 i) (seq 1 (String.length s2)) m.

(** The outer loop [for (let i = 1; i <= len1; i++)]. *)
Definition fillMatrix (s1 s2 : string) (m : Matrix) : Matrix :=
  fold_left (fillRow s1 s2) (seq 1 (String.length s1)) m.

(** The body of the loop over the variations: [matrix[len1][len2]] after
    the matrix of the pair [(s1, s2)] is filled. *)
Definition variantDistance (s1 s2 : string) : Q :=
  let len1 := String.length s1 in
  let len2 := String.length s2 in
  mget (fillMatrix s1 s2 (initMatrix len1 len2)) len1 len2.

(** The three pairs the source compares. *)
Definition variations (str1 str2 : string) : list (string * string) :=
  [(str1, str2);
   (toLowerCase str1, toLowerCase str2);
   (stripNonAlnum str1, stripNonAlnum str2)].

(** [minDistance], [None] being its initial value [Infinity]. *)
Definition minStep (minDistance : option Q) (v : string * string) : option Q :=
  let d := variantDistance (fst v) (snd v) in
  match minDistance with
  | None => Some d
  | Some m => Some (Qmin m d)
  end.

(** [calculateLevenshteinDistance(str1, str2)] on two strings.  The final
    [None] case (an [Infinity] left after the loop) cannot happen: there
    are three variations. *)
Definition calculateLevenshteinDistance (str1 str2 : string) : Q :=
  if falsy str1 || falsy str2 then
    ofNat (Nat.max (String.length str1) (String.length str2))
  else if String.eqb str1 str2 then 0
  else
    match fold_left minStep (variations str1 str2) None with
    | Some d => d
    | None => 0
    end.


(* ================================================================== *)
(** * Numbers with the IEEE special values                             *)
(* ================================================================== *)

(** A JavaScript number over the carrier [A]: [NaN], the two infinities,
    or a finite value. *)
Inductive ext (A : Type) : Type :=
  | NaN
  | PInf
  | NInf
  | Fin (x : A).

Arguments NaN {A}.
Arguments PInf {A}.
Arguments NInf {A}.
Arguments Fin {A} x.

(** [x < y]; every comparison with [NaN] is false. *)
Definition extLtb {A : Type} (ltb : A -> A -> bool) (x y : ext A) : bool :=
  match x, y with
  | NaN, _ | _, NaN => false
  | Fin a, Fin b => ltb a b
  | NInf, NInf | PInf, _ | _, NInf => false
  | NInf, _ | _, PInf => true
  end.

(** [x <= y]; every comparison with [NaN] is false. *)
Definition extLeb {A : Type} (leb : A -> A -> bool) (x y : ext A) : bool :=
  match x, y with
  | NaN, _ | _, NaN => false
  | Fin a, Fin b => leb a b
  | NInf, _ | _, PInf => true
  | PInf, _ | _, NInf => false
  end.

Local Open Scope R_scope.

Definition Rltb (x y : R) : bool := if Rlt_dec x y then true else false.

(** [x < y] and [x > y] on numbers that may be special. *)
Definition jsLt (x y : ext R) : bool := extLtb Rltb x y.
Definition jsGt (x y : ext R) : bool := extLtb Rltb y x.

(** [x - y]. *)
Definition jsSub (x y : ext R) : ext R :=
  match x, y with
  | NaN, _ | _, NaN => NaN
  | Fin a, Fin b => Fin (a - b)
  | PInf, PInf | NInf, NInf => NaN
  | PInf, _ | _, NInf => PInf
  | NInf, _ | _, PInf => NInf
  end.

(** [Math.abs(x)]. *)
Definition jsAbs (x : ext R) : ext R :=
  match x with
  | NaN => NaN
  | PInf | NInf => PInf
  | Fin a => Fin (Rabs a)
  end.

(** [x / y] for finite [x] and [y]: a zero divisor gives an infinity of
    the sign of [x], or [NaN] for 0/0. *)
Definition jsDiv (x y : R) : ext R :=
  if Req_dec_T y 0 then
    if Rlt_dec 0 x then PInf else if Rlt_dec x 0 then NInf else NaN
  else Fin (x / y).

(** [x * k] for a finite [k]. *)
Definition jsMul (x : ext R) (k : R) : ext R :=
  match x with
  | NaN => NaN
  | Fin a => Fin (a * k)
  | PInf => if Rlt_dec 0 k then PInf else if Rlt_dec k 0 then NInf else NaN
  | NInf => if Rlt_dec 0 k then NInf else if Rlt_dec k 0 then PInf else NaN
  end.

(** [Math.max(a, x)] for a finite [a]: [NaN] if [x] is. *)
Definition jsMax (a : R) (x : ext R) : ext R :=
  match x with
  | NaN => NaN
  | PInf => PInf
  | NInf => Fin a
  | Fin b => Fin (Rmax a b)
  end.

(* ================================================================== *)
(** * RelevanceScorer and ScoreCombiner                                *)
(* ================================================================== *)

(** [calculateRelevanceScore(distance, targetLength, queryLength)]. *)
Definition calculateRelevanceScore (distance : R)
    (targetLength queryLength : nat) : R :=
  if Req_dec_T distance 0 then 1
  else
    let maxLength := Nat.max targetLength queryLength in
    if (maxLength =? 0)%nat then 0
    else
      let normalizedDistance := distance / INR maxLength in
      let relevanceScore := exp (-2 * normalizedDistance) in
      let lengthBonus := INR queryLength / INR maxLength in
      Rmin 1 (relevanceScore * (1 + lengthBonus * 0.2)).

(** [calculateFinalScore(totalScore, matchCount, queryLength)]. *)
Definition calculateFinalScore (totalScore : R)
    (matchCount queryLength : nat) : ext R :=
  let finalScore := totalScore in
  let matchMultiplier := 1 + INR matchCount * 0.1 in
  let finalScore := finalScore * matchMultiplier in
  let queryNormalizer := ln (INR queryLength + 1) in
  let finalScore := jsDiv finalScore queryNormalizer in
  let finalScore :=
    if (2 <? matchCount)%nat then jsMul finalScore 1.2 else finalScore in
  jsMax 0 finalScore.

(* ================================================================== *)
(** * FieldAggregator                                                  *)
(* ================================================================== *)

Local Open Scope nat_scope.

(** The backslash, code unit 92. *)
Definition backslash : ascii := ascii_of_nat 92.

(** [s.split(/\\s+/)].  In a regular expression literal the doubled
    backslash is an escaped backslash, so the separator is a backslash
    followed by one or more letters [s].  [inSep] tells that the
    characters just before belong to a separator, which further letters
    [s] extend. *)
Fixpoint splitAux (inSep : bool) (s : string) : string * list string :=
  match s with
  | EmptyString => (EmptyString, [])
  | String c r =>
      if inSep && Ascii.eqb c "s" then splitAux true r
      else if Ascii.eqb c backslash && prefix "s" r then
        let '(piece, pieces) := splitAux true r in
        (EmptyString, piece :: pieces)
      else
        let '(piece, pieces) := splitAux false r in
        (String c piece, pieces)
  end.

Definition split (s : string) : list string :=
  let '(piece, pieces) := splitAux false s in piece :: pieces.

Record CategoryRecord : Type := mkCategory { categoryName : string }.

(** A product as the search route reads it.  [None] stands for an absent
    field ([null] or [undefined]). *)
Record Product : Type := mkProduct {
  name : string;
  description : option string;
  price : string;
  sku : option string;
  tags : option (list string);
  Category : option CategoryRecord
}.

(** The two accumulators of the loop body over the products. *)
Record Agg : Type := mkAgg {
  totalRelevanceScore : R;
  matchCount : nat
}.

(** [totalRelevanceScore += x]. *)
Definition addScore (st : Agg) (x : R) : Agg :=
  mkAgg (totalRelevanceScore st + x)%R (matchCount st).

(** [if (relevance > threshold) matchCount++]. *)
Definition countIfAbove (st : Agg) (relevance threshold : R) : Agg :=
  if Rltb threshold relevance
  then mkAgg (totalRelevanceScore st) (S (matchCount st))
  else st.

(** The recurring pair of calls
    [calculateRelevanceScore(calculateLevenshteinDistance(q, t), targetLength, queryLength)]. *)
Definition probe (q t : string) (targetLength queryLength : nat) : R :=
  calculateRelevanceScore (Q2R (calculateLevenshteinDistance q t))
    targetLength queryLength.

(** The relevance of a whole field [text]: both strings are lowercased and
    trimmed for the distance, the lengths are those of the strings as
    given.  This is [nameRelevance], [descRelevance], [categoryRelevance],
    [skuRelevance] and [tagRelevance] of the source. *)
Definition wholeRelevance (query text : string) : R :=
  probe (trim (toLowerCase query)) (trim (toLowerCase text))
    (String.length text) (String.length query).

(** The relevance of a word or of a substring [part] of a lowercased
    field: only the query is lowercased, nothing is trimmed.  This is
    [nameWordRelevance], [nameSubRelevance], [wordRelevance] and
    [subRelevance] of the source. *)
Definition partRelevance (query part : string) : R :=
  probe (toLowerCase query) part (String.length part) (String.length query).

(** The substrings [nameWord.substring(i, j)] of the two nested loops:
    [i = 0, 2, 4, ... < nameWord.length - 2] and
    [j = i + 3 .. Math.min(i + 5, nameWord.length)]. *)
Definition nameSubstrings (nameWord : string) : list string :=
  let len := String.length nameWord in
  flat_map
    (fun i =>
       let maxJ := Nat.min (i + 5) len in
       map (fun j => jsSubstring nameWord i j) (seq (i + 3) (maxJ + 1 - (i + 3))))
    (filter Nat.even (seq 0 (len - 2))).

Definition nameSubstringStep (query : string) (st : Agg) (nameSubstring : string) : Agg :=
  let nameSubRelevance := partRelevance query nameSubstring in
  addScore st (nameSubRelevance * 0.8).

(** The body of [for (const nameWord of nameWords)]. *)
Definition nameWordStep (query : string) (st : Agg) (nameWord : string) : Agg :=
  let nameWordRelevance := partRelevance query nameWord in
  let st := addScore st (nameWordRelevance * 2) in
  if 4 <? String.length nameWord
  then fold_left (nameSubstringStep query) (nameSubstrings nameWord) st
  else st.

(** [nameWords]. *)
Definition nameWordsOf (p : Product) : list string :=
  split (toLowerCase (name p)).

(** The name part of the loop body. *)
Definition scoreName (query : string) (p : Product) (st : Agg) : Agg :=
  let nameRelevance := wholeRelevance query (name p) in
  let st := addScore st (nameRelevance * 3) in
  let st := countIfAbove st nameRelevance 0.3 in
  fold_left (nameWordStep query) (nameWordsOf p) st.

(** The body of [for (const word of importantWords)]. *)
Definition descWordStep (query : string) (st : Agg) (word : string) : Agg :=
  if 3 <? String.length word then
    let wordRelevance := partRelevance query word in
    let st := addScore st (wordRelevance * 0.5) in
    let st := countIfAbove st wordRelevance 0.4 in
    if 5 <? String.length word then
      let midpoint := String.length word / 2 in
      let substring := jsSubstring word 0 (midpoint + 2) in
      let subRelevance := partRelevance query substring in
      addScore st (subRelevance * 0.1)
    else st
  else st.

(** [importantWords]. *)
Definition importantWordsOf (d : string) : list string :=
  firstn 5 (split (toLowerCase d)).

Definition scoreDescription (query : string) (p : Product) (st : Agg) : Agg :=
  match description p with
  | Some d =>
      if 0 <? String.length d then
        let descRelevance := wholeRelevance query d in
        let st := addScore st (descRelevance * 1.5) in
        let st := countIfAbove st descRelevance 0.2 in
        fold_left (descWordStep query) (importantWordsOf d) st
      else st
  | None => st
  end.

Definition scoreCategory (query : string) (p : Product) (st : Agg) : Agg :=
  match Category p with
  | Some c =>
      if falsy (categoryName c) then st
      else
        let categoryRelevance := wholeRelevance query (categoryName c) in
        let st := addScore st (categoryRelevance * 1) in
        countIfAbove st categoryRelevance 0.3
  | None => st
  end.

Definition scoreSku (query : string) (p : Product) (st : Agg) : Agg :=
  match sku p with
  | Some s =>
      if falsy s then st
      else
        let skuRelevance := wholeRelevance query s in
        let st := addScore st (skuRelevance * 2) in
        countIfAbove st skuRelevance 0.4
  | None => st
  end.

(** The body of [for (const tag of product.tags)]. *)
Definition tagStep (query : string) (st : Agg) (tag : string) : Agg :=
  let tagRelevance := wholeRelevance query tag in
  let st := addScore st (tagRelevance * 0.8) in
  countIfAbove st tagRelevance 0.4.

Definition scoreTags (query : string) (p : Product) (st : Agg) : Agg :=
  match tags p with
  | Some ts => fold_left (tagStep query) ts st
  | None => st
  end.

(** The accumulators after all the probes of one product. *)
Definition aggregate (query : string) (p : Product) : Agg :=
  let st := mkAgg 0%R 0 in
  let st := scoreName query p st in
  let st := scoreDescription query p st in
  let st := scoreCategory query p st in
  let st := scoreSku query p st in
  scoreTags query p st.

(* ================================================================== *)
(** * Ranker                                                           *)
(* ================================================================== *)

(** A product with the two values the loop stores in its [dataValues]
    ([relevanceBreakdown] and [qualityCheck] are diagnostics that the
    ranking never reads; they are left out). *)
Record Scored : Type := mkScored {
  product : Product;
  searchScore : ext R;
  scoredMatchCount : nat
}.

(** The end of the loop body: the final score and the inclusion test. *)
Definition scoreProduct (query : string) (p : Product) : option Scored :=
  let st := aggregate query p in
  let finalScore :=
    calculateFinalScore (totalRelevanceScore st) (matchCount st)
      (String.length query) in
  if jsGt finalScore (Fin 0.1%R) || (0 <? matchCount st)
  then Some (mkScored p finalScore (matchCount st))
  else None.

(** [results] after the loop over [allProducts]. *)
Definition scoreAll (query : string) (allProducts : list Product) : list Scored :=
  flat_map
    (fun p => match scoreProduct query p with Some s => [s] | None => [] end)
    allProducts.

(** The comparator handed to [results.sort].  [localeCompare] is the
    collation of the host ([String.prototype.localeCompare]). *)
Definition compareResults (localeCompare : string -> string -> Z)
    (a b : Scored) : ext R :=
  if jsGt (jsAbs (jsSub (searchScore a) (searchScore b))) (Fin 0.01%R)
  then jsSub (searchScore b) (searchScore a)
  else if negb (scoredMatchCount a =? scoredMatchCount b)
  then Fin (IZR (Z.of_nat (scoredMatchCount b) - Z.of_nat (scoredMatchCount a)))
  else Fin (IZR (localeCompare (name (product a)) (name (product b)))).

(** ** [Array.prototype.sort]

    The sort calls its comparator through [SortCompare], which reads a
    [NaN] result as 0, so only the sign of the result matters. *)
Definition isNeg (order : ext R) : bool := jsLt order (Fin 0%R).
Definition isPos (order : ext R) : bool := jsGt order (Fin 0%R).

Section SortSpecification.
Context {A : Type}.
Variable cmp : A -> A -> ext R.

Definition ltCF (a b : A) : Prop := isNeg (cmp a b) = true.
Definition gtCF (a b : A) : Prop := isPos (cmp a b) = true.
Definition eqCF (a b : A) : Prop :=
  isNeg (cmp a b) = false /\ isPos (cmp a b) = false.

(** [b] does not compare before [a]. *)
Definition leCF (a b : A) : Prop := isNeg (cmp b a) = false.

(** ECMAScript's "consistent comparator for a set of values", the set
    being the elements of [l]. *)
Record ConsistentComparator (l : list A) : Prop := {
  cc_refl : forall a, In a l -> eqCF a a;
  cc_sym : forall a b, In a l -> In b l -> eqCF a b -> eqCF b a;
  cc_eq_trans : forall a b c, In a l -> In b l -> In c l ->
      eqCF a b -> eqCF b c -> eqCF a c;
  cc_lt_trans : forall a b c, In a l -> In b l -> In c l ->
      ltCF a b -> ltCF b c -> ltCF a c;
  cc_gt_trans : forall a b c, In a l -> In b l -> In c l ->
      gtCF a b -> gtCF b c -> gtCF a c
}.

(** What ECMAScript promises of the sorted array [out] of [l]: it is a
    permutation of [l], and if the comparator is consistent on [l] every
    element that compares before another one stands before it.  For
    another comparator the order is left to the implementation. *)
Definition SortedBy (l out : list A) : Prop :=
  Permutation l out /\
  (ConsistentComparator l ->
   forall i j x y,
     nth_error out i = Some x -> nth_error out j = Some y ->
     ltCF x y -> i < j).
End SortSpecification.

Definition SortContract
    (sort : forall A : Type, (A -> A -> ext R) -> list A -> list A) : Prop :=
  forall (A : Type) (cmp : A -> A -> ext R) (l : list A),
    SortedBy cmp l (sort A cmp l).

(** ** The sort of V8 on short arrays

    Node runs on V8, whose [Array.prototype.sort] is a TimSort.  For an
    array of fewer than 64 elements the minimal run length is the length
    of the array: the initial run is detected (and reversed if it is
    strictly descending) and every later element is placed by binary
    insertion. *)
Section V8Sort.
Context {A : Type}.
Variable cmp : A -> A -> ext R.

(** The loop of [CountAndMakeRun]; [run] holds the run so far, last
    element first. *)
Fixpoint extendRun (isDescending : bool) (previousElement : A)
    (rest run : list A) : list A * list A :=
  match rest with
  | [] => (run, [])
  | currentElement :: rest' =>
      let order := cmp currentElement previousElement in
      let stop := if isDescending then negb (isNeg order) else isNeg order in
      if stop then (run, rest)
      else extendRun isDescending currentElement rest' (currentElement :: run)
  end.

(** [CountAndMakeRun]: the initial run in ascending order, and the
    elements behind it. *)
Definition countAndMakeRun (l : list A) : list A * list A :=
  match l with
  | elementHigh :: elementLow :: rest =>
      let isDescending := isNeg (cmp elementLow elementHigh) in
      let '(run, remaining) :=
        extendRun isDescending elementLow rest [elementLow; elementHigh] in
      (if isDescending then run else rev run, remaining)
  | _ => (l, [])
  end.

(** The search loop of [BinaryInsertionSort]; it ends within
    [fuel = right - left] turns. *)
Fixpoint findInsertionPoint (fuel : nat) (pivot : A) (a : list A)
    (left right : nat) : nat :=
  match fuel with
  | O => left
  | S fuel' =>
      if left <? right then
        let mid := left + (right - left) / 2 in
        match nth_error a mid with
        | Some e =>
            if isNeg (cmp pivot e)
            then findInsertionPoint fuel' pivot a left mid
            else findInsertionPoint fuel' pivot a (mid + 1) right
        | None => left
        end
      else left
  end.

(** One turn of the outer loop of [BinaryInsertionSort]: [pivot] goes
    into the sorted prefix [a]. *)
Definition binaryInsert (a : list A) (pivot : A) : list A :=
  let left := findInsertionPoint (List.length a) pivot a 0 (List.length a) in
  firstn left a ++ pivot :: skipn left a.

Definition v8SortShort (l : list A) : list A :=
  let '(run, remaining) := countAndMakeRun l in
  fold_left binaryInsert remaining run.
End V8Sort.

(** [results.sort(...)] of the smart search, for a sort function [sort]. *)
Definition rankResults
    (sort : forall A : Type, (A -> A -> ext R) -> list A -> list A)
    (localeCompare : string -> string -> Z) (results : list Scored) : list Scored :=
  sort Scored (compareResults localeCompare) results.

(* ================================================================== *)
(** * SearchService: price filter and simple mode                      *)
(* ================================================================== *)

Local Open Scope Z_scope.

Definition digitValue (c : ascii) : option Z :=
  let n := nat_of_ascii c in
  if ((48 <=? n) && (n <=? 57))%nat then Some (Z.of_nat (n - 48)) else None.

(** The longest run of decimal digits at the head of [s]: its value after
    the digits in [acc], the number of digits read, and what follows. *)
Fixpoint readDigits (s : string) (acc : Z) (count : nat) : Z * nat * string :=
  match s with
  | EmptyString => (acc, count, s)
  | String c r =>
      match digitValue c with
      | Some d => readDigits r (10 * acc + d) (S count)
      | None => (acc, count, s)
      end
  end.

(** The value of an [ExponentPart] at the head of [s]; 0 if there is
    none (an [e] that no digit follows is not part of the number). *)
Definition readExponent (s : string) : Z :=
  match s with
  | String c r =>
      if Ascii.eqb c "e" || Ascii.eqb c "E" then
        let '(sign, r') :=
          match r with
          | String c' r2 =>
              if Ascii.eqb c' "+" then (1, r2)
              else if Ascii.eqb c' "-" then (-1, r2)
              else (1, r)
          | EmptyString => (1, r)
          end in
        let '(v, count, _) := readDigits r' 0 0 in
        if (count =? 0)%nat then 0 else sign * v
      else 0
  | EmptyString => 0
  end.

(** The longest prefix of [s] that is a [StrUnsignedDecimalLiteral], as an
    exact rational; [NaN] if there is none. *)
Definition parseUnsigned (s : string) : ext Q :=
  if prefix "Infinity" s then PInf
  else
    let '(intPart, intCount, r) := readDigits s 0 0 in
    let '(fracPart, fracCount, r') :=
      match r with
      | String c r2 => if Ascii.eqb c "." then readDigits r2 0 0 else (0, O, r)
      | EmptyString => (0, O, r)
      end in
    if (intCount + fracCount =? 0)%nat then NaN
    else
      Fin ((inject_Z intPart
            + inject_Z fracPart / inject_Z (10 ^ Z.of_nat fracCount))
           * Qpower 10 (readExponent r'))%Q.

Definition extOpp (x : ext Q) : ext Q :=
  match x with
  | NaN => NaN
  | PInf => NInf
  | NInf => PInf
  | Fin q => Fin (- q)%Q
  end.

(** [parseFloat(s)]: leading white space is skipped, then the longest
    prefix that is a decimal literal is read. *)
Definition parseFloat (s : string) : ext Q :=
  match trimStart s with
  | String c r =>
      if Ascii.eqb c "-" then extOpp (parseUnsigned r)
      else if Ascii.eqb c "+" then parseUnsigned r
      else parseUnsigned (String c r)
  | EmptyString => NaN
  end.

(** [x >= y] on parsed numbers. *)
Definition jsGeQ (x y : ext Q) : bool := extLeb Qle_bool y x.
Definition jsLeQ (x y : ext Q) : bool := extLeb Qle_bool x y.

Local Open Scope nat_scope.

(** The two [if (minPrice)] / [if (maxPrice)] filters.  A query parameter
    is [None] when it is not given; [priceOf] reads [p.price]. *)
Definition applyPriceFilters {A : Type} (priceOf : A -> string)
    (minPrice maxPrice : option string) (results : list A) : list A :=
  let results :=
    match minPrice with
    | Some m =>
        if falsy m then results
        else filter (fun p => jsGeQ (parseFloat (priceOf p)) (parseFloat m)) results
    | None => results
    end in
  match maxPrice with
  | Some m =>
      if falsy m then results
      else filter (fun p => jsLeQ (parseFloat (priceOf p)) (parseFloat m)) results
  | None => results
  end.

(** The branch of the route without the smart search: substring
    containment on the name or the description. *)
Definition simpleResults (query : string) (allProducts : list Product) : list Product :=
  filter
    (fun p =>
       includes (toLowerCase (name p)) (toLowerCase query) ||
       match description p with
       | Some d => negb (falsy d) && includes (toLowerCase d) (toLowerCase query)
       | None => false
       end)
    allProducts.

(** [results] of the route before truncation, in simple mode. *)
Definition searchSimple (query : string) (minPrice maxPrice : option string)
    (allProducts : list Product) : list Product :=
  applyPriceFilters price minPrice maxPrice (simpleResults query allProducts).

(** [results.slice(0, 50)], the results that the response carries. *)
Definition sliceResults {A : Type} (results : list A) : list A :=
  firstn 50 results.

(** [results] of the route before truncation, with the smart search. *)
Definition searchSmart
    (sort : forall A : Type, (A -> A -> ext R) -> list A -> list A)
    (localeCompare : string -> string -> Z)
    (query : string) (minPrice maxPrice : option string)
    (allProducts : list Product) : list Scored :=
  applyPriceFilters (fun s => price (product s)) minPrice maxPrice
    (rankResults sort localeCompare (scoreAll query allProducts)).


(* ================================================================== *)
(** * The recurrence that the filled matrix obeys                      *)
(* ================================================================== *)

(** A matrix of [rows] rows of [cols] cells each. *)
Definition shaped (rows cols : nat) (m : Matrix) : Prop :=
  List.length m = rows /\ forall i, i < rows -> List.length (nth i m []) = cols.

(** [cost] of the cell [(i, j)]. *)
Definition cellCost (s1 s2 : string) (i j : nat) : Q :=
  if charEq (get (i - 1) s1) (get (j - 1) s2) then 0%Q else 1%Q.

(** The test of the transposition step. *)
Definition transposed (s1 s2 : string) (i j : nat) : bool :=
  (1 <? i) && (1 <? j) &&
  charEq (get (i - 1) s1) (get (j - 2) s2) &&
  charEq (get (i - 2) s1) (get (j - 1) s2).

(** The test of the phonetic step. *)
Definition phoneticCell (i j : nat) : bool :=
  (i mod 3 =? 0) && (j mod 3 =? 0) && (2 <? i) && (2 <? j).

(** What the loop body leaves in the cell [(i, j)], from the cells it
    reads in [m]. *)
Definition cellValue (s1 s2 : string) (m : Matrix) (i j : nat) : Q :=
  let cost := cellCost s1 s2 i j in
  let v :=
    min3 (mget m (i - 1) j + 1) (mget m i (j - 1) + 1)
         (mget m (i - 1) (j - 1) + cost)%Q in
  let v :=
    if transposed s1 s2 i j
    then Qmin v (mget m (i - 2) (j - 2) + cost)%Q else v in
  if phoneticCell i j
  then Qmin v (mget m (i - 3) (j - 3)
               + getPhoneticSimilarity (jsSubstring s1 (i - 3) i)
                                       (jsSubstring s2 (j - 3) j))%Q
  else v.

(** The cells of the rows below [i], and of row [i] left of column [j],
    hold their final value; row 0 and column 0 hold the base cases. *)
Record FilledUpTo (s1 s2 : string) (i j : nat) (m : Matrix) : Prop := {
  fu_shape : shaped (String.length s1 + 1) (String.length s2 + 1) m;
  fu_col0 : forall a, a <= String.length s1 -> mget m a 0 = ofNat a;
  fu_row0 : forall b, b <= String.length s2 -> mget m 0 b = ofNat b;
  fu_cell : forall a b,
      1 <= a <= String.length s1 -> 1 <= b <= String.length s2 ->
      a < i \/ (a = i /\ b < j) ->
      mget m a b = cellValue s1 s2 m a b
}.

(** Every cell holds its final value. *)
Definition Filled (s1 s2 : string) (m : Matrix) : Prop :=
  FilledUpTo s1 s2 (String.length s1 + 1) 1 m.

(* ================================================================== *)
(** * Match counts in closed form                                      *)
(* ================================================================== *)

(** 1 if [relevance > threshold], else 0. *)
Definition above (relevance threshold : R) : nat :=
  if Rltb threshold relevance then 1 else 0.

(** The words of [words] that the description loop counts as a match. *)
Definition countedWords (query : string) (words : list string) : nat :=
  List.length
    (filter (fun word => (3 <? String.length word)
                         && Rltb 0.4 (partRelevance query word)) words).

(** The tags that the tag loop counts as a match. *)
Definition countedTags (query : string) (ts : list string) : nat :=
  List.length (filter (fun tag => Rltb 0.4 (wholeRelevance query tag)) ts).

(** The increments of [matchCount], probe by probe. *)
Definition matchesByProbe (query : string) (p : Product) : nat :=
  above (wholeRelevance query (name p)) 0.3
  + match description p with
    | Some d =>
        if 0 <? String.length d
        then above (wholeRelevance query d) 0.2
             + countedWords query (importantWordsOf d)
        else 0
    | None => 0
    end
  + match Category p with
    | Some c =>
        if falsy (categoryName c) then 0
        else above (wholeRelevance query (categoryName c)) 0.3
    | None => 0
    end
  + match sku p with
    | Some s => if falsy s then 0 else above (wholeRelevance query s) 0.4
    | None => 0
    end
  + match tags p with
    | Some ts => countedTags query ts
    | None => 0
    end.

(** The match count as the specification words it: one increment for each
    of the five probe categories (name, description, category name, SKU,
    tags) whose primary relevance exceeds its threshold, the relevance of
    a whole field being the primary one and the tags counting once if a
    tag exceeds the threshold. *)
Definition matchesByCategory (query : string) (p : Product) : nat :=
  above (wholeRelevance query (name p)) 0.3
  + match description p with
    | Some d => if 0 <? String.length d
                then above (wholeRelevance query d) 0.2 else 0
    | None => 0
    end
  + match Category p with
    | Some c =>
        if falsy (categoryName c) then 0
        else above (wholeRelevance query (categoryName c)) 0.3
    | None => 0
    end
  + match sku p with
    | Some s => if falsy s then 0 else above (wholeRelevance query s) 0.4
    | None => 0
    end
  + match tags p with
    | Some ts =>
        if existsb (fun tag => Rltb 0.4 (wholeRelevance query tag)) ts
        then 1 else 0
    | None => 0
    end.

(** A product with a name and a one-word description only. *)
Definition cable : Product :=
  mkProduct "Cable" (Some "cable") "9.99" None None None.

(** A product with a name and a price only. *)
Definition laptopStand : Product :=
  mkProduct "Laptop Stand" None "10.00" None None None.

(* ================================================================== *)
(** * The tie-break by name                                            *)
(* ================================================================== *)

Definition Rleb (x y : R) : bool := if Rle_dec x y then true else false.

(** [x <= y] on numbers that may be special. *)
Definition jsLe (x y : ext R) : bool := extLeb Rleb x y.

(** The final scores of [a] and [b] differ by at most 0.01. *)
Definition nearTie (a b : Scored) : Prop :=
  jsLe (jsAbs (jsSub (searchScore a) (searchScore b))) (Fin 0.01%R) = true.

(** The tie-break as the specification words it, for the sorted results
    [out]: of two products with final scores within 0.01 of each other
    and the same match count, the one whose name is smaller for
    [localeCompare] comes first. *)
Definition nameTieBreak (localeCompare : string -> string -> Z)
    (out : list Scored) : Prop :=
  forall i j x y,
    nth_error out i = Some x -> nth_error out j = Some y ->
    nearTie x y ->
    scoredMatchCount x = scoredMatchCount y ->
    (localeCompare (name (product x)) (name (product y)) < 0)%Z ->
    i < j.

(** A collation: the order of the code units.  On names made of capital
    ASCII letters only, or of small ones only, the collation of the host
    orders them the same way. *)
Definition codeUnitCompare (a b : string) : Z :=
  match String.compare a b with
  | Lt => (-1)%Z
  | Eq => 0%Z
  | Gt => 1%Z
  end.

(** A catalog of three products with a name and a description only, in
    the order in which the catalog holds them. *)
Definition vase : Product :=
  mkProduct "Vase" (Some "sturdy") "24.00" None None None.

Definition desk : Product :=
  mkProduct "Desk"
    (Some "SolidOakWritingDeskWithTwoDrawersAndBuiltCableManagementTray")
    "180.00" None None None.

Definition lamp : Product :=
  mkProduct "Lamp" (Some "adjustable") "35.00" None None None.

Definition showroom : list Product := [vase; desk; lamp].

(** A catalog of two of them. *)
Definition shelf : list Product := [vase; lamp].

(* ================================================================== *)
(** * Further components                                               *)
(* ================================================================== *)

(** The rest of the development covers, besides more of the search
    engine: the JSON fields of the search response that depend on the
    results; the reconnect strategy of the Redis client; the loop that
    totals a new order; and, from the earlier version of the product
    route, the search that counts matching characters and sorts with a
    bubble sort.

    Conventions added to those of the head of the file.
    - A lookup in the database ([Product.findByPk]) is a function from an
      identifier to an optional row; the routes that write to the
      database or to the cache are not modelled.
    - The scores of the earlier search are sums of 1 and 0.5, which
      binary floating point holds exactly: they are exact rationals.
    - A quantity in the body of an order is a JSON number, an exact
      rational; a subtotal is a parsed price times a quantity, an
      [ext Q]. *)

From Stdlib Require Lqa.

(* ================================================================== *)
(** * Measures used to bound the edit distance                         *)
(* ================================================================== *)

(** The difference of the lengths of [a] and [b]. *)
Definition lengthGap (a b : string) : nat :=
  Nat.max (String.length a) (String.length b)
  - Nat.min (String.length a) (String.length b).

(** [a[k] !== b[k]]. *)
Definition differ (a b : string) (k : nat) : bool :=
  negb (charEq (get k a) (get k b)).

(** The number of positions below the length of [a] at which [a] and [b]
    hold different characters. *)
Definition mismatches (a b : string) : nat :=
  List.length (filter (differ a b) (seq 0 (String.length a))).







(* ================================================================== *)
(** * The score verification of the search loop                        *)
(* ================================================================== *)

(** [Math.abs(verificationScore - finalScore) > 0.001], the test that
    guards the warning "Score mismatch detected". *)
Definition scoreMismatch (finalScore verificationScore : ext R) : bool :=
  jsGt (jsAbs (jsSub verificationScore finalScore)) (Fin 0.001%R).

(** The test on the two scores of the loop body: [verificationScore] is a
    second call of [calculateFinalScore] on the arguments of the first. *)
Definition verificationMismatch (totalRelevanceScore : R)
    (matchCount queryLength : nat) : bool :=
  let finalScore :=
    calculateFinalScore totalRelevanceScore matchCount queryLength in
  let verificationScore :=
    calculateFinalScore totalRelevanceScore matchCount queryLength in
  scoreMismatch finalScore verificationScore.

(* ================================================================== *)
(** * The response of the search route                                 *)
(* ================================================================== *)

(** The two price tests of the route on one price: a bound that is not
    given, or given as the empty string, lets every price through. *)
Definition withinPriceBounds (minPrice maxPrice : option string)
    (price : string) : bool :=
  match minPrice with
  | Some m => falsy m || jsGeQ (parseFloat price) (parseFloat m)
  | None => true
  end
  &&
  match maxPrice with
  | Some m => falsy m || jsLeQ (parseFloat price) (parseFloat m)
  | None => true
  end.

(** The fields of the JSON response that depend on the results:
    [results], [count], [totalProducts] and [performance.comparisons]. *)
Record SearchResponse (A : Type) : Type := mkSearchResponse {
  respResults : list A;
  respCount : nat;
  respTotalProducts : nat;
  respComparisons : nat
}.

Arguments mkSearchResponse {A}.
Arguments respResults {A}.
Arguments respCount {A}.
Arguments respTotalProducts {A}.
Arguments respComparisons {A}.

(** [res.json({...})] for the results [results]; [smart] tells whether
    [ENABLE_SMART_SEARCH] is set. *)
Definition respond {A : Type} (smart : bool) (results : list A)
    (allProducts : list Product) : SearchResponse A :=
  mkSearchResponse
    (sliceResults results)
    (List.length results)
    (List.length allProducts)
    (if smart then List.length allProducts * 5 else List.length allProducts).

Definition smartSearchResponse
    (sort : forall A : Type, (A -> A -> ext R) -> list A -> list A)
    (localeCompare : string -> string -> Z)
    (query : string) (minPrice maxPrice : option string)
    (allProducts : list Product) : SearchResponse Scored :=
  respond true
    (searchSmart sort localeCompare query minPrice maxPrice allProducts)
    allProducts.

Definition simpleSearchResponse
    (query : string) (minPrice maxPrice : option string)
    (allProducts : list Product) : SearchResponse Product :=
  respond false (searchSimple query minPrice maxPrice allProducts) allProducts.

(** In [out], [x] stands before [y] whenever [before x y] holds. *)
Definition rankedBefore (before : Scored -> Scored -> Prop)
    (out : list Scored) : Prop :=
  forall i j x y,
    nth_error out i = Some x -> nth_error out j = Some y ->
    before x y -> i < j.



(* ================================================================== *)
(** * Redis client: the reconnect strategy                             *)
(* ================================================================== *)

(** What [reconnectStrategy] returns: an [Error], which ends the
    reconnection, or the number of milliseconds to wait. *)
Inductive Reconnect : Type :=
  | GiveUp (message : string)
  | RetryAfter (milliseconds : nat).

(** [reconnectStrategy: (retries) => ...] of [initRedis]. *)
Definition reconnectStrategy (retries : nat) : Reconnect :=
  if 10 <? retries then GiveUp "Redis reconnection limit exceeded"
  else RetryAfter (Nat.min (retries * 100) 3000).

(* ================================================================== *)
(** * Order route: the total of an order                               *)
(* ================================================================== *)

(** [x * k] and [x + y] on parsed numbers. *)
Definition extMulQ (x : ext Q) (k : Q) : ext Q :=
  match x with
  | NaN => NaN
  | Fin a => Fin (a * k)%Q
  | PInf => if Qlt_le_dec 0 k then PInf else if Qlt_le_dec k 0 then NInf else NaN
  | NInf => if Qlt_le_dec 0 k then NInf else if Qlt_le_dec k 0 then PInf else NaN
  end.

Definition extAddQ (x y : ext Q) : ext Q :=
  match x, y with
  | NaN, _ | _, NaN => NaN
  | Fin a, Fin b => Fin (a + b)%Q
  | PInf, NInf | NInf, PInf => NaN
  | PInf, _ | _, PInf => PInf
  | NInf, _ | _, NInf => NInf
  end.

(** An element of [items] in the body of the request: a product
    identifier and a quantity, a JSON number. *)
Record OrderLine : Type := mkOrderLine {
  lineProductId : string;
  lineQuantity : Q
}.

(** An element of [orderItems]. *)
Record OrderItemRow : Type := mkOrderItemRow {
  rowProductId : string;
  rowQuantity : Q;
  rowPrice : string;
  rowSubtotal : ext Q
}.

(** The loop [for (const item of items)] of the route that creates an
    order, from the values [totalAmount] and [orderItems] reached so far.
    [findByPk] is the lookup of a product by its identifier.  The result
    is either the identifier in the 404 answer "Product ... not found",
    which ends the request, or the total and the items at the end of the
    loop. *)
Fixpoint orderLines (findByPk : string -> option Product)
    (items : list OrderLine) (totalAmount : ext Q)
    (orderItems : list OrderItemRow)
    : string + (ext Q * list OrderItemRow) :=
  match items with
  | [] => inr (totalAmount, orderItems)
  | item :: rest =>
      match findByPk (lineProductId item) with
      | None => inl (lineProductId item)
      | Some product =>
          let subtotal :=
            extMulQ (parseFloat (price product)) (lineQuantity item) in
          orderLines findByPk rest (extAddQ totalAmount subtotal)
            (orderItems
             ++ [mkOrderItemRow (lineProductId item) (lineQuantity item)
                   (price product) subtotal])%list
      end
  end.

(** The loop from [totalAmount = 0] and [orderItems = []]. *)
Definition orderTotal (findByPk : string -> option Product)
    (items : list OrderLine) : string + (ext Q * list OrderItemRow) :=
  orderLines findByPk items (Fin 0%Q) [].

(** The sum of the subtotals of [rows], added in order to [start]. *)
Definition sumSubtotals (start : ext Q) (rows : list OrderItemRow) : ext Q :=
  fold_left extAddQ (map rowSubtotal rows) start.

(* ================================================================== *)
(** * The earlier search of the product route: character counting      *)
(* ================================================================== *)

(** [x < y] on exact numbers. *)
Definition Qltb (x y : Q) : bool := negb (Qle_bool y x).

(** The two nested loops over the positions of [query] and of [text]:
    [score] grows by [step] for every pair [(i, j)] with
    [query[i].toLowerCase() === text[j].toLowerCase()]. *)
Definition countCharMatches (query text : string) (step score : Q) : Q :=
  fold_left
    (fun score qi =>
       fold_left
         (fun score tj =>
            if Ascii.eqb (lower_ascii qi) (lower_ascii tj)
            then (score + step)%Q else score)
         (list_ascii_of_string text) score)
    (list_ascii_of_string query) score.

(** [score] of a product at the end of the loop body: 1 for every match
    in the name, 0.5 for every match in the description. *)
Definition slowScore (query : string) (p : Product) : Q :=
  let score := countCharMatches query (name p) 1 0 in
  match description p with
  | Some d => if falsy d then score else countCharMatches query d 0.5 score
  | None => score
  end.

(** A product with the [searchScore] that the loop stores. *)
Record SlowScored : Type := mkSlowScored {
  slowProduct : Product;
  slowSearchScore : Q
}.

(** [results] after the loop: the products with
    [score > query.length * 0.5]. *)
Definition slowResults (query : string) (allProducts : list Product)
    : list SlowScored :=
  flat_map
    (fun p =>
       let score := slowScore query p in
       if Qltb (ofNat (String.length query) * 0.5) score
       then [mkSlowScored p score] else [])
    allProducts.

(** The body of the inner loop of the bubble sort: [results[j]] and
    [results[j + 1]] are swapped when the first has the lower score. *)
Definition bubbleStep (results : list SlowScored) (j : nat) : list SlowScored :=
  match nth_error results j, nth_error results (j + 1) with
  | Some a, Some b =>
      if Qltb (slowSearchScore a) (slowSearchScore b)
      then upd (upd results j b) (j + 1) a
      else results
  | _, _ => results
  end.

(** The inner loop [for (let j = 0; j < results.length - 1; j++)]. *)
Definition bubblePass (results : list SlowScored) : list SlowScored :=
  fold_left bubbleStep (seq 0 (List.length results - 1)) results.

(** The outer loop [for (let i = 0; i < results.length; i++)]. *)
Definition bubbleSort (results : list SlowScored) : list SlowScored :=
  fold_left (fun results _ => bubblePass results)
    (seq 0 (List.length results)) results.

(** [results] of the earlier route before truncation, with the slow
    search. *)
Definition searchSlow (query : string) (minPrice maxPrice : option string)
    (allProducts : list Product) : list SlowScored :=
  applyPriceFilters (fun s => price (slowProduct s)) minPrice maxPrice
    (bubbleSort (slowResults query allProducts)).

(** One pass of the bubble sort as a recursion: [carried] is the element
    at the current position, [rest] the elements after it. *)
Fixpoint bubbleFrom (carried : SlowScored) (rest : list SlowScored)
    : list SlowScored :=
  match rest with
  | [] => [carried]
  | next :: rest' =>
      if Qltb (slowSearchScore carried) (slowSearchScore next)
      then next :: bubbleFrom carried rest'
      else carried :: bubbleFrom next rest'
  end.

(** [x] does not score below [y]. *)
Definition scoresAtLeast (x y : SlowScored) : Prop :=
  (slowSearchScore y <= slowSearchScore x)%Q.

(** [x] has the larger match count, or the same match count and the
    smaller name for [localeCompare]. *)
Definition moreMatchesOrName (localeCompare : string -> string -> Z)
    (x y : Scored) : Prop :=
  scoredMatchCount y < scoredMatchCount x \/
  (scoredMatchCount x = scoredMatchCount y /\
   (localeCompare (name (product x)) (name (product y)) < 0)%Z).

(* ================================================================== *)
(** * Facts on arrays and on the matrix                                *)
(* ================================================================== *)

Section ArrayFacts.
Context {A : Type}.

Lemma length_upd (l : list A) (n : nat) (x : A) :
  List.length (upd l n x) = List.length l.
Proof.
  revert n; induction l as [|h t IH]; intros [|n]; simpl; auto.
Qed.

Lemma nth_upd_same (l : list A) (n : nat) (x d : A) :
  n < List.length l -> nth n (upd l n x) d = x.
Proof.
  revert n; induction l as [|h t IH]; intros [|n] Hn; simpl in *;
    try lia; auto.
  apply IH; lia.
Qed.

Lemma nth_upd_other (l : list A) (n k : nat) (x d : A) :
  n <> k -> nth k (upd l n x) d = nth k l d.
Proof.
  revert n k; induction l as [|h t IH]; intros [|n] [|k] Hnk; simpl;
    auto; try lia.
Qed.

(** Running a loop body over [start, start + 1, ...] keeps an invariant
    indexed by the loop counter. *)
Lemma fold_left_seq_invariant {S : Type} (P : nat -> S -> Prop)
    (f : S -> nat -> S) (n start : nat) (s : S) :
  P start s ->
  (forall k t, start <= k < start + n -> P k t -> P (Datatypes.S k) (f t k)) ->
  P (start + n) (fold_left f (seq start n) s).
Proof.
  revert start s; induction n as [|n IH]; intros start s H0 Hstep; simpl.
  - now rewrite Nat.add_0_r.
  - replace (start + Datatypes.S n) with (Datatypes.S start + n) by lia.
    apply IH.
    + apply Hstep; [lia | exact H0].
    + intros k t Hk; apply Hstep; lia.
Qed.
End ArrayFacts.

Lemma shaped_mset rows cols m i j v :
  shaped rows cols m -> shaped rows cols (mset m i j v).
Proof.
  intros [Hr Hc]; unfold mset; split.
  - now rewrite length_upd.
  - intros k Hk. destruct (Nat.eq_dec i k) as [->|Hik].
    + rewrite nth_upd_same by lia. rewrite length_upd. now apply Hc.
    + rewrite nth_upd_other by exact Hik. now apply Hc.
Qed.

Lemma mget_mset_same rows cols m i j v :
  shaped rows cols m -> i < rows -> j < cols -> mget (mset m i j v) i j = v.
Proof.
  intros [Hr Hc] Hi Hj; unfold mget, mset.
  rewrite nth_upd_same by lia.
  apply nth_upd_same. rewrite Hc; lia.
Qed.

Lemma mget_mset_other m i j v a b :
  (a <> i \/ b <> j) -> mget (mset m i j v) a b = mget m a b.
Proof.
  intros Hab; unfold mget, mset.
  destruct (Nat.eq_dec i a) as [->|Hia].
  - destruct (Nat.lt_ge_cases a (List.length m)) as [Hlt|Hge].
    + rewrite nth_upd_same by exact Hlt.
      apply nth_upd_other. destruct Hab; congruence.
    + assert (Hsame : upd m a (upd (nth a m []) j v) = m).
      { clear Hab. generalize (upd (nth a m []) j v) as row.
        revert a Hge; induction m as [|h t IH]; intros [|a] Hge row;
          simpl in *; auto; try lia.
        f_equal; apply IH; lia. }
      now rewrite Hsame.
  - now rewrite nth_upd_other by exact Hia.
Qed.

Lemma shaped_newMatrix len1 len2 :
  shaped (len1 + 1) (len2 + 1) (newMatrix len1 len2).
Proof.
  unfold newMatrix; split.
  - apply repeat_length.
  - intros i Hi. rewrite nth_repeat_lt by exact Hi. apply repeat_length.
Qed.

(* ================================================================== *)
(** * The loops fill the matrix according to the recurrence            *)
(* ================================================================== *)

Section FillFacts.
Variables s1 s2 : string.
Let len1 := String.length s1.
Let len2 := String.length s2.

(** The value of a cell depends only on the cells before it. *)
Lemma cellValue_ext (m m' : Matrix) (i j : nat) :
  1 <= i -> 1 <= j ->
  (forall a b, a < i \/ (a = i /\ b < j) -> mget m a b = mget m' a b) ->
  cellValue s1 s2 m i j = cellValue s1 s2 m' i j.
Proof.
  intros Hi Hj Hagree. unfold cellValue.
  rewrite (Hagree (i - 1) j), (Hagree i (j - 1)), (Hagree (i - 1) (j - 1)),
    (Hagree (i - 2) (j - 2)), (Hagree (i - 3) (j - 3)) by lia.
  reflexivity.
Qed.

Lemma fillCell_shaped rows cols (m : Matrix) (i j : nat) :
  shaped rows cols m -> shaped rows cols (fillCell s1 s2 i m j).
Proof.
  intros Hs. unfold fillCell.
  repeat (match goal with
          | |- shaped _ _ (if ?c then _ else _) => destruct c
          | |- shaped _ _ (mset _ _ _ _) => apply shaped_mset
          end); exact Hs.
Qed.

Lemma fillCell_other (m : Matrix) (i j a b : nat) :
  a <> i \/ b <> j -> mget (fillCell s1 s2 i m j) a b = mget m a b.
Proof.
  intros Hab. unfold fillCell.
  repeat (match goal with
          | |- mget (if ?c then _ else _) _ _ = _ => destruct c
          | |- mget (mset _ _ _ _) _ _ = _ =>
              rewrite mget_mset_other by exact Hab
          end); reflexivity.
Qed.

Lemma fillCell_same rows cols (m : Matrix) (i j : nat) :
  shaped rows cols m -> 1 <= i < rows -> 1 <= j < cols ->
  mget (fillCell s1 s2 i m j) i j = cellValue s1 s2 m i j.
Proof.
  intros Hs Hi Hj. unfold fillCell, cellValue.
  fold (cellCost s1 s2 i j). fold (transposed s1 s2 i j). fold (phoneticCell i j).
  set (v0 := min3 _ _ _).
  set (m1 := mset m i j v0).
  assert (Hs1 : shaped rows cols m1) by (apply shaped_mset; exact Hs).
  assert (H1 : mget m1 i j = v0)
    by (apply (mget_mset_same rows cols); auto; lia).
  assert (H1o : forall a b, a <> i \/ b <> j -> mget m1 a b = mget m a b)
    by (intros a b Hab; apply mget_mset_other; exact Hab).
  set (m2 := if transposed s1 s2 i j then _ else m1).
  assert (Hs2 : shaped rows cols m2)
    by (subst m2; destruct (transposed s1 s2 i j); auto using shaped_mset).
  assert (H2 : mget m2 i j =
               if transposed s1 s2 i j
               then Qmin v0 (mget m (i - 2) (j - 2) + cellCost s1 s2 i j)
               else v0).
  { subst m2; destruct (transposed s1 s2 i j); auto.
    rewrite (mget_mset_same rows cols) by (auto; lia).
    rewrite H1, H1o by lia. reflexivity. }
  assert (H2o : forall a b, a <> i \/ b <> j -> mget m2 a b = mget m a b).
  { intros a b Hab. subst m2; destruct (transposed s1 s2 i j); auto.
    rewrite mget_mset_other by exact Hab. auto. }
  destruct (phoneticCell i j).
  - rewrite (mget_mset_same rows cols) by (auto; lia).
    rewrite H2, H2o by lia. reflexivity.
  - exact H2.
Qed.

(** One turn of the inner loop. *)
Lemma fillCell_invariant (m : Matrix) (i j : nat) :
  1 <= i <= len1 -> 1 <= j <= len2 ->
  FilledUpTo s1 s2 i j m -> FilledUpTo s1 s2 i (S j) (fillCell s1 s2 i m j).
Proof.
  intros Hi Hj [Hs Hc0 Hr0 Hcell].
  assert (Hother : forall a b, a < i \/ (a = i /\ b < j) ->
            mget (fillCell s1 s2 i m j) a b = mget m a b)
    by (intros a b Hab; apply fillCell_other; lia).
  split.
  - apply fillCell_shaped; exact Hs.
  - intros a Ha. rewrite fillCell_other by lia. now apply Hc0.
  - intros b Hb. rewrite fillCell_other by lia. now apply Hr0.
  - intros a b Ha Hb Hab.
    assert (Hcase : (a < i \/ (a = i /\ b < j)) \/ (a = i /\ b = j)) by lia.
    destruct Hcase as [Hbefore | [-> ->]].
    + rewrite Hother by exact Hbefore.
      rewrite Hcell by assumption.
      apply cellValue_ext; try lia.
      intros a' b' Hab'. symmetry; apply Hother; lia.
    + rewrite (fillCell_same _ _ _ _ _ Hs) by (fold len1 len2; lia).
      apply cellValue_ext; try lia.
      intros a' b' Hab'. symmetry; apply Hother; lia.
Qed.

(** The inner loop fills row [i]. *)
Lemma fillRow_invariant (m : Matrix) (i : nat) :
  1 <= i <= len1 ->
  FilledUpTo s1 s2 i 1 m -> FilledUpTo s1 s2 (S i) 1 (fillRow s1 s2 m i).
Proof.
  intros Hi Hm. unfold fillRow.
  assert (Hrow : FilledUpTo s1 s2 i (1 + len2)
                   (fold_left (fillCell s1 s2 i) (seq 1 len2) m)).
  { apply (fold_left_seq_invariant (fun j t => FilledUpTo s1 s2 i j t)).
    - exact Hm.
    - intros k t Hk Ht. apply fillCell_invariant; auto; lia. }
  destruct Hrow as [Hs Hc0 Hr0 Hcell].
  split; auto.
  intros a b Ha Hb Hab. apply Hcell; auto. fold len2 in Hb. lia.
Qed.

(** The two base-case loops. *)
Lemma initMatrix_invariant : FilledUpTo s1 s2 1 1 (initMatrix len1 len2).
Proof.
  unfold initMatrix.
  set (m0 := newMatrix len1 len2).
  pose proof (shaped_newMatrix len1 len2) as Hs0. fold m0 in Hs0.
  set (P1 := fun (k : nat) (t : Matrix) =>
               shaped (len1 + 1) (len2 + 1) t /\
               forall a, a < k -> mget t a 0 = ofNat a).
  assert (H1 : P1 (0 + (len1 + 1))
                 (fold_left (fun m i => mset m i 0 (ofNat i)) (seq 0 (len1 + 1)) m0)).
  { apply (fold_left_seq_invariant P1).
    - split; [exact Hs0 | intros a Ha; lia].
    - intros k t Hk [Hs Hget]; split; [now apply shaped_mset|].
      intros a Ha. destruct (Nat.eq_dec a k) as [->|Hne].
      + apply (mget_mset_same _ _ _ _ _ _ Hs); lia.
      + rewrite mget_mset_other by lia. apply Hget; lia. }
  set (m1 := fold_left _ (seq 0 (len1 + 1)) m0) in *.
  destruct H1 as [Hs1 Hcol].
  set (P2 := fun (k : nat) (t : Matrix) =>
               shaped (len1 + 1) (len2 + 1) t /\
               (forall a, 1 <= a <= len1 -> mget t a 0 = ofNat a) /\
               forall b, b < k -> mget t 0 b = ofNat b).
  assert (H2 : P2 (0 + (len2 + 1))
                 (fold_left (fun m j => mset m 0 j (ofNat j)) (seq 0 (len2 + 1)) m1)).
  { apply (fold_left_seq_invariant P2).
    - split; [exact Hs1|]. split; [intros a Ha; apply Hcol; lia | intros b Hb; lia].
    - intros k t Hk (Hs & Hc & Hr); split; [now apply shaped_mset|]. split.
      + intros a Ha. rewrite mget_mset_other by lia. now apply Hc.
      + intros b Hb. destruct (Nat.eq_dec b k) as [->|Hne].
        * apply (mget_mset_same _ _ _ _ _ _ Hs); lia.
        * rewrite mget_mset_other by lia. apply Hr; lia. }
  destruct H2 as (Hs2 & Hc2 & Hr2).
  split; auto.
  - intros a Ha. destruct a as [|a]; [apply Hr2; lia | apply Hc2; lia].
  - intros b Hb. apply Hr2. fold len2 in Hb. lia.
  - intros a b Ha Hb Hab. lia.
Qed.

(** After the loops every cell obeys the recurrence. *)
Lemma fillMatrix_Filled :
  Filled s1 s2 (fillMatrix s1 s2 (initMatrix len1 len2)).
Proof.
  unfold Filled, fillMatrix. fold len1.
  replace (len1 + 1) with (1 + len1) by lia.
  apply (fold_left_seq_invariant (fun i t => FilledUpTo s1 s2 i 1 t)).
  - apply initMatrix_invariant.
  - intros k t Hk Ht. apply fillRow_invariant; auto. lia.
Qed.
End FillFacts.

(* ================================================================== *)
(** * Symmetry of the phonetic estimate                                *)
(* ================================================================== *)

Lemma charEq_sym (x y : option ascii) : charEq x y = charEq y x.
Proof.
  destruct x as [a|], y as [b|]; simpl; auto using Ascii.eqb_sym.
Qed.

Lemma keyboardRows_swap (c1 c2 : ascii) (rows : list (nat * string))
    (p1 p2 : keyPos) :
  positionDistance (fold_left (keyboardRow c1 c2) rows (p1, p2)) =
  positionDistance (fold_left (keyboardRow c2 c1) rows (p2, p1)).
Proof.
  revert p1 p2; induction rows as [|[row keys] rows IH]; intros p1 p2.
  - destruct p1 as [[r1 k1]|], p2 as [[r2 k2]|]; cbn; auto. lia.
  - cbn [fold_left keyboardRow]. apply IH.
Qed.

Lemma getKeyboardDistance_sym (c1 c2 : ascii) :
  getKeyboardDistance c1 c2 = getKeyboardDistance c2 c1.
Proof. apply keyboardRows_swap. Qed.

Lemma phoneticRule_sym (sub1 sub2 : string) (cost : Q) (g : string * string) :
  phoneticRule sub1 sub2 cost g = phoneticRule sub2 sub1 cost g.
Proof.
  destruct g as [p1 p2]; unfold phoneticRule.
  destruct (includes sub1 p1 && includes sub2 p2),
           (includes sub2 p1 && includes sub1 p2); reflexivity.
Qed.

Lemma phoneticChar_sym (cost : Q) (c1 c2 : ascii) :
  phoneticChar cost (c1, c2) = phoneticChar cost (c2, c1).
Proof.
  unfold phoneticChar.
  now rewrite (andb_comm (isVowel c1)), (getKeyboardDistance_sym c1 c2).
Qed.

Lemma phoneticChars_sym (l1 l2 : list ascii) (cost : Q) :
  fold_left phoneticChar (combine l1 l2) cost =
  fold_left phoneticChar (combine l2 l1) cost.
Proof.
  revert l2 cost; induction l1 as [|c1 l1 IH]; intros [|c2 l2] cost; auto.
  cbn [combine fold_left]. rewrite phoneticChar_sym. apply IH.
Qed.

Lemma phoneticRules_sym (sub1 sub2 : string) (gs : list (string * string)) (cost : Q) :
  fold_left (phoneticRule sub1 sub2) gs cost =
  fold_left (phoneticRule sub2 sub1) gs cost.
Proof.
  revert cost; induction gs as [|g gs IH]; intros cost; auto.
  cbn [fold_left]. rewrite phoneticRule_sym. apply IH.
Qed.

Lemma Qabs_diff_sym (a b : Z) :
  Qabs (inject_Z a - inject_Z b) = Qabs (inject_Z b - inject_Z a).
Proof.
  unfold Qabs, Qminus, Qplus, Qopp, inject_Z; cbn.
  f_equal. lia.
Qed.

(** The phonetic estimate does not depend on the order of its arguments. *)
Lemma getPhoneticSimilarity_sym (sub1 sub2 : string) :
  getPhoneticSimilarity sub1 sub2 = getPhoneticSimilarity sub2 sub1.
Proof.
  unfold getPhoneticSimilarity.
  rewrite (orb_comm (falsy sub1)).
  destruct (falsy sub2 || falsy sub1); auto.
  rewrite Qabs_diff_sym, phoneticRules_sym. apply phoneticChars_sym.
Qed.

(* ================================================================== *)
(** * Symmetry and bound of the filled matrix                          *)
(* ================================================================== *)

Lemma cellCost_sym s1 s2 i j : cellCost s1 s2 i j = cellCost s2 s1 j i.
Proof. unfold cellCost. now rewrite charEq_sym. Qed.

Lemma transposed_sym s1 s2 i j : transposed s1 s2 i j = transposed s2 s1 j i.
Proof.
  unfold transposed.
  rewrite (charEq_sym (get (i - 1) s1)), (charEq_sym (get (i - 2) s1)).
  destruct (1 <? i), (1 <? j), (charEq (get (j - 2) s2) (get (i - 1) s1)),
    (charEq (get (j - 1) s2) (get (i - 2) s1)); reflexivity.
Qed.

Lemma phoneticCell_sym i j : phoneticCell i j = phoneticCell j i.
Proof.
  unfold phoneticCell.
  destruct (i mod 3 =? 0), (j mod 3 =? 0), (2 <? i), (2 <? j); reflexivity.
Qed.

Lemma ofNat_S (n : nat) : (ofNat (S n) == ofNat n + 1)%Q.
Proof.
  unfold ofNat. rewrite Nat2Z.inj_succ. unfold Z.succ.
  now rewrite inject_Z_plus.
Qed.

Lemma ofNat_le (n k : nat) : n <= k -> (ofNat n <= ofNat k)%Q.
Proof.
  intros H. unfold ofNat. rewrite <- Zle_Qle. lia.
Qed.

Lemma cellCost_le_1 s1 s2 i j : (cellCost s1 s2 i j <= 1)%Q.
Proof. unfold cellCost. destruct (charEq _ _); discriminate. Qed.

(** The later steps only ever lower the value of the substitution. *)
Lemma cellValue_le_substitution s1 s2 m i j :
  (cellValue s1 s2 m i j <= mget m (i - 1) (j - 1) + cellCost s1 s2 i j)%Q.
Proof.
  unfold cellValue.
  set (v0 := min3 _ _ _).
  assert (H0 : (v0 <= mget m (i - 1) (j - 1) + cellCost s1 s2 i j)%Q)
    by apply Q.le_min_r.
  set (v1 := if transposed s1 s2 i j then _ else v0).
  assert (H1 : (v1 <= v0)%Q).
  { subst v1. destruct (transposed s1 s2 i j);
      [apply Q.le_min_l | apply Qle_refl]. }
  destruct (phoneticCell i j).
  - eapply Qle_trans; [apply Q.le_min_l|]. eapply Qle_trans; eauto.
  - eapply Qle_trans; eauto.
Qed.

Section FilledFacts.
Variables s1 s2 : string.
Let len1 := String.length s1.
Let len2 := String.length s2.

Lemma Filled_cell (m : Matrix) (i j : nat) :
  Filled s1 s2 m -> 1 <= i <= len1 -> 1 <= j <= len2 ->
  mget m i j = cellValue s1 s2 m i j.
Proof.
  intros [_ _ _ Hcell] Hi Hj. apply Hcell; auto. fold len1. lia.
Qed.

(** No cell exceeds the larger of its two indices. *)
Lemma Filled_bound (m : Matrix) :
  Filled s1 s2 m ->
  forall n i j, i + j <= n -> i <= len1 -> j <= len2 ->
    (mget m i j <= ofNat (Nat.max i j))%Q.
Proof.
  intros Hm; induction n as [|n IH]; intros i j Hn Hi Hj.
  - assert (i = 0) by lia; assert (j = 0) by lia; subst.
    rewrite (fu_col0 _ _ _ _ _ Hm) by lia. apply Qle_refl.
  - destruct i as [|i].
    { rewrite (fu_row0 _ _ _ _ _ Hm) by (fold len2; lia). apply Qle_refl. }
    destruct j as [|j].
    { rewrite (fu_col0 _ _ _ _ _ Hm) by (fold len1; lia). apply Qle_refl. }
    rewrite Filled_cell by (auto; lia).
    eapply Qle_trans; [apply cellValue_le_substitution|].
    replace (S i - 1) with i by lia. replace (S j - 1) with j by lia.
    replace (Nat.max (S i) (S j)) with (S (Nat.max i j)) by lia.
    rewrite ofNat_S.
    apply Qplus_le_compat; [apply IH; lia | apply cellCost_le_1].
Qed.
End FilledFacts.

Lemma Filled_sym (s1 s2 : string) (m m' : Matrix) :
  Filled s1 s2 m -> Filled s2 s1 m' ->
  forall n i j, i + j <= n -> i <= String.length s1 -> j <= String.length s2 ->
    (mget m i j == mget m' j i)%Q.
Proof.
  intros Hm Hm'; induction n as [|n IH]; intros i j Hn Hi Hj.
  - assert (i = 0) by lia; assert (j = 0) by lia; subst.
    rewrite (fu_col0 _ _ _ _ _ Hm), (fu_col0 _ _ _ _ _ Hm') by lia.
    reflexivity.
  - destruct i as [|i].
    { rewrite (fu_row0 _ _ _ _ _ Hm), (fu_col0 _ _ _ _ _ Hm') by lia.
      reflexivity. }
    destruct j as [|j].
    { rewrite (fu_col0 _ _ _ _ _ Hm), (fu_row0 _ _ _ _ _ Hm') by lia.
      reflexivity. }
    rewrite (Filled_cell s1 s2), (Filled_cell s2 s1) by (auto; lia).
    unfold cellValue.
    rewrite <- (cellCost_sym s1 s2), <- (transposed_sym s1 s2),
      <- (phoneticCell_sym (S i)), (getPhoneticSimilarity_sym (jsSubstring s2 _ _)).
    assert (E1 : (mget m (S i - 1) (S j) == mget m' (S j) (S i - 1))%Q)
      by (apply IH; lia).
    assert (E2 : (mget m (S i) (S j - 1) == mget m' (S j - 1) (S i))%Q)
      by (apply IH; lia).
    assert (E3 : (mget m (S i - 1) (S j - 1) == mget m' (S j - 1) (S i - 1))%Q)
      by (apply IH; lia).
    assert (E4 : (mget m (S i - 2) (S j - 2) == mget m' (S j - 2) (S i - 2))%Q)
      by (apply IH; lia).
    assert (E5 : (mget m (S i - 3) (S j - 3) == mget m' (S j - 3) (S i - 3))%Q)
      by (apply IH; lia).
    assert (E0 : (min3 (mget m (S i - 1) (S j) + 1) (mget m (S i) (S j - 1) + 1)
                    (mget m (S i - 1) (S j - 1) + cellCost s1 s2 (S i) (S j)) ==
                  min3 (mget m' (S j - 1) (S i) + 1) (mget m' (S j) (S i - 1) + 1)
                    (mget m' (S j - 1) (S i - 1) + cellCost s1 s2 (S i) (S j)))%Q).
    { unfold min3. rewrite E1, E2, E3. now rewrite (Q.min_comm (_ + 1)). }
    destruct (transposed s1 s2 (S i) (S j)), (phoneticCell (S i) (S j));
      rewrite ?E0, ?E4, ?E5; reflexivity.
Qed.

(** ** The distance of one variation *)

Lemma variantDistance_sym (s1 s2 : string) :
  (variantDistance s1 s2 == variantDistance s2 s1)%Q.
Proof.
  unfold variantDistance.
  eapply Filled_sym; eauto using fillMatrix_Filled.
Qed.

Lemma variantDistance_le (s1 s2 : string) :
  (variantDistance s1 s2 <= ofNat (Nat.max (String.length s1) (String.length s2)))%Q.
Proof.
  unfold variantDistance.
  eapply Filled_bound; eauto using fillMatrix_Filled.
Qed.

Lemma calculateLevenshteinDistance_unfold (str1 str2 : string) :
  calculateLevenshteinDistance str1 str2 =
  if falsy str1 || falsy str2 then
    ofNat (Nat.max (String.length str1) (String.length str2))
  else if String.eqb str1 str2 then 0%Q
  else Qmin (Qmin (variantDistance str1 str2)
                  (variantDistance (toLowerCase str1) (toLowerCase str2)))
            (variantDistance (stripNonAlnum str1) (stripNonAlnum str2)).
Proof. reflexivity. Qed.

(* ================================================================== *)
(** * Properties of the edit distance                                  *)
(* ================================================================== *)

Lemma distance_same (a : string) : calculateLevenshteinDistance a a = 0%Q.
Proof.
  destruct a as [|c a]; [reflexivity|].
  rewrite calculateLevenshteinDistance_unfold.
  cbn [falsy orb]. now rewrite String.eqb_refl.
Qed.

Lemma distance_empty_l (s : string) :
  calculateLevenshteinDistance EmptyString s = ofNat (String.length s).
Proof. reflexivity. Qed.

Lemma distance_empty_r (s : string) :
  calculateLevenshteinDistance s EmptyString = ofNat (String.length s).
Proof.
  rewrite calculateLevenshteinDistance_unfold.
  rewrite orb_true_r. cbn [String.length]. now rewrite Nat.max_0_r.
Qed.

(** C9: the distance of a string to itself is 0, and the distance between
    the empty string and a string [s], in either order, is the length of
    [s]. *)
Theorem distance_identical_and_empty :
  (forall a : string, calculateLevenshteinDistance a a = 0%Q) /\
  (forall s : string,
      calculateLevenshteinDistance EmptyString s = ofNat (String.length s)) /\
  (forall s : string,
      calculateLevenshteinDistance s EmptyString = ofNat (String.length s)).
Proof.
  split; [exact distance_same|].
  split; [exact distance_empty_l | exact distance_empty_r].
Qed.

(** C10: the distance never exceeds the length of the longer string. *)
Theorem distance_le_max_length (a b : string) :
  (calculateLevenshteinDistance a b
   <= ofNat (Nat.max (String.length a) (String.length b)))%Q.
Proof.
  rewrite calculateLevenshteinDistance_unfold.
  destruct (falsy a || falsy b); [apply Qle_refl|].
  destruct (String.eqb a b).
  - change 0%Q with (ofNat 0). apply ofNat_le. lia.
  - eapply Qle_trans; [apply Q.le_min_l|].
    eapply Qle_trans; [apply Q.le_min_l|].
    apply variantDistance_le.
Qed.

(** C5: the distance is symmetric in its two arguments. *)
Theorem distance_symmetric (a b : string) :
  (calculateLevenshteinDistance a b == calculateLevenshteinDistance b a)%Q.
Proof.
  rewrite !calculateLevenshteinDistance_unfold.
  rewrite (orb_comm (falsy a)), (Nat.max_comm (String.length a)),
    (String.eqb_sym a b).
  destruct (falsy b || falsy a); [reflexivity|].
  destruct (String.eqb b a); [reflexivity|].
  rewrite (variantDistance_sym a b),
    (variantDistance_sym (toLowerCase a)),
    (variantDistance_sym (stripNonAlnum a)).
  reflexivity.
Qed.

(* ================================================================== *)
(** * Properties of the relevance and of the final score               *)
(* ================================================================== *)

Lemma exp_le (x y : R) : (x <= y -> exp x <= exp y)%R.
Proof.
  intros [Hlt | ->]; [left; now apply exp_increasing | right; reflexivity].
Qed.

Lemma INR_max_pos (a b : nat) : (Nat.max a b =? 0) = false -> (0 < INR (Nat.max a b))%R.
Proof.
  intros H. apply Nat.eqb_neq in H. apply lt_0_INR. lia.
Qed.

(** The relevance lies between 0 and 1. *)
Lemma calculateRelevanceScore_range (d : R) (L Q : nat) :
  (0 <= calculateRelevanceScore d L Q <= 1)%R.
Proof.
  unfold calculateRelevanceScore.
  destruct (Req_dec_T d 0); [lra|].
  destruct (Nat.max L Q =? 0) eqn:Hmax; [lra|].
  pose proof (INR_max_pos _ _ Hmax) as Hpos.
  split; [|apply Rmin_l].
  apply Rmin_glb; [lra|].
  apply Rmult_le_pos; [left; apply exp_pos|].
  assert (0 <= INR Q / INR (Nat.max L Q))%R
    by (apply Rmult_le_pos; [apply pos_INR | left; now apply Rinv_0_lt_compat]).
  lra.
Qed.

(** C6: for fixed lengths the relevance does not increase when the
    distance grows, and the relevance of distance 0 is exactly 1. *)
Theorem relevance_monotone (L Q : nat) (d1 d2 : R) :
  (0 <= d1 <= d2)%R ->
  (calculateRelevanceScore d2 L Q <= calculateRelevanceScore d1 L Q)%R /\
  calculateRelevanceScore 0 L Q = 1%R.
Proof.
  intros [H0 H12]. split.
  - pose proof (calculateRelevanceScore_range d2 L Q) as Hrange.
    unfold calculateRelevanceScore in *.
    destruct (Req_dec_T d1 0) as [E1|N1]; [lra|].
    destruct (Req_dec_T d2 0) as [E2|N2]; [lra|].
    destruct (Nat.max L Q =? 0) eqn:Hmax; [lra|].
    pose proof (INR_max_pos _ _ Hmax) as Hpos.
    apply Rle_min_compat_l.
    apply Rmult_le_compat_r.
    + assert (0 <= INR Q / INR (Nat.max L Q))%R
        by (apply Rmult_le_pos;
            [apply pos_INR | left; now apply Rinv_0_lt_compat]).
      lra.
    + apply exp_le.
      assert (d1 / INR (Nat.max L Q) <= d2 / INR (Nat.max L Q))%R
        by (apply Rmult_le_compat_r; [left; now apply Rinv_0_lt_compat | lra]).
      lra.
  - unfold calculateRelevanceScore.
    destruct (Req_dec_T 0 0); [reflexivity | contradiction].
Qed.

Lemma relevance_monotone_witness :
  (calculateRelevanceScore 2 6 6 <= calculateRelevanceScore 1 6 6)%R /\
  calculateRelevanceScore 0 6 6 = 1%R.
Proof. apply (relevance_monotone 6 6 1 2). lra. Defined.

Lemma labtop_distance :
  (calculateLevenshteinDistance "labtop" "laptop" == 0.7)%Q.
Proof. vm_compute. reflexivity. Qed.

(** C7: for the query "labtop" and the product name "Laptop", lowercased
    and trimmed, the relevance of the name is above 0.6. *)
Theorem labtop_laptop_relevance :
  trim (toLowerCase "Laptop") = "laptop" /\
  (calculateRelevanceScore
     (Q2R (calculateLevenshteinDistance "labtop" "laptop")) 6 6 > 0.6)%R.
Proof.
  split; [reflexivity|].
  rewrite (Qeq_eqR _ _ labtop_distance).
  change (Q2R 0.7) with 0.7%R. unfold calculateRelevanceScore.
  destruct (Req_dec_T 0.7 0); [lra|].
  cbn [Nat.max Nat.eqb].
  assert (E6 : INR 6 = 6%R) by (cbn; lra). rewrite E6.
  pose proof (exp_ineq1_le (-2 * (0.7 / 6))) as Hexp.
  apply Rmin_case; lra.
Qed.

(* ================================================================== *)
(** * Properties of the field aggregation                              *)
(* ================================================================== *)

(** A string without a backslash is not split at all. *)
Lemma split_without_backslash (s : string) :
  (forall c, In c (list_ascii_of_string s) -> Ascii.eqb c backslash = false) ->
  split s = [s].
Proof.
  intros Hs. unfold split.
  assert (H : splitAux false s = (s, [])).
  { induction s as [|c s IH]; [reflexivity|].
    cbn [splitAux andb]. rewrite (Hs c) by (cbn; auto). cbn [andb].
    rewrite IH; [reflexivity|]. intros c' Hc'. apply Hs. cbn; auto. }
  now rewrite H.
Qed.

(** C4 (defect of the code): the separator of [split(/\\s+/)] is a
    backslash followed by letters [s], not white space.  A name with a
    space in it stays in one piece, so its words are not probed one by
    one; a name with the separator in it is cut. *)
Theorem nameWords_not_split_on_white_space :
  nameWordsOf laptopStand = ["laptop stand"] /\
  split ("desk" ++ String backslash "slamp") = ["desk"; "lamp"].
Proof. split; reflexivity. Qed.

Lemma matchCount_addScore (st : Agg) (x : R) :
  matchCount (addScore st x) = matchCount st.
Proof. reflexivity. Qed.

Lemma matchCount_countIfAbove (st : Agg) (r t : R) :
  matchCount (countIfAbove st r t) = matchCount st + above r t.
Proof.
  unfold countIfAbove, above. destruct (Rltb t r); cbn; lia.
Qed.

(** The probes of the substrings of a name word leave the count alone. *)
Lemma matchCount_nameSubstrings (query : string) (subs : list string) (st : Agg) :
  matchCount (fold_left (nameSubstringStep query) subs st) = matchCount st.
Proof.
  revert st; induction subs as [|s subs IH]; intros st; cbn [fold_left]; auto.
  rewrite IH. reflexivity.
Qed.

(** The probes of the name words leave the count alone. *)
Lemma matchCount_nameWords (query : string) (words : list string) (st : Agg) :
  matchCount (fold_left (nameWordStep query) words st) = matchCount st.
Proof.
  revert st; induction words as [|w words IH]; intros st; cbn [fold_left]; auto.
  rewrite IH. unfold nameWordStep.
  destruct (4 <? String.length w);
    rewrite ?matchCount_nameSubstrings; reflexivity.
Qed.

Lemma matchCount_descWordStep (query : string) (st : Agg) (word : string) :
  matchCount (descWordStep query st word) =
  matchCount st + countedWords query [word].
Proof.
  unfold descWordStep, countedWords. cbn [filter].
  destruct (3 <? String.length word); cbn [andb]; [|cbn; lia].
  assert (E : matchCount
                (countIfAbove (addScore st (partRelevance query word * 0.5))
                   (partRelevance query word) 0.4) =
              matchCount st
              + List.length (if Rltb 0.4 (partRelevance query word)
                             then [word] else [])).
  { rewrite matchCount_countIfAbove, matchCount_addScore. unfold above.
    destruct (Rltb 0.4 (partRelevance query word)); reflexivity. }
  destruct (5 <? String.length word);
    rewrite ?matchCount_addScore; exact E.
Qed.

Lemma matchCount_descWords (query : string) (words : list string) (st : Agg) :
  matchCount (fold_left (descWordStep query) words st) =
  matchCount st + countedWords query words.
Proof.
  revert st; induction words as [|w words IH]; intros st; cbn [fold_left].
  - cbn; lia.
  - rewrite IH, matchCount_descWordStep. unfold countedWords. cbn [filter].
    destruct ((3 <? String.length w) && Rltb 0.4 (partRelevance query w));
      cbn [List.length]; lia.
Qed.

Lemma matchCount_tags (query : string) (ts : list string) (st : Agg) :
  matchCount (fold_left (tagStep query) ts st) =
  matchCount st + countedTags query ts.
Proof.
  revert st; induction ts as [|t ts IH]; intros st; cbn [fold_left].
  - cbn; lia.
  - rewrite IH. unfold tagStep.
    rewrite matchCount_countIfAbove, matchCount_addScore.
    unfold countedTags, above. cbn [filter].
    destruct (Rltb 0.4 (wholeRelevance query t)); cbn [List.length]; lia.
Qed.

(** The match count of a product, probe by probe. *)
Lemma matchCount_aggregate (query : string) (p : Product) :
  matchCount (aggregate query p) = matchesByProbe query p.
Proof.
  unfold aggregate, matchesByProbe.
  assert (Hname : forall st, matchCount (scoreName query p st) =
            matchCount st + above (wholeRelevance query (name p)) 0.3).
  { intros st. unfold scoreName.
    now rewrite matchCount_nameWords, matchCount_countIfAbove, matchCount_addScore. }
  assert (Hdesc : forall st, matchCount (scoreDescription query p st) =
            matchCount st +
            match description p with
            | Some d =>
                if 0 <? String.length d
                then above (wholeRelevance query d) 0.2
                     + countedWords query (importantWordsOf d)
                else 0
            | None => 0
            end).
  { intros st. unfold scoreDescription.
    destruct (description p) as [d|]; [|lia].
    destruct (0 <? String.length d); [|lia].
    rewrite matchCount_descWords, matchCount_countIfAbove, matchCount_addScore.
    lia. }
  assert (Hcat : forall st, matchCount (scoreCategory query p st) =
            matchCount st +
            match Category p with
            | Some c =>
                if falsy (categoryName c) then 0
                else above (wholeRelevance query (categoryName c)) 0.3
            | None => 0
            end).
  { intros st. unfold scoreCategory.
    destruct (Category p) as [c|]; [|lia].
    destruct (falsy (categoryName c)); [lia|].
    now rewrite matchCount_countIfAbove, matchCount_addScore. }
  assert (Hsku : forall st, matchCount (scoreSku query p st) =
            matchCount st +
            match sku p with
            | Some s => if falsy s then 0 else above (wholeRelevance query s) 0.4
            | None => 0
            end).
  { intros st. unfold scoreSku.
    destruct (sku p) as [s|]; [|lia].
    destruct (falsy s); [lia|].
    now rewrite matchCount_countIfAbove, matchCount_addScore. }
  assert (Htags : forall st, matchCount (scoreTags query p st) =
            matchCount st +
            match tags p with
            | Some ts => countedTags query ts
            | None => 0
            end).
  { intros st. unfold scoreTags.
    destruct (tags p) as [ts|]; [|lia]. apply matchCount_tags. }
  rewrite Htags, Hsku, Hcat, Hdesc, Hname. cbn [matchCount]. lia.
Qed.

(** C3, as the code has it: [matchCount] is incremented once for the whole
    name, the whole description, the category name and the SKU when the
    relevance exceeds the threshold of the probe, and also once for every
    important description word longer than 3 characters and for every tag
    whose relevance exceeds 0.4.  The probes of the name words, of the
    name substrings and of the description sub-windows never increment
    it: whatever the accumulators are before them, the count is the same
    after them. *)
Theorem matchCount_by_probe (query : string) (p : Product) :
  matchCount (aggregate query p) = matchesByProbe query p /\
  (forall words st,
      matchCount (fold_left (nameWordStep query) words st) = matchCount st) /\
  (forall word st,
      matchCount (descWordStep query st word) =
      matchCount st + countedWords query [word]).
Proof.
  split; [apply matchCount_aggregate|]. split.
  - intros words st. apply matchCount_nameWords.
  - intros word st. apply matchCount_descWordStep.
Qed.

Lemma probe_same (s : string) (targetLength queryLength : nat) :
  probe s s targetLength queryLength = 1%R.
Proof.
  unfold probe.
  rewrite distance_same.
  unfold calculateRelevanceScore.
  change (Q2R 0) with (Q2R 0%Q). rewrite RMicromega.Q2R_0.
  destruct (Req_dec_T 0 0); [reflexivity | contradiction].
Qed.

Lemma above_1 (t : R) : (t < 1)%R -> above 1 t = 1.
Proof.
  intros H. unfold above, Rltb. destruct (Rlt_dec t 1); [reflexivity | lra].
Qed.

(** Counterexample to C3 as stated: for the query "cable" the cable
    matches by its name and by its description, two categories, and the
    count is 3: the only word of the description is counted again by the
    loop over the description words. *)
Lemma matchCount_counts_description_twice :
  matchCount (aggregate "cable" cable) = 3 /\
  matchesByCategory "cable" cable = 2.
Proof.
  assert (Hname : wholeRelevance "cable" "Cable" = 1%R) by apply probe_same.
  assert (Hdesc : wholeRelevance "cable" "cable" = 1%R) by apply probe_same.
  assert (Hword : partRelevance "cable" "cable" = 1%R) by apply probe_same.
  split.
  - rewrite matchCount_aggregate. unfold matchesByProbe, cable.
    cbn [name description Category sku tags String.length Nat.ltb Nat.leb].
    change (importantWordsOf "cable") with ["cable"].
    unfold countedWords. cbn [filter String.length Nat.ltb Nat.leb andb].
    rewrite Hname, Hdesc, Hword.
    rewrite !above_1 by lra.
    unfold Rltb. destruct (Rlt_dec 0.4 1); [reflexivity | lra].
  - unfold matchesByCategory, cable.
    cbn [name description Category sku tags String.length Nat.ltb Nat.leb].
    rewrite Hname, Hdesc. rewrite !above_1 by lra. reflexivity.
Qed.

(* ================================================================== *)
(** * The empty query                                                  *)
(* ================================================================== *)

(** With a query of length 0 the final score is [Infinity] for a positive
    total, [NaN] for a zero total, and 0 only for a negative total. *)
Lemma calculateFinalScore_zero_length (totalScore : R) (matchCount : nat) :
  calculateFinalScore totalScore matchCount 0 =
  if Rlt_dec 0 totalScore then PInf
  else if Rlt_dec totalScore 0 then Fin 0%R else NaN.
Proof.
  revert totalScore matchCount.
  { intros t mc. unfold calculateFinalScore.
    replace (INR 0 + 1)%R with 1%R by (cbn; lra). rewrite ln_1.
    unfold jsDiv. destruct (Req_dec_T 0 0) as [_|C]; [|contradiction].
    assert (Hm : (0 < 1 + INR mc * 0.1)%R)
      by (pose proof (pos_INR mc); lra).
    destruct (Rlt_dec 0 t) as [Ht|Ht].
    - destruct (Rlt_dec 0 (t * (1 + INR mc * 0.1))) as [_|C].
      + destruct (2 <? mc); cbn; auto.
        destruct (Rlt_dec 0 1.2); [reflexivity | lra].
      + exfalso; apply C. now apply Rmult_lt_0_compat.
    - destruct (Rlt_dec 0 (t * (1 + INR mc * 0.1))) as [C|_]; [nra|].
      destruct (Rlt_dec t 0) as [Hn|Hn].
      + destruct (Rlt_dec (t * (1 + INR mc * 0.1)) 0) as [_|C]; [|nra].
        destruct (2 <? mc); cbn; auto.
        destruct (Rlt_dec 0 1.2); [reflexivity | lra].
      + destruct (Rlt_dec (t * (1 + INR mc * 0.1)) 0) as [C|_]; [nra|].
        destruct (2 <? mc); reflexivity. }
Qed.

Lemma probe_nonneg (q t : string) (targetLength queryLength : nat) :
  (0 <= probe q t targetLength queryLength)%R.
Proof. apply calculateRelevanceScore_range. Qed.

Lemma total_addScore (st : Agg) (x : R) :
  totalRelevanceScore (addScore st x) = (totalRelevanceScore st + x)%R.
Proof. reflexivity. Qed.

Lemma total_countIfAbove (st : Agg) (r t : R) :
  totalRelevanceScore (countIfAbove st r t) = totalRelevanceScore st.
Proof. unfold countIfAbove. destruct (Rltb t r); reflexivity. Qed.

(** A loop whose body never lowers the total never lowers it. *)
Lemma fold_total_le {X : Type} (step : Agg -> X -> Agg) (xs : list X) :
  (forall st x, (totalRelevanceScore st <= totalRelevanceScore (step st x))%R) ->
  forall st, (totalRelevanceScore st <= totalRelevanceScore (fold_left step xs st))%R.
Proof.
  intros Hstep. induction xs as [|x xs IH]; intros st; cbn [fold_left].
  - apply Rle_refl.
  - eapply Rle_trans; [apply Hstep | apply IH].
Qed.

Lemma total_nameSubstringStep (query : string) (st : Agg) (s : string) :
  (totalRelevanceScore st <= totalRelevanceScore (nameSubstringStep query st s))%R.
Proof.
  unfold nameSubstringStep. rewrite total_addScore.
  pose proof (probe_nonneg (toLowerCase query) s (String.length s) (String.length query)).
  unfold partRelevance. lra.
Qed.

Lemma total_nameWordStep (query : string) (st : Agg) (w : string) :
  (totalRelevanceScore st <= totalRelevanceScore (nameWordStep query st w))%R.
Proof.
  unfold nameWordStep.
  pose proof (probe_nonneg (toLowerCase query) w (String.length w) (String.length query)) as Hw.
  assert (H1 : (totalRelevanceScore st <=
                totalRelevanceScore (addScore st (partRelevance query w * 2)))%R)
    by (rewrite total_addScore; unfold partRelevance; lra).
  destruct (4 <? String.length w); [|exact H1].
  eapply Rle_trans; [exact H1|].
  apply fold_total_le. apply total_nameSubstringStep.
Qed.

Lemma total_descWordStep (query : string) (st : Agg) (w : string) :
  (totalRelevanceScore st <= totalRelevanceScore (descWordStep query st w))%R.
Proof.
  unfold descWordStep.
  destruct (3 <? String.length w); [|apply Rle_refl].
  pose proof (probe_nonneg (toLowerCase query) w (String.length w) (String.length query)) as Hw.
  destruct (5 <? String.length w).
  - rewrite total_addScore, total_countIfAbove, total_addScore.
    match goal with
    | |- context [partRelevance query (jsSubstring ?a ?b ?c)] =>
        pose proof (probe_nonneg (toLowerCase query) (jsSubstring a b c)
                      (String.length (jsSubstring a b c)) (String.length query))
    end.
    unfold partRelevance in *. lra.
  - rewrite total_countIfAbove, total_addScore. unfold partRelevance. lra.
Qed.

Lemma total_tagStep (query : string) (st : Agg) (tag : string) :
  (totalRelevanceScore st <= totalRelevanceScore (tagStep query st tag))%R.
Proof.
  unfold tagStep. rewrite total_countIfAbove, total_addScore.
  pose proof (probe_nonneg (trim (toLowerCase query)) (trim (toLowerCase tag))
                (String.length tag) (String.length query)).
  unfold wholeRelevance. lra.
Qed.

Lemma total_scoreDescription (query : string) (p : Product) (st : Agg) :
  (totalRelevanceScore st <= totalRelevanceScore (scoreDescription query p st))%R.
Proof.
  unfold scoreDescription.
  destruct (description p) as [d|]; [|apply Rle_refl].
  destruct (0 <? String.length d); [|apply Rle_refl].
  eapply Rle_trans; [|apply fold_total_le; apply total_descWordStep].
  rewrite total_countIfAbove, total_addScore.
  pose proof (probe_nonneg (trim (toLowerCase query)) (trim (toLowerCase d))
                (String.length d) (String.length query)).
  unfold wholeRelevance. lra.
Qed.

Lemma total_scoreCategory (query : string) (p : Product) (st : Agg) :
  (totalRelevanceScore st <= totalRelevanceScore (scoreCategory query p st))%R.
Proof.
  unfold scoreCategory.
  destruct (Category p) as [c|]; [|apply Rle_refl].
  destruct (falsy (categoryName c)); [apply Rle_refl|].
  rewrite total_countIfAbove, total_addScore.
  pose proof (probe_nonneg (trim (toLowerCase query)) (trim (toLowerCase (categoryName c)))
                (String.length (categoryName c)) (String.length query)).
  unfold wholeRelevance. lra.
Qed.

Lemma total_scoreSku (query : string) (p : Product) (st : Agg) :
  (totalRelevanceScore st <= totalRelevanceScore (scoreSku query p st))%R.
Proof.
  unfold scoreSku.
  destruct (sku p) as [s|]; [|apply Rle_refl].
  destruct (falsy s); [apply Rle_refl|].
  rewrite total_countIfAbove, total_addScore.
  pose proof (probe_nonneg (trim (toLowerCase query)) (trim (toLowerCase s))
                (String.length s) (String.length query)).
  unfold wholeRelevance. lra.
Qed.

Lemma total_scoreTags (query : string) (p : Product) (st : Agg) :
  (totalRelevanceScore st <= totalRelevanceScore (scoreTags query p st))%R.
Proof.
  unfold scoreTags.
  destruct (tags p) as [ts|]; [|apply Rle_refl].
  apply fold_total_le. apply total_tagStep.
Qed.

(** The total of a product is at least three times the relevance of its
    name. *)
Lemma total_ge_name (query : string) (p : Product) :
  (3 * wholeRelevance query (name p)
   <= totalRelevanceScore (aggregate query p))%R.
Proof.
  unfold aggregate.
  eapply Rle_trans; [|apply total_scoreTags].
  eapply Rle_trans; [|apply total_scoreSku].
  eapply Rle_trans; [|apply total_scoreCategory].
  eapply Rle_trans; [|apply total_scoreDescription].
  unfold scoreName.
  eapply Rle_trans; [|apply fold_total_le; apply total_nameWordStep].
  rewrite total_countIfAbove, total_addScore. cbn. lra.
Qed.

(** For the empty query the relevance of a name is positive. *)
Lemma wholeRelevance_empty_query_pos (n : string) :
  (0 < wholeRelevance EmptyString n)%R.
Proof.
  unfold wholeRelevance, probe.
  change (trim (toLowerCase EmptyString)) with EmptyString.
  rewrite distance_empty_l.
  unfold calculateRelevanceScore.
  destruct (Req_dec_T _ 0) as [_|Hd]; [lra|].
  destruct (Nat.max (String.length n) (String.length EmptyString) =? 0) eqn:Hmax.
  - exfalso. apply Hd. apply Nat.eqb_eq in Hmax.
    destruct n as [|c n]; [|cbn in Hmax; lia].
    cbn. unfold ofNat. cbn. apply RMicromega.Q2R_0.
  - pose proof (INR_max_pos _ _ Hmax) as Hpos.
    apply Rmin_glb_lt; [lra|].
    apply Rmult_lt_0_compat; [apply exp_pos|].
    cbn [String.length INR]. unfold Rdiv. rewrite Rmult_0_l. lra.
Qed.

(** C1 (defect of the code): with a query of length 0 the division by
    [ln 1 = 0] is not special-cased.  [calculateFinalScore(1, 0, 0)] is
    [Infinity]; in general the result is [Infinity] for a positive total,
    [NaN] for a zero total and 0 only for a negative one.  So the empty
    query gives every product the final score [Infinity] and keeps it in
    the results. *)
Theorem finalScore_zero_length_query :
  calculateFinalScore 1 0 0 = PInf /\
  (forall (totalScore : R) (matchCount : nat),
      calculateFinalScore totalScore matchCount 0 =
      if Rlt_dec 0 totalScore then PInf
      else if Rlt_dec totalScore 0 then Fin 0%R else NaN) /\
  (forall p : Product,
      scoreProduct EmptyString p = Some (mkScored p PInf (matchCount (aggregate EmptyString p)))).
Proof.
  split; [|split].
  - rewrite calculateFinalScore_zero_length.
    destruct (Rlt_dec 0 1); [reflexivity | lra].
  - apply calculateFinalScore_zero_length.
  - intros p. unfold scoreProduct. cbn [String.length].
    rewrite calculateFinalScore_zero_length.
    pose proof (total_ge_name EmptyString p).
    pose proof (wholeRelevance_empty_query_pos (name p)).
    destruct (Rlt_dec 0 (totalRelevanceScore (aggregate EmptyString p))); [reflexivity | lra].
Qed.

(* ================================================================== *)
(** * Properties of the price filter                                   *)
(* ================================================================== *)

Lemma filter_none {A : Type} (f : A -> bool) (l : list A) :
  (forall x, f x = false) -> filter f l = [].
Proof.
  intros Hf; induction l as [|x l IH]; cbn; [reflexivity|].
  now rewrite Hf.
Qed.

Lemma jsGeQ_NaN (x : ext Q) : jsGeQ x NaN = false.
Proof. reflexivity. Qed.

Lemma jsLeQ_NaN (x : ext Q) : jsLeQ x NaN = false.
Proof. destruct x; reflexivity. Qed.

(** A bound that is not empty and does not parse empties the results. *)
Lemma applyPriceFilters_malformed {A : Type} (priceOf : A -> string)
    (m : string) (other : option string) (results : list A) :
  falsy m = false -> parseFloat m = NaN ->
  applyPriceFilters priceOf (Some m) other results = [] /\
  applyPriceFilters priceOf other (Some m) results = [].
Proof.
  intros Hm Hnan. unfold applyPriceFilters. rewrite Hm, Hnan. split.
  - rewrite (filter_none (fun p => jsGeQ (parseFloat (priceOf p)) NaN))
      by (intros x; apply jsGeQ_NaN).
    destruct other as [o|]; [destruct (falsy o)|]; reflexivity.
  - apply filter_none. intros x; apply jsLeQ_NaN.
Qed.

(** C2, as the code has it: a price bound that is a non-empty string but
    does not parse as a number is not ignored.  Every comparison with the
    [NaN] it parses to is false, so the filter of that bound removes every
    product and the result set is empty, in both search modes. *)
Theorem malformed_price_bound_empties_results
    (sort : forall A : Type, (A -> A -> ext R) -> list A -> list A)
    (localeCompare : string -> string -> Z)
    (query m : string) (other : option string) (allProducts : list Product) :
  falsy m = false -> parseFloat m = NaN ->
  searchSimple query (Some m) other allProducts = [] /\
  searchSimple query other (Some m) allProducts = [] /\
  searchSmart sort localeCompare query (Some m) other allProducts = [] /\
  searchSmart sort localeCompare query other (Some m) allProducts = [].
Proof.
  intros Hm Hnan. unfold searchSimple, searchSmart.
  repeat split; now apply applyPriceFilters_malformed.
Qed.

Lemma malformed_price_bound_witness :
  searchSimple "lap" (Some "abc") None [laptopStand] = [] /\
  searchSimple "lap" None (Some "abc") [laptopStand] = [] /\
  searchSmart (@v8SortShort) codeUnitCompare "lap" (Some "abc") None [laptopStand] = [] /\
  searchSmart (@v8SortShort) codeUnitCompare "lap" None (Some "abc") [laptopStand] = [].
Proof.
  apply malformed_price_bound_empties_results; reflexivity.
Defined.

(** Counterexample to C2 as stated: the bound "abc" does not parse, and
    with it as [minPrice] the stand is excluded, while without a bound it
    is found. *)
Lemma malformed_minPrice_not_ignored :
  parseFloat "abc" = NaN /\
  searchSimple "lap" (Some "abc") None [laptopStand] = [] /\
  searchSimple "lap" None None [laptopStand] = [laptopStand].
Proof. repeat split; vm_compute; reflexivity. Qed.

(* ================================================================== *)
(** * The sort of V8 meets the contract of ECMAScript                  *)
(* ================================================================== *)

Local Open Scope list_scope.

Lemma sign_cases (v : ext R) :
  (isNeg v = true /\ isPos v = false) \/
  (isNeg v = false /\ isPos v = true) \/
  (isNeg v = false /\ isPos v = false).
Proof.
  destruct v as [| | |a]; cbn; auto.
  unfold Rltb. destruct (Rlt_dec a 0), (Rlt_dec 0 a); auto. lra.
Qed.

Section StronglySortedFacts.
Context {A : Type}.
Variable rel : A -> A -> Prop.

Lemma StronglySorted_app (l1 l2 : list A) :
  StronglySorted rel l1 -> StronglySorted rel l2 ->
  (forall a b, In a l1 -> In b l2 -> rel a b) ->
  StronglySorted rel (l1 ++ l2).
Proof.
  intros H1 H2 Hcross. induction l1 as [|x l1 IH]; cbn; [exact H2|].
  apply StronglySorted_inv in H1 as [Hs Hall].
  constructor.
  - apply IH; [exact Hs|]. intros a b Ha Hb. apply Hcross; cbn; auto.
  - apply Forall_app; split; [exact Hall|].
    apply Forall_forall. intros b Hb. apply Hcross; cbn; auto.
Qed.

Lemma StronglySorted_app_inv (l1 l2 : list A) :
  StronglySorted rel (l1 ++ l2) ->
  StronglySorted rel l1 /\ StronglySorted rel l2 /\
  (forall a b, In a l1 -> In b l2 -> rel a b).
Proof.
  induction l1 as [|x l1 IH]; cbn; intros H.
  - repeat split; [constructor | exact H | intros a b []].
  - apply StronglySorted_inv in H as [Hs Hall].
    destruct (IH Hs) as (H1 & H2 & Hcross).
    apply Forall_app in Hall as [Hall1 Hall2].
    repeat split; [constructor; assumption | exact H2 |].
    intros a b [<-|Ha] Hb.
    + rewrite Forall_forall in Hall2. now apply Hall2.
    + now apply Hcross.
Qed.

Lemma StronglySorted_nth (l : list A) :
  StronglySorted rel l ->
  forall i j x y, i < j ->
    nth_error l i = Some x -> nth_error l j = Some y -> rel x y.
Proof.
  induction 1 as [|a l Hs IH Hall]; intros i j x y Hij Hi Hj.
  - destruct i; discriminate.
  - destruct j as [|j]; [lia|]. cbn in Hj.
    destruct i as [|i]; cbn in Hi.
    + injection Hi as <-. rewrite Forall_forall in Hall.
      apply Hall. eapply nth_error_In; eauto.
    + apply (IH i j); auto; lia.
Qed.

Lemma StronglySorted_weaken (rel' : A -> A -> Prop) (l : list A) :
  (forall a b, In a l -> In b l -> rel a b -> rel' a b) ->
  StronglySorted rel l -> StronglySorted rel' l.
Proof.
  intros Hw H; induction H as [|a l Hs IH Hall]; constructor.
  - apply IH. intros x y Hx Hy. apply Hw; cbn; auto.
  - rewrite Forall_forall in *. intros y Hy. apply Hw; cbn; auto.
Qed.

Lemma StronglySorted_rev (l : list A) :
  StronglySorted (fun a b => rel b a) l -> StronglySorted rel (rev l).
Proof.
  induction 1 as [|a l Hs IH Hall]; cbn; [constructor|].
  apply StronglySorted_app; [exact IH | repeat constructor |].
  intros x y Hx [<-|[]]. rewrite Forall_forall in Hall.
  apply Hall. now apply in_rev.
Qed.
End StronglySortedFacts.

Lemma In_firstn_nth {A : Type} (e : A) (k : nat) (a : list A) :
  In e (firstn k a) -> exists i, i < k /\ nth_error a i = Some e.
Proof.
  revert a; induction k as [|k IH]; intros [|x a]; cbn; try tauto.
  intros [<-|Hin].
  - exists 0; split; [lia | reflexivity].
  - destruct (IH a Hin) as (i & Hi & Hnth). exists (S i); split; [lia | exact Hnth].
Qed.

Lemma In_skipn_nth {A : Type} (e : A) (k : nat) (a : list A) :
  In e (skipn k a) -> exists i, k <= i /\ nth_error a i = Some e.
Proof.
  revert a; induction k as [|k IH]; intros a Hin.
  - apply In_nth_error in Hin as [i Hi]. exists i; split; [lia | exact Hi].
  - destruct a as [|x a]; [destruct Hin|].
    destruct (IH a Hin) as (i & Hi & Hnth). exists (S i); split; [lia | exact Hnth].
Qed.

Section ConsistentFacts.
Context {A : Type}.
Variable cmp : A -> A -> ext R.
Variable l : list A.
Hypothesis CC : ConsistentComparator cmp l.

Lemma cf_irrefl (a : A) : In a l -> ~ ltCF cmp a a.
Proof.
  intros Ha Hlt. destruct (cc_refl _ _ CC a Ha) as [Hn _].
  unfold ltCF in Hlt. congruence.
Qed.

Lemma cf_gt_of_lt (a b : A) : In a l -> In b l -> ltCF cmp a b -> gtCF cmp b a.
Proof.
  intros Ha Hb Hlt.
  destruct (sign_cases (cmp b a)) as [[Hn _] | [[_ Hp] | [Hn Hp]]].
  - exfalso. apply (cf_irrefl a Ha). now apply (cc_lt_trans _ _ CC a b a).
  - exact Hp.
  - exfalso. destruct (cc_sym _ _ CC b a Hb Ha (conj Hn Hp)) as [Hn' _].
    unfold ltCF in Hlt. congruence.
Qed.

Lemma cf_lt_of_gt (a b : A) : In a l -> In b l -> gtCF cmp a b -> ltCF cmp b a.
Proof.
  intros Ha Hb Hgt.
  destruct (sign_cases (cmp b a)) as [[Hn _] | [[_ Hp] | [Hn Hp]]].
  - exact Hn.
  - exfalso. destruct (cc_refl _ _ CC a Ha) as [_ Hpa].
    pose proof (cc_gt_trans _ _ CC a b a Ha Hb Ha Hgt Hp) as Hc.
    unfold gtCF in Hc. congruence.
  - exfalso. destruct (cc_sym _ _ CC b a Hb Ha (conj Hn Hp)) as [_ Hp'].
    unfold gtCF in Hgt. congruence.
Qed.

Lemma cf_asym (a b : A) : In a l -> In b l -> ltCF cmp a b -> leCF cmp a b.
Proof.
  intros Ha Hb Hlt. unfold leCF.
  destruct (isNeg (cmp b a)) eqn:Hn; [|reflexivity].
  exfalso. apply (cf_irrefl a Ha). now apply (cc_lt_trans _ _ CC a b a).
Qed.

Lemma cf_le_trans (a b c : A) :
  In a l -> In b l -> In c l ->
  leCF cmp a b -> leCF cmp b c -> leCF cmp a c.
Proof.
  intros Ha Hb Hc Hab Hbc. unfold leCF in *.
  destruct (isNeg (cmp c a)) eqn:Hca; [|reflexivity]. exfalso.
  destruct (sign_cases (cmp c b)) as [[Hn _] | [[_ Hp] | [Hn Hp]]].
  - congruence.
  - pose proof (cf_lt_of_gt c b Hc Hb Hp) as Hlt.
    pose proof (cc_lt_trans _ _ CC b c a Hb Hc Ha Hlt Hca) as Hba.
    unfold ltCF in Hba. congruence.
  - destruct (sign_cases (cmp b a)) as [[Hn' _] | [[_ Hp'] | [Hn' Hp']]].
    + congruence.
    + pose proof (cf_gt_of_lt c a Hc Ha Hca) as Hac.
      pose proof (cc_gt_trans _ _ CC b a c Hb Ha Hc Hp' Hac) as Hbc'.
      destruct (cc_sym _ _ CC c b Hc Hb (conj Hn Hp)) as [_ Hp''].
      unfold gtCF in Hbc'. congruence.
    + destruct (cc_eq_trans _ _ CC c b a Hc Hb Ha (conj Hn Hp) (conj Hn' Hp'))
        as [Hn'' _].
      congruence.
Qed.

Lemma cf_lt_le_trans (a b c : A) :
  In a l -> In b l -> In c l ->
  ltCF cmp a b -> leCF cmp b c -> ltCF cmp a c.
Proof.
  intros Ha Hb Hc Hab Hbc. unfold ltCF.
  destruct (isNeg (cmp a c)) eqn:Hac; [reflexivity|]. exfalso.
  pose proof (cf_le_trans b c a Hb Hc Ha Hbc Hac) as Hba.
  unfold leCF, ltCF in *. congruence.
Qed.

(** ** Binary insertion *)

Lemma findInsertionPoint_spec (pivot : A) (a : list A) :
  In pivot l -> incl a l -> StronglySorted (leCF cmp) a ->
  forall fuel left right,
    left <= right <= List.length a -> right - left <= fuel ->
    (forall i e, i < left -> nth_error a i = Some e -> leCF cmp e pivot) ->
    (forall i e, right <= i -> nth_error a i = Some e -> ltCF cmp pivot e) ->
    let k := findInsertionPoint cmp fuel pivot a left right in
    k <= List.length a /\
    (forall i e, i < k -> nth_error a i = Some e -> leCF cmp e pivot) /\
    (forall i e, k <= i -> nth_error a i = Some e -> ltCF cmp pivot e).
Proof.
  intros Hp Hincl Hsorted.
  induction fuel as [|fuel IH]; intros left right Hlr Hfuel Hlow Hhigh;
    cbv zeta; cbn [findInsertionPoint].
  - assert (left = right) by lia; subst. repeat split; auto; lia.
  - destruct (left <? right) eqn:Hlt.
    2:{ apply Nat.ltb_ge in Hlt. assert (left = right) by lia; subst.
        repeat split; auto; lia. }
    apply Nat.ltb_lt in Hlt.
    set (mid := left + (right - left) / 2).
    assert (Hmid : left <= mid < right).
    { subst mid. pose proof (Nat.div_lt (right - left) 2). lia. }
    destruct (nth_error a mid) as [e|] eqn:He.
    2:{ apply nth_error_None in He. lia. }
    assert (Hel : In e l) by (apply Hincl; eapply nth_error_In; eauto).
    destruct (isNeg (cmp pivot e)) eqn:Hneg.
    + apply IH; [lia | lia | exact Hlow |].
      intros i e' Hi He'.
      assert (He'l : In e' l) by (apply Hincl; eapply nth_error_In; eauto).
      destruct (Nat.eq_dec i mid) as [->|Hne]; [congruence|].
      apply (cf_lt_le_trans pivot e e'); auto.
      apply (StronglySorted_nth _ _ Hsorted mid i); auto; lia.
    + apply IH; [lia | lia | | exact Hhigh].
      intros i e' Hi He'.
      assert (He'l : In e' l) by (apply Hincl; eapply nth_error_In; eauto).
      destruct (Nat.eq_dec i mid) as [->|Hne].
      * assert (e' = e) by congruence. subst e'. exact Hneg.
      * apply (cf_le_trans e' e pivot); auto.
        apply (StronglySorted_nth _ _ Hsorted i mid); auto; lia.
Qed.

Lemma binaryInsert_perm (a : list A) (pivot : A) :
  Permutation (a ++ [pivot]) (binaryInsert cmp a pivot).
Proof.
  unfold binaryInsert.
  set (k := findInsertionPoint _ _ _ _ _ _).
  rewrite <- (firstn_skipn k a) at 1. rewrite <- app_assoc.
  apply Permutation_app_head. cbn.
  rewrite <- Permutation_middle. rewrite app_nil_r. reflexivity.
Qed.

Lemma binaryInsert_sorted (a : list A) (pivot : A) :
  In pivot l -> incl a l -> StronglySorted (leCF cmp) a ->
  StronglySorted (leCF cmp) (binaryInsert cmp a pivot).
Proof.
  intros Hp Hincl Hsorted. unfold binaryInsert.
  destruct (findInsertionPoint_spec pivot a Hp Hincl Hsorted
              (List.length a) 0 (List.length a)) as (Hk & Hlow & Hhigh);
    try lia.
  { intros i e Hi He.
    assert (i < List.length a) by (apply nth_error_Some; congruence). lia. }
  set (k := findInsertionPoint _ _ _ _ _ _) in *.
  pose proof Hsorted as Hsplit. rewrite <- (firstn_skipn k a) in Hsplit.
  apply StronglySorted_app_inv in Hsplit as (H1 & H2 & Hcross).
  apply StronglySorted_app; [exact H1 | |].
  - constructor; [exact H2|]. apply Forall_forall. intros e He.
    destruct (In_skipn_nth _ _ _ He) as (i & Hi & Hnth).
    apply cf_asym; auto.
    + apply Hincl. eapply nth_error_In; eauto.
    + now apply (Hhigh i).
  - intros x y Hx [<-|Hy].
    + destruct (In_firstn_nth _ _ _ Hx) as (i & Hi & Hnth). now apply (Hlow i).
    + now apply Hcross.
Qed.
End ConsistentFacts.

(** ** The initial run and the whole sort: the elements are kept *)

Section V8SortPermutation.
Context {A : Type}.
Variable cmp : A -> A -> ext R.

Lemma extendRun_app (isDescending : bool) (rest : list A) :
  forall previousElement run0 run remaining,
    extendRun cmp isDescending previousElement rest run0 = (run, remaining) ->
    rev run ++ remaining = rev run0 ++ rest.
Proof.
  induction rest as [|cur rest IH]; intros prev run0 run remaining; cbn.
  - intros [= <- <-]. reflexivity.
  - destruct (if isDescending then _ else _).
    + intros [= <- <-]. reflexivity.
    + intros H. rewrite (IH _ _ _ _ H). cbn. now rewrite <- app_assoc.
Qed.

Lemma countAndMakeRun_perm (l run remaining : list A) :
  countAndMakeRun cmp l = (run, remaining) -> Permutation l (run ++ remaining).
Proof.
  unfold countAndMakeRun.
  destruct l as [|e0 [|e1 rest]].
  - intros [= <- <-]. reflexivity.
  - intros [= <- <-]. reflexivity.
  - destruct (extendRun cmp _ e1 rest [e1; e0]) as [run1 rem1] eqn:Hrun.
    apply extendRun_app in Hrun. cbn in Hrun.
    intros [= <- <-]. rewrite <- Hrun.
    destruct (isNeg (cmp e1 e0)).
    + apply Permutation_app_tail. symmetry. apply Permutation_rev.
    + reflexivity.
Qed.

Lemma fold_binaryInsert_perm (remaining run : list A) :
  Permutation (run ++ remaining) (fold_left (binaryInsert cmp) remaining run).
Proof.
  revert run; induction remaining as [|p remaining IH]; intros run; cbn.
  - now rewrite app_nil_r.
  - rewrite <- IH. change (p :: remaining) with ([p] ++ remaining).
    rewrite app_assoc. apply Permutation_app_tail. apply binaryInsert_perm.
Qed.

Lemma v8SortShort_perm (l : list A) : Permutation l (v8SortShort cmp l).
Proof.
  unfold v8SortShort.
  destruct (countAndMakeRun cmp l) as [run remaining] eqn:Hrun.
  rewrite (countAndMakeRun_perm _ _ _ Hrun). apply fold_binaryInsert_perm.
Qed.
End V8SortPermutation.

(** ** The initial run and the whole sort: the order *)

Section V8SortSorted.
Context {A : Type}.
Variable cmp : A -> A -> ext R.
Variable l : list A.
Hypothesis CC : ConsistentComparator cmp l.

Lemma extendRun_ascending (rest : list A) :
  forall prev acc run remaining,
    incl (prev :: acc) l -> incl rest l ->
    StronglySorted (fun a b => leCF cmp b a) (prev :: acc) ->
    extendRun cmp false prev rest (prev :: acc) = (run, remaining) ->
    StronglySorted (fun a b => leCF cmp b a) run.
Proof.
  induction rest as [|cur rest IH]; intros prev acc run remaining Hacc Hrest Hs; cbn.
  - now intros [= <- <-].
  - destruct (isNeg (cmp cur prev)) eqn:Hneg.
    + now intros [= <- <-].
    + apply IH.
      * intros x [<-|Hx]; [apply Hrest; cbn; auto | now apply Hacc].
      * intros x Hx. apply Hrest; cbn; auto.
      * constructor; [exact Hs|].
        apply StronglySorted_inv in Hs as [_ Hall]. rewrite Forall_forall in Hall.
        apply Forall_forall. intros y [<-|Hy]; [exact Hneg|].
        apply (cf_le_trans cmp l CC y prev cur).
        -- apply Hacc; cbn; auto.
        -- apply Hacc; cbn; auto.
        -- apply Hrest; cbn; auto.
        -- now apply Hall.
        -- exact Hneg.
Qed.

Lemma extendRun_descending (rest : list A) :
  forall prev acc run remaining,
    incl (prev :: acc) l -> incl rest l ->
    StronglySorted (ltCF cmp) (prev :: acc) ->
    extendRun cmp true prev rest (prev :: acc) = (run, remaining) ->
    StronglySorted (ltCF cmp) run.
Proof.
  induction rest as [|cur rest IH]; intros prev acc run remaining Hacc Hrest Hs; cbn.
  - now intros [= <- <-].
  - destruct (isNeg (cmp cur prev)) eqn:Hneg; cbn.
    + apply IH.
      * intros x [<-|Hx]; [apply Hrest; cbn; auto | now apply Hacc].
      * intros x Hx. apply Hrest; cbn; auto.
      * constructor; [exact Hs|].
        apply StronglySorted_inv in Hs as [_ Hall]. rewrite Forall_forall in Hall.
        apply Forall_forall. intros y [<-|Hy]; [exact Hneg|].
        apply (cc_lt_trans _ _ CC cur prev y).
        -- apply Hrest; cbn; auto.
        -- apply Hacc; cbn; auto.
        -- apply Hacc; cbn; auto.
        -- exact Hneg.
        -- now apply Hall.
    + now intros [= <- <-].
Qed.

Lemma extendRun_incl (isDescending : bool) (rest : list A) :
  forall prev run0 run remaining,
    incl run0 l -> incl rest l ->
    extendRun cmp isDescending prev rest run0 = (run, remaining) ->
    incl run l /\ incl remaining l.
Proof.
  induction rest as [|cur rest IH]; intros prev run0 run remaining H0 Hrest; cbn.
  - intros [= <- <-]. split; [exact H0 | intros x []].
  - destruct (if isDescending then _ else _).
    + intros [= <- <-]. now split.
    + apply IH.
      * intros x [<-|Hx]; [apply Hrest; cbn; auto | now apply H0].
      * intros x Hx. apply Hrest; cbn; auto.
Qed.

Lemma countAndMakeRun_sorted (l0 run remaining : list A) :
  incl l0 l -> countAndMakeRun cmp l0 = (run, remaining) ->
  StronglySorted (leCF cmp) run /\ incl run l /\ incl remaining l.
Proof.
  intros Hincl. unfold countAndMakeRun.
  destruct l0 as [|e0 [|e1 rest]].
  - intros [= <- <-]. repeat split; [constructor | intros x [] | intros x []].
  - intros [= <- <-]. repeat split; [repeat constructor | exact Hincl | intros x []].
  - assert (H0 : In e0 l) by (apply Hincl; cbn; auto).
    assert (H1 : In e1 l) by (apply Hincl; cbn; auto).
    assert (Hrest : incl rest l) by (intros x Hx; apply Hincl; cbn; auto).
    assert (Hinit : incl [e1; e0] l) by (intros x [<-|[<-|[]]]; auto).
    destruct (extendRun cmp _ e1 rest [e1; e0]) as [run1 rem1] eqn:Hrun.
    destruct (extendRun_incl _ _ _ _ _ _ Hinit Hrest Hrun) as [Hr1 Hr2].
    destruct (isNeg (cmp e1 e0)) eqn:Hneg; intros [= <- <-].
    + repeat split; auto.
      apply (StronglySorted_weaken (ltCF cmp)).
      * intros a b Ha Hb. apply (cf_asym cmp l CC); auto.
      * apply (extendRun_descending rest e1 [e0] run1 rem1); auto.
        repeat constructor. exact Hneg.
    + repeat split; auto.
      * apply StronglySorted_rev.
        apply (extendRun_ascending rest e1 [e0] run1 rem1); auto.
        repeat constructor. exact Hneg.
      * intros x Hx. apply Hr1. now apply in_rev.
Qed.

Lemma fold_binaryInsert_sorted (remaining : list A) :
  forall run, incl run l -> incl remaining l ->
    StronglySorted (leCF cmp) run ->
    StronglySorted (leCF cmp) (fold_left (binaryInsert cmp) remaining run).
Proof.
  induction remaining as [|p remaining IH]; intros run Hrun Hrem Hs; cbn.
  - exact Hs.
  - apply IH.
    + intros x Hx.
      apply (Permutation_in _ (Permutation_sym (binaryInsert_perm cmp run p))) in Hx.
      apply in_app_or in Hx as [Hx|[<-|[]]]; [now apply Hrun | apply Hrem; cbn; auto].
    + intros x Hx. apply Hrem; cbn; auto.
    + apply (binaryInsert_sorted cmp l CC); auto. apply Hrem; cbn; auto.
Qed.

Lemma v8SortShort_sorted : StronglySorted (leCF cmp) (v8SortShort cmp l).
Proof.
  unfold v8SortShort.
  destruct (countAndMakeRun cmp l) as [run remaining] eqn:Hrun.
  destruct (countAndMakeRun_sorted l run remaining (incl_refl l) Hrun)
    as (Hs & Hr & Hrem).
  now apply fold_binaryInsert_sorted.
Qed.
End V8SortSorted.

(** A list in which no element compares before an earlier one has every
    element that compares before another one in front of it. *)
Lemma sorted_positions {A : Type} (cmp : A -> A -> ext R) (l out : list A) :
  ConsistentComparator cmp l -> Permutation l out ->
  StronglySorted (leCF cmp) out ->
  forall i j x y,
    nth_error out i = Some x -> nth_error out j = Some y ->
    ltCF cmp x y -> i < j.
Proof.
  intros CC Hperm Hs i j x y Hi Hj Hlt.
  destruct (Nat.lt_trichotomy i j) as [Hij | [-> | Hji]]; [exact Hij | |].
  - exfalso. assert (x = y) by congruence. subst y.
    apply (cf_irrefl cmp l CC x); auto.
    apply (Permutation_in _ (Permutation_sym Hperm)). eapply nth_error_In; eauto.
  - exfalso. pose proof (StronglySorted_nth _ _ Hs j i y x Hji Hj Hi) as Hle.
    unfold leCF, ltCF in *. congruence.
Qed.

(** The sort of V8 on short arrays is one of the sorts that ECMAScript
    allows. *)
Lemma v8SortShort_contract : SortContract (@v8SortShort).
Proof.
  intros A cmp l. split.
  - apply v8SortShort_perm.
  - intros CC. apply (sorted_positions cmp l); auto.
    + apply v8SortShort_perm.
    + now apply v8SortShort_sorted.
Qed.

(* ================================================================== *)
(** * Properties of the ranking                                        *)
(* ================================================================== *)

Lemma jsLe_not_jsGt (v : ext R) (t : R) :
  jsLe v (Fin t) = true -> jsGt v (Fin t) = false.
Proof.
  destruct v as [| | |a]; cbn; try discriminate; auto.
  unfold Rleb, Rltb. destruct (Rle_dec a t), (Rlt_dec t a); auto; try discriminate.
  lra.
Qed.

(** On a near tie with equal match counts the comparator gives the result
    of [localeCompare]. *)
Lemma compareResults_tie (localeCompare : string -> string -> Z) (x y : Scored) :
  nearTie x y -> scoredMatchCount x = scoredMatchCount y ->
  compareResults localeCompare x y =
  Fin (IZR (localeCompare (name (product x)) (name (product y)))).
Proof.
  intros Htie Hmc. unfold compareResults.
  rewrite (jsLe_not_jsGt _ _ Htie), Hmc, Nat.eqb_refl. reflexivity.
Qed.

(** When the comparator is consistent on the kept products, the sorted
    results have the tie-break by name. *)
Lemma rankResults_tie_break
    (sort : forall A : Type, (A -> A -> ext R) -> list A -> list A)
    (localeCompare : string -> string -> Z) (results : list Scored) :
  SortContract sort ->
  ConsistentComparator (compareResults localeCompare) results ->
  nameTieBreak localeCompare (rankResults sort localeCompare results).
Proof.
  intros Hsort CC i j x y Hi Hj Htie Hmc Hname.
  destruct (Hsort Scored (compareResults localeCompare) results) as [_ Hsorted].
  apply (Hsorted CC i j x y Hi Hj).
  unfold ltCF. rewrite compareResults_tie by assumption.
  cbn. unfold Rltb.
  destruct (Rlt_dec (IZR (localeCompare (name (product x)) (name (product y)))) 0)
    as [_|C]; [reflexivity|].
  exfalso. apply C. now apply (IZR_lt _ 0).
Qed.

(* ================================================================== *)
(** * When the comparator is consistent                                *)
(* ================================================================== *)

Lemma isNeg_Fin (r : R) : isNeg (Fin r) = true <-> (r < 0)%R.
Proof.
  cbn. unfold Rltb. destruct (Rlt_dec r 0); split; auto; discriminate.
Qed.

Lemma isPos_Fin (r : R) : isPos (Fin r) = true <-> (0 < r)%R.
Proof.
  cbn. unfold Rltb. destruct (Rlt_dec 0 r); split; auto; discriminate.
Qed.

Lemma isNeg_Fin_false (r : R) : isNeg (Fin r) = false <-> (0 <= r)%R.
Proof.
  cbn. unfold Rltb. destruct (Rlt_dec r 0); split; auto; try discriminate; lra.
Qed.

Lemma isPos_Fin_false (r : R) : isPos (Fin r) = false <-> (r <= 0)%R.
Proof.
  cbn. unfold Rltb. destruct (Rlt_dec 0 r); split; auto; try discriminate; lra.
Qed.

Lemma nearTie_Fin (p1 p2 : Product) (s1 s2 : R) (m1 m2 : nat) :
  nearTie (mkScored p1 (Fin s1) m1) (mkScored p2 (Fin s2) m2) <->
  (-0.01 <= s1 - s2 <= 0.01)%R.
Proof.
  unfold nearTie; cbn. unfold Rleb, Rabs.
  destruct (Rle_dec _ 0.01) as [H|H]; destruct (Rcase_abs (s1 - s2));
    split; intros; try discriminate; auto; lra.
Qed.

Lemma compareResults_Fin (localeCompare : string -> string -> Z)
    (p1 p2 : Product) (s1 s2 : R) (m1 m2 : nat) :
  compareResults localeCompare (mkScored p1 (Fin s1) m1) (mkScored p2 (Fin s2) m2) =
  if Rlt_dec 0.01 (Rabs (s1 - s2)) then Fin (s2 - s1)%R
  else if negb (m1 =? m2)%nat then Fin (IZR (Z.of_nat m2 - Z.of_nat m1))
  else Fin (IZR (localeCompare (name p1) (name p2))).
Proof.
  unfold compareResults; cbn. unfold Rltb.
  destruct (Rlt_dec 0.01 (Rabs (s1 - s2))); reflexivity.
Qed.

Section ComparatorConsistency.
Variable localeCompare : string -> string -> Z.
Variable results : list Scored.

Hypothesis finite_scores :
  forall a, In a results -> exists s, searchScore a = Fin s.
Hypothesis tie_transitive :
  forall a b c, In a results -> In b results -> In c results ->
    nearTie a b -> nearTie b c -> nearTie a c.
Hypothesis names_consistent :
  ConsistentComparator (fun a b : string => Fin (IZR (localeCompare a b)))
    (map (fun s => name (product s)) results).

Let nameOf (s : Scored) : string := name (product s).

Lemma name_in (a : Scored) : In a results -> In (nameOf a) (map (fun s => name (product s)) results).
Proof. intros H. unfold nameOf. now apply (in_map (fun s => name (product s))). Qed.

Lemma lc_refl (a : Scored) : In a results -> localeCompare (nameOf a) (nameOf a) = 0%Z.
Proof.
  intros Ha. destruct (cc_refl _ _ names_consistent _ (name_in a Ha)) as [Hn Hp].
  apply isNeg_Fin_false in Hn. apply isPos_Fin_false in Hp.
  apply eq_IZR. lra.
Qed.

Lemma lc_sym (a b : Scored) : In a results -> In b results ->
  localeCompare (nameOf a) (nameOf b) = 0%Z -> localeCompare (nameOf b) (nameOf a) = 0%Z.
Proof.
  intros Ha Hb H.
  destruct (cc_sym _ _ names_consistent _ _ (name_in a Ha) (name_in b Hb)) as [Hn Hp].
  { split; [apply isNeg_Fin_false | apply isPos_Fin_false]; rewrite H; lra. }
  apply isNeg_Fin_false in Hn. apply isPos_Fin_false in Hp.
  apply eq_IZR. lra.
Qed.

Lemma lc_eq_trans (a b c : Scored) : In a results -> In b results -> In c results ->
  localeCompare (nameOf a) (nameOf b) = 0%Z -> localeCompare (nameOf b) (nameOf c) = 0%Z ->
  localeCompare (nameOf a) (nameOf c) = 0%Z.
Proof.
  intros Ha Hb Hc H1 H2.
  destruct (cc_eq_trans _ _ names_consistent _ _ _
              (name_in a Ha) (name_in b Hb) (name_in c Hc)) as [Hn Hp].
  { split; [apply isNeg_Fin_false | apply isPos_Fin_false]; rewrite H1; lra. }
  { split; [apply isNeg_Fin_false | apply isPos_Fin_false]; rewrite H2; lra. }
  apply isNeg_Fin_false in Hn. apply isPos_Fin_false in Hp.
  apply eq_IZR. lra.
Qed.

Lemma lc_lt_trans (a b c : Scored) : In a results -> In b results -> In c results ->
  (localeCompare (nameOf a) (nameOf b) < 0)%Z -> (localeCompare (nameOf b) (nameOf c) < 0)%Z ->
  (localeCompare (nameOf a) (nameOf c) < 0)%Z.
Proof.
  intros Ha Hb Hc H1 H2.
  pose proof (cc_lt_trans _ _ names_consistent _ _ _
                (name_in a Ha) (name_in b Hb) (name_in c Hc)) as H.
  unfold ltCF in H. rewrite !isNeg_Fin in H.
  apply lt_IZR. apply H; apply (IZR_lt _ 0); assumption.
Qed.

Lemma lc_gt_trans (a b c : Scored) : In a results -> In b results -> In c results ->
  (0 < localeCompare (nameOf a) (nameOf b))%Z -> (0 < localeCompare (nameOf b) (nameOf c))%Z ->
  (0 < localeCompare (nameOf a) (nameOf c))%Z.
Proof.
  intros Ha Hb Hc H1 H2.
  pose proof (cc_gt_trans _ _ names_consistent _ _ _
                (name_in a Ha) (name_in b Hb) (name_in c Hc)) as H.
  unfold gtCF in H. rewrite !isPos_Fin in H.
  apply lt_IZR. apply H; apply (IZR_lt 0); assumption.
Qed.

(** The sign of the comparator on two products with finite scores. *)
Lemma compareResults_lt_iff (p1 p2 : Product) (s1 s2 : R) (m1 m2 : nat) :
  ltCF (compareResults localeCompare) (mkScored p1 (Fin s1) m1) (mkScored p2 (Fin s2) m2) <->
  (0.01 < s1 - s2)%R \/
  ((-0.01 <= s1 - s2 <= 0.01)%R /\
   (m2 < m1 \/ (m1 = m2 /\ (localeCompare (name p1) (name p2) < 0)%Z))).
Proof.
  unfold ltCF. rewrite compareResults_Fin.
  destruct (Rlt_dec 0.01 (Rabs (s1 - s2))) as [Hfar|Hfar];
    unfold Rabs in Hfar; destruct (Rcase_abs (s1 - s2)).
  - rewrite isNeg_Fin. split; [lra | intros [H|[H _]]; lra].
  - rewrite isNeg_Fin. split; [lra | intros [H|[H _]]; lra].
  - destruct (Nat.eqb_spec m1 m2) as [Hm|Hm]; cbn [negb]; rewrite isNeg_Fin; split.
    + intros H. apply (lt_IZR _ 0) in H. right. split; [lra|]. right; auto.
    + intros [H|[_ [H|[_ H]]]]; [lra | lia | now apply (IZR_lt _ 0)].
    + intros H. apply (lt_IZR _ 0) in H. right. split; [lra|]. left; lia.
    + intros [H|[_ [H|[H _]]]]; [lra | apply (IZR_lt _ 0); lia | contradiction].
  - destruct (Nat.eqb_spec m1 m2) as [Hm|Hm]; cbn [negb]; rewrite isNeg_Fin; split.
    + intros H. apply (lt_IZR _ 0) in H. right. split; [lra|]. right; auto.
    + intros [H|[_ [H|[_ H]]]]; [lra | lia | now apply (IZR_lt _ 0)].
    + intros H. apply (lt_IZR _ 0) in H. right. split; [lra|]. left; lia.
    + intros [H|[_ [H|[H _]]]]; [lra | apply (IZR_lt _ 0); lia | contradiction].
Qed.

Lemma compareResults_gt_iff (p1 p2 : Product) (s1 s2 : R) (m1 m2 : nat) :
  gtCF (compareResults localeCompare) (mkScored p1 (Fin s1) m1) (mkScored p2 (Fin s2) m2) <->
  (0.01 < s2 - s1)%R \/
  ((-0.01 <= s1 - s2 <= 0.01)%R /\
   (m1 < m2 \/ (m1 = m2 /\ (0 < localeCompare (name p1) (name p2))%Z))).
Proof.
  unfold gtCF. rewrite compareResults_Fin.
  destruct (Rlt_dec 0.01 (Rabs (s1 - s2))) as [Hfar|Hfar];
    unfold Rabs in Hfar; destruct (Rcase_abs (s1 - s2)).
  - rewrite isPos_Fin. split; [lra | intros [H|[H _]]; lra].
  - rewrite isPos_Fin. split; [lra | intros [H|[H _]]; lra].
  - destruct (Nat.eqb_spec m1 m2) as [Hm|Hm]; cbn [negb]; rewrite isPos_Fin; split.
    + intros H. apply (lt_IZR 0) in H. right. split; [lra|]. right; auto.
    + intros [H|[_ [H|[_ H]]]]; [lra | lia | now apply (IZR_lt 0)].
    + intros H. apply (lt_IZR 0) in H. right. split; [lra|]. left; lia.
    + intros [H|[_ [H|[H _]]]]; [lra | apply (IZR_lt 0); lia | contradiction].
  - destruct (Nat.eqb_spec m1 m2) as [Hm|Hm]; cbn [negb]; rewrite isPos_Fin; split.
    + intros H. apply (lt_IZR 0) in H. right. split; [lra|]. right; auto.
    + intros [H|[_ [H|[_ H]]]]; [lra | lia | now apply (IZR_lt 0)].
    + intros H. apply (lt_IZR 0) in H. right. split; [lra|]. left; lia.
    + intros [H|[_ [H|[H _]]]]; [lra | apply (IZR_lt 0); lia | contradiction].
Qed.

Lemma compareResults_eq_iff (p1 p2 : Product) (s1 s2 : R) (m1 m2 : nat) :
  eqCF (compareResults localeCompare) (mkScored p1 (Fin s1) m1) (mkScored p2 (Fin s2) m2) <->
  (-0.01 <= s1 - s2 <= 0.01)%R /\ m1 = m2 /\
  localeCompare (name p1) (name p2) = 0%Z.
Proof.
  unfold eqCF. rewrite compareResults_Fin.
  destruct (Rlt_dec 0.01 (Rabs (s1 - s2))) as [Hfar|Hfar];
    unfold Rabs in Hfar; destruct (Rcase_abs (s1 - s2)).
  - rewrite isNeg_Fin_false, isPos_Fin_false. split; [lra | intros [H _]; lra].
  - rewrite isNeg_Fin_false, isPos_Fin_false. split; [lra | intros [H _]; lra].
  - destruct (Nat.eqb_spec m1 m2) as [Hm|Hm]; cbn [negb];
      rewrite isNeg_Fin_false, isPos_Fin_false; split.
    + intros [H1 H2]. apply (le_IZR 0) in H1. apply (le_IZR _ 0) in H2.
      repeat split; try lra; auto; lia.
    + intros (_ & _ & ->). lra.
    + intros [H1 H2]. apply (le_IZR 0) in H1. apply (le_IZR _ 0) in H2. lia.
    + intros (_ & H & _). contradiction.
  - destruct (Nat.eqb_spec m1 m2) as [Hm|Hm]; cbn [negb];
      rewrite isNeg_Fin_false, isPos_Fin_false; split.
    + intros [H1 H2]. apply (le_IZR 0) in H1. apply (le_IZR _ 0) in H2.
      repeat split; try lra; auto; lia.
    + intros (_ & _ & ->). lra.
    + intros [H1 H2]. apply (le_IZR 0) in H1. apply (le_IZR _ 0) in H2. lia.
    + intros (_ & H & _). contradiction.
Qed.

(** Transitivity of the near ties, on the scores. *)
Lemma tie_transitive_Fin (p1 p2 p3 : Product) (s1 s2 s3 : R) (m1 m2 m3 : nat) :
  In (mkScored p1 (Fin s1) m1) results ->
  In (mkScored p2 (Fin s2) m2) results ->
  In (mkScored p3 (Fin s3) m3) results ->
  (-0.01 <= s1 - s2 <= 0.01)%R -> (-0.01 <= s2 - s3 <= 0.01)%R ->
  (-0.01 <= s1 - s3 <= 0.01)%R.
Proof.
  intros H1 H2 H3 T12 T23.
  apply (nearTie_Fin p1 p3 s1 s3 m1 m3).
  apply (tie_transitive _ (mkScored p2 (Fin s2) m2)); auto;
    apply nearTie_Fin; assumption.
Qed.

Ltac expose a Ha :=
  let s := fresh "s" in let E := fresh "E" in
  let Ha' := fresh Ha in
  pose proof Ha as Ha';
  destruct (finite_scores a Ha) as [s E];
  destruct a as [? ? ?]; cbn [searchScore] in E; subst;
  unfold nameOf in *; cbn [product] in *.

Ltac use_ties :=
  repeat match goal with
         | H : (?P -> ?Q -> _) |- _ =>
             first [ specialize (H ltac:(lra) ltac:(lra)) | clear H ]
         end.

(** The comparator is consistent when the scores are finite, being within
    0.01 of each other is transitive among them, and [localeCompare] is
    consistent on the names. *)
Lemma compareResults_consistent :
  ConsistentComparator (compareResults localeCompare) results.
Proof.
  constructor.
  - intros a Ha. pose proof (lc_refl a Ha) as Hr. expose a Ha.
    apply compareResults_eq_iff. repeat split; auto; lra.
  - intros a b Ha Hb.
    pose proof (lc_sym a b Ha Hb) as Hs. expose a Ha. expose b Hb.
    rewrite !compareResults_eq_iff. intros (T & Hm & Hl).
    repeat split; auto; lra.
  - intros a b c Ha Hb Hc.
    pose proof (lc_eq_trans a b c Ha Hb Hc) as Hs.
    expose a Ha. expose b Hb. expose c Hc.
    pose proof (tie_transitive_Fin _ _ _ _ _ _ _ _ _ Ha Hb Hc) as Ht.
    rewrite !compareResults_eq_iff. intros (T1 & Hm1 & Hl1) (T2 & Hm2 & Hl2).
    repeat split; auto; try lia. 1,2: apply Ht; lra.
  - intros a b c Ha Hb Hc.
    pose proof (lc_lt_trans a b c Ha Hb Hc) as Hs.
    expose a Ha. expose b Hb. expose c Hc.
    pose proof (tie_transitive_Fin _ _ _ _ _ _ _ _ _ Ha Hb Hc) as Habc.
    pose proof (tie_transitive_Fin _ _ _ _ _ _ _ _ _ Ha Hc Hb) as Hacb.
    pose proof (tie_transitive_Fin _ _ _ _ _ _ _ _ _ Hb Ha Hc) as Hbac.
    rewrite !compareResults_lt_iff.
    intros [F1|(T1 & O1)] [F2|(T2 & O2)].
    + left; lra.
    + destruct (Rlt_dec 0.01 (s - s1)) as [F|F]; [left; exact F|].
      exfalso. use_ties. lra.
    + destruct (Rlt_dec 0.01 (s - s1)) as [F|F]; [left; exact F|].
      exfalso. use_ties. lra.
    + right. split; [apply Habc; assumption|].
      destruct O1 as [O1|[E1 L1]], O2 as [O2|[E2 L2]].
      * left; lia.
      * left; lia.
      * left; lia.
      * right; split; [lia | now apply Hs].
  - intros a b c Ha Hb Hc.
    pose proof (lc_gt_trans a b c Ha Hb Hc) as Hs.
    expose a Ha. expose b Hb. expose c Hc.
    pose proof (tie_transitive_Fin _ _ _ _ _ _ _ _ _ Ha Hb Hc) as Habc.
    pose proof (tie_transitive_Fin _ _ _ _ _ _ _ _ _ Ha Hc Hb) as Hacb.
    pose proof (tie_transitive_Fin _ _ _ _ _ _ _ _ _ Hb Ha Hc) as Hbac.
    rewrite !compareResults_gt_iff.
    intros [F1|(T1 & O1)] [F2|(T2 & O2)].
    + left; lra.
    + destruct (Rlt_dec 0.01 (s1 - s)) as [F|F]; [left; exact F|].
      exfalso. use_ties. lra.
    + destruct (Rlt_dec 0.01 (s1 - s)) as [F|F]; [left; exact F|].
      exfalso. use_ties. lra.
    + right. split; [apply Habc; assumption|].
      destruct O1 as [O1|[E1 L1]], O2 as [O2|[E2 L2]].
      * left; lia.
      * left; lia.
      * left; lia.
      * right; split; [lia | now apply Hs].
Qed.
End ComparatorConsistency.

(* ================================================================== *)
(** * A catalog on which the tie-break by name fails                   *)
(* ================================================================== *)

(** ** Bounds on [exp (-2)] and [ln 2] *)

Lemma exp_mult_nat (n : nat) (x : R) : exp (INR n * x) = (exp x ^ n)%R.
Proof.
  induction n as [|n IH].
  - cbn. rewrite Rmult_0_l. apply exp_0.
  - rewrite S_INR, Rmult_plus_distr_r, Rmult_1_l, exp_plus, IH. cbn. ring.
Qed.

Lemma exp_m2_lower : (0.1267 <= exp (-2))%R.
Proof.
  replace (-2)%R with (INR 32 * (- (1 / 16)))%R by (cbn; lra).
  rewrite exp_mult_nat.
  pose proof (exp_ineq1_le (- (1 / 16))) as H.
  apply Rle_trans with ((15 / 16) ^ 32)%R; [lra|].
  apply pow_incr. lra.
Qed.

Lemma exp_2_lower : (5.96 <= exp 2)%R.
Proof.
  replace 2%R with (INR 8 * (1 / 4))%R by (cbn; lra).
  rewrite exp_mult_nat.
  pose proof (exp_ineq1_le (1 / 4)) as H.
  apply Rle_trans with ((5 / 4) ^ 8)%R; [lra|].
  apply pow_incr. lra.
Qed.

Lemma exp_m2_upper : (exp (-2) <= 0.1678)%R.
Proof.
  replace (-2)%R with (Ropp 2) by lra. rewrite exp_Ropp.
  pose proof exp_2_lower as H.
  apply Rle_trans with (/ 5.96)%R; [|lra].
  apply Rinv_le_contravar; lra.
Qed.

Lemma ln_2_upper : (ln 2 <= 0.75)%R.
Proof.
  assert (H : (2 <= exp 0.75)%R).
  { replace 0.75%R with (INR 8 * (3 / 32))%R by (cbn; lra).
    rewrite exp_mult_nat.
    pose proof (exp_ineq1_le (3 / 32)) as H.
    apply Rle_trans with ((35 / 32) ^ 8)%R; [lra|].
    apply pow_incr. lra. }
  destruct (Rle_dec (ln 2) 0.75) as [Hle|Hgt]; [exact Hle|].
  exfalso. apply Rnot_le_lt in Hgt. apply exp_increasing in Hgt.
  rewrite exp_ln in Hgt; lra.
Qed.

Lemma ln_2_lower : (0.65 <= ln 2)%R.
Proof.
  assert (H : (exp 0.65 <= 2)%R).
  { assert (Hm : (0.5 <= exp (Ropp 0.65))%R).
    { replace (Ropp 0.65) with (INR 8 * (- (13 / 160)))%R by (cbn; lra).
      rewrite exp_mult_nat.
      pose proof (exp_ineq1_le (- (13 / 160))) as H.
      apply Rle_trans with ((147 / 160) ^ 8)%R; [lra|].
      apply pow_incr. lra. }
    rewrite exp_Ropp in Hm.
    pose proof (exp_pos 0.65) as Hp.
    apply Rmult_le_reg_r with (/ exp 0.65)%R; [now apply Rinv_0_lt_compat|].
    rewrite Rinv_r by lra. lra. }
  destruct (Rle_dec 0.65 (ln 2)) as [Hle|Hgt]; [exact Hle|].
  exfalso. apply Rnot_le_lt in Hgt. apply exp_increasing in Hgt.
  rewrite exp_ln in Hgt; lra.
Qed.

(** The constant that every final score of the example is a multiple of. *)
Lemma scale_bounds : (0.1689 <= exp (-2) / ln 2 <= 0.2582)%R.
Proof.
  pose proof exp_m2_lower. pose proof exp_m2_upper.
  pose proof ln_2_lower. pose proof ln_2_upper.
  assert (Hinv : (/ 0.75 <= / ln 2 <= / 0.65)%R)
    by (split; apply Rinv_le_contravar; lra).
  unfold Rdiv. split.
  - apply Rle_trans with (0.1267 * / 0.75)%R; [lra|].
    apply Rmult_le_compat; lra.
  - apply Rle_trans with (0.1678 * / 0.65)%R; [|lra].
    apply Rmult_le_compat; lra.
Qed.

(** ** The scores of the three products for the query "7" *)

Lemma Q2R_ofNat (n : nat) : Q2R (ofNat n) = INR n.
Proof.
  unfold ofNat, Q2R, inject_Z; cbn. rewrite INR_IZR_INZ. lra.
Qed.

(** A one-character query that shares no character with a text of [L]
    alphanumeric characters is at distance [L] of it, and its relevance is
    [exp (-2) * (1 + 0.2 / L)]. *)
Lemma relevance_of_full_distance (d : Q) (L : nat) :
  (1 <= L)%nat -> (d == ofNat L)%Q ->
  calculateRelevanceScore (Q2R d) L 1 = (exp (-2) * (1 + 0.2 / INR L))%R.
Proof.
  intros HL Hd. rewrite (Qeq_eqR _ _ Hd), Q2R_ofNat.
  assert (HposL : (1 <= INR L)%R) by (apply (le_INR 1); exact HL).
  unfold calculateRelevanceScore.
  destruct (Req_dec_T (INR L) 0) as [E|_]; [lra|].
  replace (Nat.max L 1) with L by lia.
  destruct (L =? 0)%nat eqn:E0; [apply Nat.eqb_eq in E0; lia|].
  replace (-2 * (INR L / INR L))%R with (-2)%R by (field; lra).
  replace (INR 1 / INR L * 0.2)%R with (0.2 / INR L)%R by (cbn; field; lra).
  apply Rmin_right.
  pose proof exp_m2_upper as Hup. pose proof (exp_pos (-2)) as Hp.
  assert (Hf : (0.2 / INR L <= 0.2)%R).
  { unfold Rdiv. rewrite <- (Rmult_1_r 0.2) at 2.
    apply Rmult_le_compat_l; [lra|].
    rewrite <- Rinv_1. apply Rinv_le_contravar; lra. }
  assert (Hf0 : (0 <= 0.2 / INR L)%R)
    by (apply Rmult_le_pos; [lra | left; apply Rinv_0_lt_compat; lra]).
  apply Rle_trans with (0.1678 * 1.2)%R; [|lra].
  apply Rmult_le_compat; lra.
Qed.

(** The total of a product with a name and a description only, when
    neither is cut into words, the name has at most 4 characters and the
    description more than 5. *)
Lemma total_plain_product (q n d pr : string) :
  split (toLowerCase n) = [toLowerCase n] ->
  (4 <? String.length (toLowerCase n))%nat = false ->
  split (toLowerCase d) = [toLowerCase d] ->
  (5 <? String.length (toLowerCase d))%nat = true ->
  (0 <? String.length d)%nat = true ->
  totalRelevanceScore (aggregate q (mkProduct n (Some d) pr None None None)) =
  (0 + wholeRelevance q n * 3 + partRelevance q (toLowerCase n) * 2
   + wholeRelevance q d * 1.5 + partRelevance q (toLowerCase d) * 0.5
   + partRelevance q
       (jsSubstring (toLowerCase d) 0 (String.length (toLowerCase d) / 2 + 2))
     * 0.1)%R.
Proof.
  intros Hn Hln Hd Hld Hd0.
  assert (H3 : (3 <? String.length (toLowerCase d))%nat = true).
  { apply Nat.ltb_lt in Hld. apply Nat.ltb_lt. lia. }
  unfold aggregate, scoreTags, scoreSku, scoreCategory, scoreDescription,
    scoreName, nameWordsOf, importantWordsOf.
  cbn [name description sku tags Category].
  rewrite Hn, Hd, Hd0. cbn [firstn fold_left].
  unfold nameWordStep, descWordStep. rewrite Hln, H3, Hld.
  repeat (rewrite ?total_addScore, ?total_countIfAbove).
  reflexivity.
Qed.

Lemma above_0 (r t : R) : (r <= t)%R -> above r t = 0%nat.
Proof.
  intros H. unfold above, Rltb. destruct (Rlt_dec t r); [lra | reflexivity].
Qed.

(** The match count of such a product is 0 if the relevance of its name
    is at most 0.3 and that of its description at most 0.2. *)
Lemma matchCount_plain_product (q n d pr : string) :
  split (toLowerCase d) = [toLowerCase d] ->
  (wholeRelevance q n <= 0.3)%R -> (wholeRelevance q d <= 0.2)%R ->
  (partRelevance q (toLowerCase d) <= 0.4)%R ->
  matchCount (aggregate q (mkProduct n (Some d) pr None None None)) = 0%nat.
Proof.
  intros Hd Hn Hw Hp. rewrite matchCount_aggregate. unfold matchesByProbe.
  cbn [name description sku tags Category]. unfold importantWordsOf.
  rewrite Hd. cbn [firstn]. unfold countedWords. cbn [filter].
  rewrite !above_0 by assumption.
  assert (E : Rltb 0.4 (partRelevance q (toLowerCase d)) = false)
    by (unfold Rltb; destruct (Rlt_dec _ _); [lra | reflexivity]).
  rewrite E, andb_false_r.
  destruct (0 <? String.length d)%nat; reflexivity.
Qed.

(** With no match and a query of one character, the final score is the
    total over [ln 2]. *)
Lemma calculateFinalScore_one_char (T : R) :
  (0 <= T)%R -> calculateFinalScore T 0 1 = Fin (T / ln 2)%R.
Proof.
  intros HT. unfold calculateFinalScore.
  replace (INR 1 + 1)%R with 2%R by (cbn; lra).
  replace (T * (1 + INR 0 * 0.1))%R with T by (cbn; lra).
  pose proof ln_2_lower as Hln.
  unfold jsDiv. destruct (Req_dec_T (ln 2) 0) as [E|_]; [lra|].
  cbn [Nat.ltb Nat.leb jsMax]. f_equal.
  apply Rmax_right. apply Rmult_le_pos; [exact HT|].
  left. apply Rinv_0_lt_compat. lra.
Qed.

Ltac full_distance :=
  match goal with
  | |- wholeRelevance _ _ = _ => unfold wholeRelevance, probe
  | |- partRelevance _ _ = _ => unfold partRelevance, probe
  end;
  apply relevance_of_full_distance; [cbn; lia | vm_compute; reflexivity].

(** The score of every product of the showroom is a multiple of
    [exp (-2) / ln 2]. *)
Lemma plain_product_score (n d pr : string) (Ld Ls : nat) :
  split (toLowerCase n) = [toLowerCase n] ->
  (4 <? String.length (toLowerCase n))%nat = false ->
  split (toLowerCase d) = [toLowerCase d] ->
  (5 <? String.length (toLowerCase d))%nat = true ->
  (0 <? String.length d)%nat = true ->
  wholeRelevance "7" n = (exp (-2) * (1 + 0.2 / INR 4))%R ->
  partRelevance "7" (toLowerCase n) = (exp (-2) * (1 + 0.2 / INR 4))%R ->
  wholeRelevance "7" d = (exp (-2) * (1 + 0.2 / INR Ld))%R ->
  partRelevance "7" (toLowerCase d) = (exp (-2) * (1 + 0.2 / INR Ld))%R ->
  partRelevance "7"
    (jsSubstring (toLowerCase d) 0 (String.length (toLowerCase d) / 2 + 2)) =
    (exp (-2) * (1 + 0.2 / INR Ls))%R ->
  (6 <= Ld)%nat -> (1 <= Ls)%nat ->
  scoreProduct "7" (mkProduct n (Some d) pr None None None) =
  Some (mkScored (mkProduct n (Some d) pr None None None)
          (Fin ((5.25 + 2 * (1 + 0.2 / INR Ld) + 0.1 * (1 + 0.2 / INR Ls))
                * (exp (-2) / ln 2))%R) 0).
Proof.
  intros Hn Hln Hd Hld Hd0 R1 R2 R3 R4 R5 HLd HLs.
  replace (INR 4) with 4%R in R1, R2 by (cbn; lra).
  pose proof exp_m2_upper as Hup. pose proof exp_m2_lower as Hlo.
  pose proof ln_2_lower as Hln2. pose proof scale_bounds as HK.
  assert (HLd' : (6 <= INR Ld)%R)
    by (pose proof (le_INR 6 Ld HLd) as H6; cbn in H6; lra).
  assert (HLs' : (1 <= INR Ls)%R) by (apply (le_INR 1); exact HLs).
  assert (Hd1 : (0 <= 0.2 / INR Ld <= 0.2 / 6)%R).
  { split; [apply Rmult_le_pos; [lra | left; apply Rinv_0_lt_compat; lra]|].
    unfold Rdiv. apply Rmult_le_compat_l; [lra|].
    apply Rinv_le_contravar; lra. }
  assert (Hs1 : (0 <= 0.2 / INR Ls <= 0.2)%R).
  { split; [apply Rmult_le_pos; [lra | left; apply Rinv_0_lt_compat; lra]|].
    unfold Rdiv. rewrite <- (Rmult_1_r 0.2) at 2.
    apply Rmult_le_compat_l; [lra|].
    rewrite <- Rinv_1. apply Rinv_le_contravar; lra. }
  unfold scoreProduct.
  rewrite (matchCount_plain_product "7" n d pr Hd).
  2:{ rewrite R1. nra. }
  2:{ rewrite R3. nra. }
  2:{ rewrite R4. nra. }
  rewrite (total_plain_product "7" n d pr Hn Hln Hd Hld Hd0).
  rewrite R1, R2, R3, R4, R5. cbn [String.length].
  rewrite calculateFinalScore_one_char by nra.
  match goal with
  | |- context [Fin (?t / ln 2)%R] =>
      replace (t / ln 2)%R
        with ((5.25 + 2 * (1 + 0.2 / INR Ld) + 0.1 * (1 + 0.2 / INR Ls))
              * (exp (-2) / ln 2))%R by (unfold Rdiv; lra)
  end.
  set (c := (5.25 + 2 * (1 + 0.2 / INR Ld) + 0.1 * (1 + 0.2 / INR Ls))%R).
  assert (Hc : (5 <= c)%R) by (subst c; lra).
  assert (Hkeep : jsGt (Fin (c * (exp (-2) / ln 2))%R) (Fin 0.1%R) = true).
  { cbn. unfold Rltb. destruct (Rlt_dec 0.1 (c * (exp (-2) / ln 2))) as [_|C];
      [reflexivity|]. exfalso; apply C. nra. }
  rewrite Hkeep. reflexivity.
Qed.

(** The final scores of the three products for the query "7". *)
Lemma vase_score :
  scoreProduct "7" vase =
  Some (mkScored vase
          (Fin ((5.25 + 2 * (1 + 0.2 / INR 6) + 0.1 * (1 + 0.2 / INR 5))
                * (exp (-2) / ln 2))%R) 0).
Proof.
  unfold vase.
  apply (plain_product_score "Vase" "sturdy" "24.00" 6 5);
    try reflexivity; try full_distance; lia.
Qed.

Lemma desk_score :
  scoreProduct "7" desk =
  Some (mkScored desk
          (Fin ((5.25 + 2 * (1 + 0.2 / INR 60) + 0.1 * (1 + 0.2 / INR 32))
                * (exp (-2) / ln 2))%R) 0).
Proof.
  unfold desk.
  apply (plain_product_score "Desk"
           "SolidOakWritingDeskWithTwoDrawersAndBuiltCableManagementTray"
           "180.00" 60 32);
    try reflexivity; try full_distance; lia.
Qed.

Lemma lamp_score :
  scoreProduct "7" lamp =
  Some (mkScored lamp
          (Fin ((5.25 + 2 * (1 + 0.2 / INR 10) + 0.1 * (1 + 0.2 / INR 7))
                * (exp (-2) / ln 2))%R) 0).
Proof.
  unfold lamp.
  apply (plain_product_score "Lamp" "adjustable" "35.00" 10 7);
    try reflexivity; try full_distance; lia.
Qed.

Lemma showroom_scores :
  scoreAll "7" showroom =
  [mkScored vase
     (Fin ((5.25 + 2 * (1 + 0.2 / INR 6) + 0.1 * (1 + 0.2 / INR 5))
           * (exp (-2) / ln 2))%R) 0;
   mkScored desk
     (Fin ((5.25 + 2 * (1 + 0.2 / INR 60) + 0.1 * (1 + 0.2 / INR 32))
           * (exp (-2) / ln 2))%R) 0;
   mkScored lamp
     (Fin ((5.25 + 2 * (1 + 0.2 / INR 10) + 0.1 * (1 + 0.2 / INR 7))
           * (exp (-2) / ln 2))%R) 0].
Proof.
  unfold scoreAll, showroom. cbn [flat_map].
  rewrite vase_score, desk_score, lamp_score. reflexivity.
Qed.

(** The comparator on two products with finite scores and the same match
    count. *)
Lemma compareResults_finite (localeCompare : string -> string -> Z)
    (p1 p2 : Product) (s1 s2 : R) (m : nat) :
  compareResults localeCompare (mkScored p1 (Fin s1) m) (mkScored p2 (Fin s2) m) =
  if Rlt_dec 0.01 (Rabs (s1 - s2)) then Fin (s2 - s1)%R
  else Fin (IZR (localeCompare (name p1) (name p2))).
Proof.
  unfold compareResults; cbn. unfold Rltb. rewrite Nat.eqb_refl.
  destruct (Rlt_dec 0.01 (Rabs (s1 - s2))); reflexivity.
Qed.

(** The sorted results for the query "7": the order of the catalog. *)
Lemma showroom_sorted :
  searchSmart (@v8SortShort) codeUnitCompare "7" None None showroom =
  scoreAll "7" showroom.
Proof.
  unfold searchSmart, applyPriceFilters, rankResults.
  rewrite showroom_scores.
  pose proof scale_bounds as HK. set (K := (exp (-2) / ln 2)%R) in *.
  unfold v8SortShort, countAndMakeRun.
  replace (INR 6) with 6%R by (cbn; lra).
  replace (INR 5) with 5%R by (cbn; lra).
  replace (INR 60) with 60%R by (rewrite INR_IZR_INZ; reflexivity).
  replace (INR 32) with 32%R by (rewrite INR_IZR_INZ; reflexivity).
  replace (INR 10) with 10%R by (rewrite INR_IZR_INZ; reflexivity).
  replace (INR 7) with 7%R by (rewrite INR_IZR_INZ; reflexivity).
  set (sv := ((5.25 + 2 * (1 + 0.2 / 6) + 0.1 * (1 + 0.2 / 5)) * K)%R).
  set (sd := ((5.25 + 2 * (1 + 0.2 / 60) + 0.1 * (1 + 0.2 / 32)) * K)%R).
  set (sl := ((5.25 + 2 * (1 + 0.2 / 10) + 0.1 * (1 + 0.2 / 7)) * K)%R).
  assert (H1 : isNeg (compareResults codeUnitCompare
                        (mkScored desk (Fin sd) 0) (mkScored vase (Fin sv) 0)) = false).
  { rewrite compareResults_finite.
    destruct (Rlt_dec 0.01 (Rabs (sd - sv))) as [_|C].
    - cbn. unfold Rltb. destruct (Rlt_dec (sv - sd) 0) as [C|_]; [|reflexivity].
      exfalso. subst sv sd. lra.
    - exfalso. apply C. unfold Rabs. destruct (Rcase_abs (sd - sv)); subst sv sd; lra. }
  assert (H2 : isNeg (compareResults codeUnitCompare
                        (mkScored lamp (Fin sl) 0) (mkScored desk (Fin sd) 0)) = false).
  { rewrite compareResults_finite.
    destruct (Rlt_dec 0.01 (Rabs (sl - sd))) as [C|_].
    - exfalso. unfold Rabs in C. destruct (Rcase_abs (sl - sd)); subst sl sd; lra.
    - cbn. unfold Rltb. destruct (Rlt_dec 1 0); [lra | reflexivity]. }
  rewrite H1. cbn [extendRun]. rewrite H2. reflexivity.
Qed.

(** ** The tie-break on the results of the route *)

(** Filtering keeps the relative positions. *)
Lemma filter_positions {A : Type} (f : A -> bool) (l : list A) :
  forall i j x y,
    nth_error (filter f l) i = Some x -> nth_error (filter f l) j = Some y ->
    exists i' j',
      nth_error l i' = Some x /\ nth_error l j' = Some y /\ (i' < j' -> i < j).
Proof.
  induction l as [|a l IH]; intros i j x y Hi Hj; cbn [filter] in *.
  - destruct i; cbn in Hi; discriminate.
  - destruct (f a).
    + destruct i as [|i], j as [|j]; cbn [nth_error] in *.
      * exists 0, 0. repeat split; auto; lia.
      * destruct (IH j j y y Hj Hj) as (j' & _ & Hj' & _ & _).
        exists 0, (S j'). repeat split; auto; lia.
      * destruct (IH i i x x Hi Hi) as (i' & _ & Hi' & _ & _).
        exists (S i'), 0. repeat split; auto; lia.
      * destruct (IH i j x y Hi Hj) as (i' & j' & Hi' & Hj' & Himp).
        exists (S i'), (S j'). repeat split; auto; lia.
    + destruct (IH i j x y Hi Hj) as (i' & j' & Hi' & Hj' & Himp).
      exists (S i'), (S j'). repeat split; auto; lia.
Qed.

Lemma nth_error_firstn_Some {A : Type} (n : nat) (l : list A) (i : nat) (x : A) :
  nth_error (firstn n l) i = Some x -> nth_error l i = Some x.
Proof.
  revert l i; induction n as [|n IH]; intros l i H.
  - cbn in H. destruct i; cbn in H; discriminate.
  - destruct l as [|a l]; cbn in H; [destruct i; cbn in H; discriminate|].
    destruct i as [|i]; cbn in *; auto.
Qed.

Lemma nameTieBreak_filter (localeCompare : string -> string -> Z)
    (f : Scored -> bool) (out : list Scored) :
  nameTieBreak localeCompare out -> nameTieBreak localeCompare (filter f out).
Proof.
  intros Hout i j x y Hi Hj Htie Hmc Hname.
  destruct (filter_positions f out i j x y Hi Hj) as (i' & j' & Hi' & Hj' & Himp).
  apply Himp. now apply (Hout i' j' x y).
Qed.

Lemma nameTieBreak_applyPriceFilters (localeCompare : string -> string -> Z)
    (minPrice maxPrice : option string) (out : list Scored) :
  nameTieBreak localeCompare out ->
  nameTieBreak localeCompare
    (applyPriceFilters (fun s => price (product s)) minPrice maxPrice out).
Proof.
  intros Hout. unfold applyPriceFilters.
  destruct minPrice as [m|], maxPrice as [m'|];
    repeat match goal with
           | |- context [falsy ?s] => destruct (falsy s)
           end;
    repeat apply nameTieBreak_filter; exact Hout.
Qed.

Lemma nameTieBreak_sliceResults (localeCompare : string -> string -> Z)
    (out : list Scored) :
  nameTieBreak localeCompare out ->
  nameTieBreak localeCompare (sliceResults out).
Proof.
  intros Hout i j x y Hi Hj. unfold sliceResults in *.
  apply nth_error_firstn_Some in Hi, Hj. now apply Hout.
Qed.

(** C8, as far as the code and the language ensure it: when the comparator
    is consistent on the kept products, which is the case in which
    ECMAScript fixes the result of the sort, any two products of the
    results with final scores within 0.01 of each other and the same match
    count appear with the smaller name first. *)
Theorem tie_break_by_name_when_consistent
    (sort : forall A : Type, (A -> A -> ext R) -> list A -> list A)
    (localeCompare : string -> string -> Z)
    (query : string) (minPrice maxPrice : option string)
    (allProducts : list Product) :
  SortContract sort ->
  ConsistentComparator (compareResults localeCompare) (scoreAll query allProducts) ->
  nameTieBreak localeCompare
    (sliceResults
       (searchSmart sort localeCompare query minPrice maxPrice allProducts)).
Proof.
  intros Hsort CC. unfold searchSmart.
  apply nameTieBreak_sliceResults, nameTieBreak_applyPriceFilters.
  now apply rankResults_tie_break.
Qed.

(** The final scores of the two products of the shelf for the query "7". *)
Lemma shelf_scores :
  scoreAll "7" shelf =
  [mkScored vase
     (Fin ((5.25 + 2 * (1 + 0.2 / INR 6) + 0.1 * (1 + 0.2 / INR 5))
           * (exp (-2) / ln 2))%R) 0;
   mkScored lamp
     (Fin ((5.25 + 2 * (1 + 0.2 / INR 10) + 0.1 * (1 + 0.2 / INR 7))
           * (exp (-2) / ln 2))%R) 0].
Proof.
  unfold scoreAll, shelf. cbn [flat_map].
  rewrite vase_score, lamp_score. reflexivity.
Qed.

(** The comparator is consistent on the two products of the shelf. *)
Lemma shelf_consistent :
  ConsistentComparator (compareResults codeUnitCompare) (scoreAll "7" shelf).
Proof.
  rewrite shelf_scores.
  pose proof scale_bounds as HK. set (K := (exp (-2) / ln 2)%R) in *.
  replace (INR 6) with 6%R by (cbn; lra).
  replace (INR 5) with 5%R by (cbn; lra).
  replace (INR 10) with 10%R by (rewrite INR_IZR_INZ; reflexivity).
  replace (INR 7) with 7%R by (rewrite INR_IZR_INZ; reflexivity).
  set (sv := ((5.25 + 2 * (1 + 0.2 / 6) + 0.1 * (1 + 0.2 / 5)) * K)%R).
  set (sl := ((5.25 + 2 * (1 + 0.2 / 10) + 0.1 * (1 + 0.2 / 7)) * K)%R).
  set (v := mkScored vase (Fin sv) 0). set (l := mkScored lamp (Fin sl) 0).
  assert (Tvl : ~ (0.01 < Rabs (sv - sl))%R)
    by (unfold Rabs; destruct (Rcase_abs (sv - sl)); subst sv sl; lra).
  assert (Tlv : ~ (0.01 < Rabs (sl - sv))%R)
    by (unfold Rabs; destruct (Rcase_abs (sl - sv)); subst sv sl; lra).
  assert (Tvv : ~ (0.01 < Rabs (sv - sv))%R)
    by (unfold Rabs; destruct (Rcase_abs (sv - sv)); lra).
  assert (Tll : ~ (0.01 < Rabs (sl - sl))%R)
    by (unfold Rabs; destruct (Rcase_abs (sl - sl)); lra).
  assert (Hvv : compareResults codeUnitCompare v v = Fin 0%R).
  { subst v. rewrite compareResults_finite.
    destruct (Rlt_dec 0.01 (Rabs (sv - sv))); [contradiction | reflexivity]. }
  assert (Hll : compareResults codeUnitCompare l l = Fin 0%R).
  { subst l. rewrite compareResults_finite.
    destruct (Rlt_dec 0.01 (Rabs (sl - sl))); [contradiction | reflexivity]. }
  assert (Hvl : compareResults codeUnitCompare v l = Fin 1%R).
  { subst v l. rewrite compareResults_finite.
    destruct (Rlt_dec 0.01 (Rabs (sv - sl))); [contradiction | reflexivity]. }
  assert (Hlv : compareResults codeUnitCompare l v = Fin (-1)%R).
  { subst v l. rewrite compareResults_finite.
    destruct (Rlt_dec 0.01 (Rabs (sl - sv))); [contradiction | reflexivity]. }
  assert (N0 : isNeg (Fin 0%R) = false)
    by (cbn; unfold Rltb; destruct (Rlt_dec 0 0); auto; lra).
  assert (P0 : isPos (Fin 0%R) = false)
    by (cbn; unfold Rltb; destruct (Rlt_dec 0 0); auto; lra).
  assert (N1 : isNeg (Fin 1%R) = false)
    by (cbn; unfold Rltb; destruct (Rlt_dec 1 0); auto; lra).
  assert (P1 : isPos (Fin 1%R) = true)
    by (cbn; unfold Rltb; destruct (Rlt_dec 0 1); auto; lra).
  assert (Nm : isNeg (Fin (-1)%R) = true)
    by (cbn; unfold Rltb; destruct (Rlt_dec (-1) 0); auto; lra).
  assert (Pm : isPos (Fin (-1)%R) = false)
    by (cbn; unfold Rltb; destruct (Rlt_dec 0 (-1)); auto; lra).
  constructor; unfold eqCF, ltCF, gtCF; intros;
    repeat match goal with
           | H : In _ (_ :: _) |- _ => destruct H as [<-|H]
           | H : In _ [] |- _ => destruct H
           end;
    rewrite ?Hvv, ?Hll, ?Hvl, ?Hlv, ?N0, ?P0, ?N1, ?P1, ?Nm, ?Pm in *;
    intuition congruence.
Qed.

Lemma tie_break_by_name_witness :
  nameTieBreak codeUnitCompare
    (sliceResults
       (searchSmart (@v8SortShort) codeUnitCompare "7" None None shelf)).
Proof.
  apply tie_break_by_name_when_consistent.
  - exact v8SortShort_contract.
  - exact shelf_consistent.
Defined.

(** Counterexample to C8 as stated: for the query "7" the lamp and the
    vase have final scores within 0.01 of each other and the same match
    count, "Lamp" is the smaller name, and the vase comes first in the
    results. *)
Lemma showroom_results_break_name_order :
  ~ nameTieBreak codeUnitCompare
      (sliceResults
         (searchSmart (@v8SortShort) codeUnitCompare "7" None None showroom)).
Proof.
  rewrite showroom_sorted, showroom_scores. intros Hclaim.
  specialize (Hclaim 2%nat 0%nat _ _ eq_refl eq_refl).
  pose proof scale_bounds as HK. set (K := (exp (-2) / ln 2)%R) in *.
  replace (INR 6) with 6%R in Hclaim by (cbn; lra).
  replace (INR 5) with 5%R in Hclaim by (cbn; lra).
  replace (INR 10) with 10%R in Hclaim by (rewrite INR_IZR_INZ; reflexivity).
  replace (INR 7) with 7%R in Hclaim by (rewrite INR_IZR_INZ; reflexivity).
  assert (Htie : (-0.01 <=
                  (5.25 + 2 * (1 + 0.2 / 10) + 0.1 * (1 + 0.2 / 7)) * K
                  - (5.25 + 2 * (1 + 0.2 / 6) + 0.1 * (1 + 0.2 / 5)) * K
                  <= 0.01)%R) by lra.
  apply (nearTie_Fin lamp vase _ _ 0 0) in Htie.
  specialize (Hclaim Htie eq_refl eq_refl). lia.
Qed.

(* ================================================================== *)
(** * Further properties of the edit distance                          *)
(* ================================================================== *)

Lemma length_toLowerCase (s : string) :
  String.length (toLowerCase s) = String.length s.
Proof. induction s as [|c s IH]; cbn; congruence. Qed.

Lemma length_substring (s : string) (n m : nat) :
  n + m <= String.length s -> String.length (substring n m s) = m.
Proof.
  revert n m. induction s as [|c s IH]; intros n m H; cbn in H.
  - assert (n = 0) by lia; assert (m = 0) by lia; subst. reflexivity.
  - destruct n as [|n]; cbn.
    + destruct m as [|m]; cbn; [reflexivity|]. f_equal. apply IH. lia.
    + apply IH. lia.
Qed.

Lemma positionDistance_nonneg (st : keyPos * keyPos) :
  (0 <= positionDistance st)%Z.
Proof. destruct st as [[[r1 c1]|] [[r2 c2]|]]; cbn; lia. Qed.

Lemma getKeyboardDistance_nonneg (c1 c2 : ascii) :
  (0 <= getKeyboardDistance c1 c2)%Z.
Proof. apply positionDistance_nonneg. Qed.

Lemma Qle_plus_nonneg (a b c : Q) : (a <= b -> 0 <= c -> a <= b + c)%Q.
Proof.
  intros Hab Hc. apply Qle_trans with (b + 0)%Q.
  - now rewrite Qplus_0_r.
  - apply Qplus_le_compat; [apply Qle_refl | exact Hc].
Qed.

Lemma phoneticRule_nonneg (sub1 sub2 : string) (cost : Q) (g : string * string) :
  (0 <= cost)%Q -> (0 <= phoneticRule sub1 sub2 cost g)%Q.
Proof.
  intros H. destruct g as [p1 p2]. unfold phoneticRule.
  assert (H8 : (0 <= cost * 0.8)%Q)
    by (apply Qmult_le_0_compat; [assumption | discriminate]).
  assert (H88 : (0 <= cost * 0.8 * 0.8)%Q)
    by (apply Qmult_le_0_compat; [assumption | discriminate]).
  destruct (includes sub1 p1 && includes sub2 p2),
           (includes sub2 p1 && includes sub1 p2); assumption.
Qed.

Lemma phoneticChar_nonneg (cost : Q) (cc : ascii * ascii) :
  (0 <= cost)%Q -> (0 <= phoneticChar cost cc)%Q.
Proof.
  intros H. destruct cc as [c1 c2]. unfold phoneticChar.
  assert (Hk : (0 <= inject_Z (getKeyboardDistance c1 c2) * 0.1)%Q).
  { apply Qmult_le_0_compat; [|discriminate].
    change 0%Q with (inject_Z 0). rewrite <- Zle_Qle.
    apply getKeyboardDistance_nonneg. }
  assert (H9 : (0 <= cost * 0.9)%Q)
    by (apply Qmult_le_0_compat; [assumption | discriminate]).
  destruct (isVowel c1 && isVowel c2); now apply Qle_plus_nonneg.
Qed.

Lemma fold_left_nonneg {X : Type} (step : Q -> X -> Q) (xs : list X) :
  (forall cost x, (0 <= cost)%Q -> (0 <= step cost x)%Q) ->
  forall cost, (0 <= cost)%Q -> (0 <= fold_left step xs cost)%Q.
Proof.
  intros Hstep. induction xs as [|x xs IH]; intros cost H; cbn; auto.
Qed.

(** The phonetic estimate is never negative. *)
Lemma getPhoneticSimilarity_nonneg (sub1 sub2 : string) :
  (0 <= getPhoneticSimilarity sub1 sub2)%Q.
Proof.
  unfold getPhoneticSimilarity.
  destruct (falsy sub1 || falsy sub2); [discriminate|].
  apply fold_left_nonneg; [apply phoneticChar_nonneg|].
  apply fold_left_nonneg; [apply phoneticRule_nonneg|].
  apply Qabs_nonneg.
Qed.

Lemma cellCost_nonneg s1 s2 i j : (0 <= cellCost s1 s2 i j)%Q.
Proof. unfold cellCost. destruct (charEq _ _); discriminate. Qed.

(** A lower bound of every candidate of a cell is a lower bound of the
    cell. *)
Lemma cellValue_glb s1 s2 (m : Matrix) (i j : nat) (g : Q) :
  (g <= mget m (i - 1) j + 1)%Q ->
  (g <= mget m i (j - 1) + 1)%Q ->
  (g <= mget m (i - 1) (j - 1) + cellCost s1 s2 i j)%Q ->
  (transposed s1 s2 i j = true ->
   g <= mget m (i - 2) (j - 2) + cellCost s1 s2 i j)%Q ->
  (phoneticCell i j = true ->
   g <= mget m (i - 3) (j - 3)
        + getPhoneticSimilarity (jsSubstring s1 (i - 3) i)
                                (jsSubstring s2 (j - 3) j))%Q ->
  (g <= cellValue s1 s2 m i j)%Q.
Proof.
  intros H1 H2 H3 H4 H5. unfold cellValue.
  assert (H0 : (g <= min3 (mget m (i - 1) j + 1) (mget m i (j - 1) + 1)
                       (mget m (i - 1) (j - 1) + cellCost s1 s2 i j))%Q)
    by (unfold min3; repeat apply Q.min_glb; assumption).
  destruct (transposed s1 s2 i j), (phoneticCell i j);
    repeat apply Q.min_glb; auto.
Qed.

Lemma ofNat_plus (n k : nat) : (ofNat (n + k) == ofNat n + ofNat k)%Q.
Proof.
  unfold ofNat. rewrite Nat2Z.inj_add. now rewrite inject_Z_plus.
Qed.

Lemma ofNat_nonneg (n : nat) : (0 <= ofNat n)%Q.
Proof. change 0%Q with (ofNat 0). apply ofNat_le. lia. Qed.

Section FilledLowerBound.
Variables s1 s2 : string.
Let len1 := String.length s1.
Let len2 := String.length s2.

(** No cell is below the difference of its two indices: the steps that
    cost less than 1 all move along a diagonal. *)
Lemma Filled_gap (m : Matrix) :
  Filled s1 s2 m ->
  forall n i j, i + j <= n -> i <= len1 -> j <= len2 ->
    (ofNat (Nat.max i j - Nat.min i j) <= mget m i j)%Q.
Proof.
  intros Hm; induction n as [|n IH]; intros i j Hn Hi Hj.
  - assert (i = 0) by lia; assert (j = 0) by lia; subst.
    rewrite (fu_col0 _ _ _ _ _ Hm) by lia. apply Qle_refl.
  - destruct i as [|i].
    { rewrite (fu_row0 _ _ _ _ _ Hm) by (fold len2; lia).
      apply ofNat_le. lia. }
    destruct j as [|j].
    { rewrite (fu_col0 _ _ _ _ _ Hm) by (fold len1; lia).
      apply ofNat_le. lia. }
    rewrite (Filled_cell s1 s2) by (auto; fold len1 len2; lia).
    apply cellValue_glb.
    + apply Qle_trans
        with (ofNat (S (Nat.max (S i - 1) (S j) - Nat.min (S i - 1) (S j)))).
      * apply ofNat_le. lia.
      * rewrite ofNat_S.
        apply Qplus_le_compat; [apply IH; lia | apply Qle_refl].
    + apply Qle_trans
        with (ofNat (S (Nat.max (S i) (S j - 1) - Nat.min (S i) (S j - 1)))).
      * apply ofNat_le. lia.
      * rewrite ofNat_S.
        apply Qplus_le_compat; [apply IH; lia | apply Qle_refl].
    + apply Qle_plus_nonneg; [|apply cellCost_nonneg].
      eapply Qle_trans; [|apply IH; lia]. apply ofNat_le. lia.
    + intros Ht. unfold transposed in Ht.
      apply andb_prop in Ht as [Ht _]. apply andb_prop in Ht as [Ht _].
      apply andb_prop in Ht as [Ha Hb].
      apply Nat.ltb_lt in Ha. apply Nat.ltb_lt in Hb.
      apply Qle_plus_nonneg; [|apply cellCost_nonneg].
      eapply Qle_trans; [|apply IH; lia]. apply ofNat_le. lia.
    + intros Hp. unfold phoneticCell in Hp.
      apply andb_prop in Hp as [Hp Hb]. apply andb_prop in Hp as [_ Ha].
      apply Nat.ltb_lt in Ha. apply Nat.ltb_lt in Hb.
      apply Qle_plus_nonneg; [|apply getPhoneticSimilarity_nonneg].
      eapply Qle_trans; [|apply IH; lia]. apply ofNat_le. lia.
Qed.

(** The cell [(i, i)] is at most the number of positions below [i] at
    which the two strings differ. *)
Lemma Filled_diagonal (m : Matrix) :
  Filled s1 s2 m ->
  forall i, i <= len1 -> i <= len2 ->
    (mget m i i <= ofNat (List.length (filter (differ s1 s2) (seq 0 i))))%Q.
Proof.
  intros Hm; induction i as [|i IH]; intros Hi Hj.
  - rewrite (fu_col0 _ _ _ _ _ Hm) by lia. apply Qle_refl.
  - rewrite (Filled_cell s1 s2) by (auto; fold len1 len2; lia).
    eapply Qle_trans; [apply cellValue_le_substitution|].
    replace (S i - 1) with i by lia.
    rewrite seq_S, filter_app, length_app, ofNat_plus.
    apply Qplus_le_compat; [apply IH; lia|].
    unfold cellCost. replace (S i - 1) with i by lia.
    cbn [filter Nat.add]. unfold differ.
    destruct (charEq (get i s1) (get i s2)); cbn; apply Qle_refl.
Qed.
End FilledLowerBound.

Lemma variantDistance_ge_gap (s1 s2 : string) :
  (ofNat (lengthGap s1 s2) <= variantDistance s1 s2)%Q.
Proof.
  unfold variantDistance, lengthGap.
  eapply Filled_gap; eauto using fillMatrix_Filled.
Qed.

Lemma variantDistance_nonneg (s1 s2 : string) : (0 <= variantDistance s1 s2)%Q.
Proof.
  eapply Qle_trans; [apply ofNat_nonneg | apply variantDistance_ge_gap].
Qed.

Lemma variantDistance_le_mismatches (s1 s2 : string) :
  String.length s1 = String.length s2 ->
  (variantDistance s1 s2 <= ofNat (mismatches s1 s2))%Q.
Proof.
  intros Hlen. unfold variantDistance, mismatches.
  pose proof (Filled_diagonal s1 s2 _ (fillMatrix_Filled s1 s2)
                (String.length s1)) as H.
  rewrite <- Hlen at 2. apply H; lia.
Qed.

Lemma charEq_refl (x : option ascii) : charEq x x = true.
Proof. destruct x as [a|]; cbn; auto using Ascii.eqb_refl. Qed.

Lemma mismatches_same (s : string) : mismatches s s = 0.
Proof.
  unfold mismatches.
  rewrite (filter_none (differ s s)); [reflexivity|].
  intros k. unfold differ. now rewrite charEq_refl.
Qed.

Lemma variantDistance_same (s : string) : (variantDistance s s == 0)%Q.
Proof.
  apply Qle_antisym; [|apply variantDistance_nonneg].
  eapply Qle_trans; [now apply variantDistance_le_mismatches|].
  rewrite mismatches_same. apply Qle_refl.
Qed.

Lemma distance_nonneg (a b : string) :
  (0 <= calculateLevenshteinDistance a b)%Q.
Proof.
  rewrite calculateLevenshteinDistance_unfold.
  destruct (falsy a || falsy b); [apply ofNat_nonneg|].
  destruct (String.eqb a b); [apply Qle_refl|].
  repeat apply Q.min_glb; apply variantDistance_nonneg.
Qed.



Lemma toLowerCase_empty (s : string) :
  toLowerCase s = EmptyString -> s = EmptyString.
Proof. destruct s; [reflexivity | discriminate]. Qed.

Lemma distance_zero_of_variant (a b : string) :
  falsy a = false -> falsy b = false ->
  (variantDistance (toLowerCase a) (toLowerCase b) == 0 \/
   variantDistance (stripNonAlnum a) (stripNonAlnum b) == 0)%Q ->
  (calculateLevenshteinDistance a b == 0)%Q.
Proof.
  intros Ha Hb H. apply Qle_antisym; [|apply distance_nonneg].
  rewrite calculateLevenshteinDistance_unfold, Ha, Hb. cbn [orb].
  destruct (String.eqb a b); [apply Qle_refl|].
  destruct H as [H|H].
  - eapply Qle_trans; [apply Q.le_min_l|].
    eapply Qle_trans; [apply Q.le_min_r|]. rewrite H. apply Qle_refl.
  - eapply Qle_trans; [apply Q.le_min_r|]. rewrite H. apply Qle_refl.
Qed.

(** X2: two strings that are equal up to the case of their letters are at
    distance 0, and so are two non-empty strings that are equal once
    their non-alphanumeric characters are removed. *)
Theorem distance_zero_up_to_case_or_punctuation (a b : string) :
  toLowerCase a = toLowerCase b \/
  (falsy a = false /\ falsy b = false /\ stripNonAlnum a = stripNonAlnum b) ->
  (calculateLevenshteinDistance a b == 0)%Q.
Proof.
  intros [H | (Ha & Hb & H)].
  - destruct a as [|x a].
    { symmetry in H. apply toLowerCase_empty in H. now subst. }
    destruct b as [|y b]; [discriminate|].
    apply distance_zero_of_variant; auto.
    left. rewrite H. apply variantDistance_same.
  - apply distance_zero_of_variant; auto.
    right. rewrite H. apply variantDistance_same.
Qed.

Lemma distance_zero_up_to_case_or_punctuation_witness :
  (calculateLevenshteinDistance "USB-C" "usb-c" == 0)%Q /\
  (calculateLevenshteinDistance "usb-c" "u.s.b. c" == 0)%Q.
Proof.
  split.
  - apply distance_zero_up_to_case_or_punctuation. left. reflexivity.
  - apply distance_zero_up_to_case_or_punctuation. right.
    repeat split; reflexivity.
Defined.






(* ================================================================== *)
(** * Properties of the keyboard distance and of the phonetic estimate *)
(* ================================================================== *)










Lemma phoneticRule_zero (sub1 sub2 : string) (cost : Q) (g : string * string) :
  (cost == 0)%Q -> (phoneticRule sub1 sub2 cost g == 0)%Q.
Proof.
  intros H. destruct g as [p1 p2]. unfold phoneticRule.
  destruct (includes sub1 p1 && includes sub2 p2),
           (includes sub2 p1 && includes sub1 p2);
    rewrite H; reflexivity.
Qed.

Lemma phoneticRules_zero (sub1 sub2 : string) (gs : list (string * string))
    (cost : Q) :
  (cost == 0)%Q -> (fold_left (phoneticRule sub1 sub2) gs cost == 0)%Q.
Proof.
  revert cost. induction gs as [|g gs IH]; intros cost H; cbn; auto.
  apply IH. now apply phoneticRule_zero.
Qed.

Lemma phoneticChars_compat (l : list (ascii * ascii)) (c c' : Q) :
  (c == c')%Q -> (fold_left phoneticChar l c == fold_left phoneticChar l c')%Q.
Proof.
  revert c c'. induction l as [|[x y] l IH]; intros c c' H; cbn [fold_left]; auto.
  apply IH. unfold phoneticChar.
  destruct (isVowel x && isVowel y); rewrite H; reflexivity.
Qed.

(** On two substrings of the same length the loop over the phonetic
    groups multiplies a cost of 0: only the character loop counts. *)
Lemma getPhoneticSimilarity_same_length (sub1 sub2 : string) :
  falsy sub1 = false -> String.length sub1 = String.length sub2 ->
  (getPhoneticSimilarity sub1 sub2 ==
   fold_left phoneticChar
     (combine (list_ascii_of_string sub1) (list_ascii_of_string sub2)) 0)%Q.
Proof.
  intros H1 Hlen. unfold getPhoneticSimilarity.
  assert (H2 : falsy sub2 = false) by (destruct sub1, sub2; discriminate || reflexivity).
  rewrite H1, H2. cbn [orb].
  apply phoneticChars_compat, phoneticRules_zero.
  rewrite Hlen. unfold Qminus. rewrite Qplus_opp_r. reflexivity.
Qed.

(** X5: where the distance calls the phonetic estimate, the two windows
    have three characters each, so the phonetic groups have no effect:
    the estimate is what the character loop computes from a cost of 0. *)
Theorem phonetic_groups_idle_in_distance (s1 s2 : string) (i j : nat) :
  phoneticCell i j = true ->
  i <= String.length s1 -> j <= String.length s2 ->
  String.length (jsSubstring s1 (i - 3) i) = 3 /\
  String.length (jsSubstring s2 (j - 3) j) = 3 /\
  (getPhoneticSimilarity (jsSubstring s1 (i - 3) i) (jsSubstring s2 (j - 3) j) ==
   fold_left phoneticChar
     (combine (list_ascii_of_string (jsSubstring s1 (i - 3) i))
              (list_ascii_of_string (jsSubstring s2 (j - 3) j))) 0)%Q.
Proof.
  intros Hp Hi Hj. unfold phoneticCell in Hp.
  apply andb_prop in Hp as [Hp Hb]. apply andb_prop in Hp as [_ Ha].
  apply Nat.ltb_lt in Ha. apply Nat.ltb_lt in Hb.
  assert (L1 : String.length (jsSubstring s1 (i - 3) i) = 3).
  { unfold jsSubstring. replace (i - (i - 3)) with 3 by lia.
    apply length_substring. lia. }
  assert (L2 : String.length (jsSubstring s2 (j - 3) j) = 3).
  { unfold jsSubstring. replace (j - (j - 3)) with 3 by lia.
    apply length_substring. lia. }
  repeat split; auto.
  apply getPhoneticSimilarity_same_length; [|congruence].
  destruct (jsSubstring s1 (i - 3) i); [discriminate | reflexivity].
Qed.

Lemma phonetic_groups_idle_in_distance_witness :
  String.length (jsSubstring "phone" (3 - 3) 3) = 3 /\
  String.length (jsSubstring "fones" (3 - 3) 3) = 3 /\
  (getPhoneticSimilarity (jsSubstring "phone" (3 - 3) 3) (jsSubstring "fones" (3 - 3) 3) ==
   fold_left phoneticChar
     (combine (list_ascii_of_string (jsSubstring "phone" (3 - 3) 3))
              (list_ascii_of_string (jsSubstring "fones" (3 - 3) 3))) 0)%Q.
Proof.
  apply (phonetic_groups_idle_in_distance "phone" "fones" 3 3);
    [reflexivity | cbn; lia | cbn; lia].
Defined.

(* ================================================================== *)
(** * Further properties of the relevance and of the final score       *)
(* ================================================================== *)


Lemma ln_succ_pos (queryLength : nat) :
  1 <= queryLength -> (0 < ln (INR queryLength + 1))%R.
Proof.
  intros H. apply (le_INR 1) in H. cbn in H.
  rewrite <- ln_1. apply ln_increasing; lra.
Qed.

(** The final score of a non-empty query, in closed form. *)
Lemma calculateFinalScore_nonempty (totalScore : R) (matchCount queryLength : nat) :
  1 <= queryLength ->
  calculateFinalScore totalScore matchCount queryLength =
  Fin (Rmax 0 (totalScore * (1 + INR matchCount * 0.1)
               / ln (INR queryLength + 1)
               * (if 2 <? matchCount then 1.2 else 1))).
Proof.
  intros H. pose proof (ln_succ_pos _ H) as Hln.
  unfold calculateFinalScore, jsDiv.
  destruct (Req_dec_T (ln (INR queryLength + 1)) 0) as [E|_]; [lra|].
  destruct (2 <? matchCount); cbn [jsMul jsMax]; [reflexivity|].
  now rewrite Rmult_1_r.
Qed.

(** X7: for a non-empty query the final score is a finite number that is
    not negative: the total, times the match multiplier, over
    [ln (queryLength + 1)], times 1.2 above two matches, clamped at 0. *)
Theorem finalScore_of_nonempty_query (totalScore : R)
    (matchCount queryLength : nat) :
  1 <= queryLength ->
  exists x : R,
    calculateFinalScore totalScore matchCount queryLength = Fin x /\
    (0 <= x)%R /\
    x = Rmax 0 (totalScore * (1 + INR matchCount * 0.1)
                / ln (INR queryLength + 1)
                * (if 2 <? matchCount then 1.2 else 1)).
Proof.
  intros H. eexists. split; [now apply calculateFinalScore_nonempty|].
  split; [apply Rmax_l | reflexivity].
Qed.

Lemma finalScore_of_nonempty_query_witness :
  exists x : R,
    calculateFinalScore 4 3 6 = Fin x /\
    (0 <= x)%R /\
    x = Rmax 0 (4 * (1 + INR 3 * 0.1) / ln (INR 6 + 1)
                * (if 2 <? 3 then 1.2 else 1)).
Proof. apply (finalScore_of_nonempty_query 4 3 6). lia. Defined.

Lemma boost_le (m1 m2 : nat) :
  m1 <= m2 ->
  ((if 2 <? m1 then 1.2 else 1) <= (if 2 <? m2 then 1.2 else 1))%R.
Proof.
  intros H. destruct (2 <? m1) eqn:E1, (2 <? m2) eqn:E2; try lra.
  apply Nat.ltb_lt in E1. apply Nat.ltb_ge in E2. lia.
Qed.

(** X8: for non-empty queries and totals that are not negative, the
    final score does not decrease when the total grows, when the match
    count grows, or when the query gets shorter. *)
Theorem finalScore_monotone (t1 t2 : R) (m1 m2 q1 q2 : nat) :
  (0 <= t1 <= t2)%R -> m1 <= m2 -> 1 <= q2 <= q1 ->
  jsLe (calculateFinalScore t1 m1 q1) (calculateFinalScore t2 m2 q2) = true.
Proof.
  intros [H0 Ht] Hm [Hq2 Hq].
  rewrite !calculateFinalScore_nonempty by lia.
  cbn [jsLe extLeb]. unfold Rleb.
  destruct (Rle_dec _ _) as [|Hn]; [reflexivity|]. exfalso. apply Hn.
  apply Rle_max_compat_l.
  pose proof (ln_succ_pos q1 ltac:(lia)) as Hl1.
  pose proof (ln_succ_pos q2 Hq2) as Hl2.
  assert (Hln : (ln (INR q2 + 1) <= ln (INR q1 + 1))%R).
  { apply le_INR in Hq. destruct Hq as [Hlt|Heq].
    - left. apply ln_increasing; [|lra].
      apply (le_INR 1) in Hq2. cbn in Hq2. lra.
    - right. now rewrite Heq. }
  assert (Hinv : (/ ln (INR q1 + 1) <= / ln (INR q2 + 1))%R)
    by (apply Rinv_le_contravar; assumption).
  assert (Hmm : (1 + INR m1 * 0.1 <= 1 + INR m2 * 0.1)%R)
    by (apply le_INR in Hm; lra).
  assert (Hm0 : (0 <= INR m1)%R) by apply pos_INR.
  pose proof (boost_le m1 m2 Hm) as Hb.
  assert (Hb0 : (0 <= if 2 <? m1 then 1.2 else 1)%R)
    by (destruct (2 <? m1); lra).
  assert (Hi0 : (0 <= / ln (INR q1 + 1))%R)
    by (left; now apply Rinv_0_lt_compat).
  unfold Rdiv.
  repeat apply Rmult_le_compat; try assumption; try lra.
  - repeat apply Rmult_le_pos; try assumption; lra.
  - apply Rmult_le_pos; lra.
Qed.

Lemma finalScore_monotone_witness :
  jsLe (calculateFinalScore 1 0 9) (calculateFinalScore 2 3 5) = true.
Proof. apply finalScore_monotone; [lra | lia | lia]. Defined.

(** X9: the verification of the final score never finds a mismatch, for
    finite scores as for [Infinity] and [NaN]: the warning is never
    logged. *)
Theorem verification_never_reports_a_mismatch (totalRelevanceScore : R)
    (matchCount queryLength : nat) :
  verificationMismatch totalRelevanceScore matchCount queryLength = false.
Proof.
  unfold verificationMismatch, scoreMismatch.
  destruct (calculateFinalScore totalRelevanceScore matchCount queryLength)
    as [| | |x]; cbn; try reflexivity.
  unfold Rltb. destruct (Rlt_dec _ _) as [H|]; [|reflexivity].
  exfalso. rewrite Rminus_diag, Rabs_R0 in H. lra.
Qed.

(* ================================================================== *)
(** * Further properties of the aggregation over the fields            *)
(* ================================================================== *)

Lemma above_le_1 (r t : R) : above r t <= 1.
Proof. unfold above. destruct (Rltb t r); lia. Qed.

Lemma filter_length_le {A : Type} (f : A -> bool) (l : list A) :
  List.length (filter f l) <= List.length l.
Proof.
  induction l as [|x l IH]; cbn; [lia|]. destruct (f x); cbn; lia.
Qed.

Lemma countedWords_importantWords (query d : string) :
  countedWords query (importantWordsOf d) <= 5.
Proof.
  unfold countedWords, importantWordsOf.
  eapply Nat.le_trans; [apply filter_length_le|].
  apply firstn_le_length.
Qed.

(** X10: the match count of a product is at most 9 plus the number of its
    tags: one for the name, at most six for the description (the whole
    text and its first five words), one for the category and one for the
    SKU. *)
Theorem matchCount_upper_bound (query : string) (p : Product) :
  matchCount (aggregate query p)
  <= 9 + match tags p with Some ts => List.length ts | None => 0 end.
Proof.
  rewrite matchCount_aggregate. unfold matchesByProbe.
  pose proof (above_le_1 (wholeRelevance query (name p)) 0.3) as Hn.
  assert (Hd : match description p with
               | Some d =>
                   if 0 <? String.length d
                   then above (wholeRelevance query d) 0.2
                        + countedWords query (importantWordsOf d)
                   else 0
               | None => 0
               end <= 6).
  { destruct (description p) as [d|]; [|lia].
    destruct (0 <? String.length d); [|lia].
    pose proof (above_le_1 (wholeRelevance query d) 0.2).
    pose proof (countedWords_importantWords query d). lia. }
  assert (Hc : match Category p with
               | Some c =>
                   if falsy (categoryName c) then 0
                   else above (wholeRelevance query (categoryName c)) 0.3
               | None => 0
               end <= 1).
  { destruct (Category p) as [c|]; [|lia].
    destruct (falsy (categoryName c)); [lia | apply above_le_1]. }
  assert (Hs : match sku p with
               | Some s => if falsy s then 0 else above (wholeRelevance query s) 0.4
               | None => 0
               end <= 1).
  { destruct (sku p) as [s|]; [|lia].
    destruct (falsy s); [lia | apply above_le_1]. }
  assert (Ht : match tags p with
               | Some ts => countedTags query ts
               | None => 0
               end <= match tags p with Some ts => List.length ts | None => 0 end).
  { destruct (tags p) as [ts|]; [|lia]. apply filter_length_le. }
  lia.
Qed.

Lemma scoreProduct_matched (query : string) (p : Product) :
  1 <= matchCount (aggregate query p) ->
  exists s, scoreProduct query p = Some s /\ product s = p /\
            1 <= scoredMatchCount s.
Proof.
  intros H. unfold scoreProduct.
  assert (E : (0 <? matchCount (aggregate query p)) = true)
    by (apply Nat.ltb_lt; lia).
  rewrite E, orb_true_r. eexists. repeat split. exact H.
Qed.

(** X11: a product whose name is the query, up to the case of the letters
    and to white space around, is kept by the smart search whatever its
    final score, with a match count of 1 at least. *)
Theorem exact_name_match_is_kept (query : string) (p : Product) :
  trim (toLowerCase query) = trim (toLowerCase (name p)) ->
  exists s, scoreProduct query p = Some s /\ product s = p /\
            1 <= scoredMatchCount s.
Proof.
  intros H. apply scoreProduct_matched.
  rewrite matchCount_aggregate. unfold matchesByProbe.
  assert (E : wholeRelevance query (name p) = 1%R)
    by (unfold wholeRelevance; rewrite H; apply probe_same).
  rewrite E, above_1 by lra. lia.
Qed.

Lemma exact_name_match_is_kept_witness :
  exists s, scoreProduct " LAPTOP stand " laptopStand = Some s /\
            product s = laptopStand /\ 1 <= scoredMatchCount s.
Proof. apply exact_name_match_is_kept. reflexivity. Defined.

(** ** The relevance filter on queries of ordinary length *)

Lemma length_trimStart (s : string) :
  String.length (trimStart s) <= String.length s.
Proof.
  induction s as [|c s IH]; cbn; [lia|]. destruct (isWhite c); cbn; lia.
Qed.

Lemma length_trimEnd (s : string) :
  String.length (trimEnd s) <= String.length s.
Proof.
  induction s as [|c s IH]; cbn; [lia|].
  destruct (trimEnd s); [destruct (isWhite c)|]; cbn in *; lia.
Qed.

Lemma length_trim (s : string) : String.length (trim s) <= String.length s.
Proof.
  unfold trim. eapply Nat.le_trans; [apply length_trimEnd | apply length_trimStart].
Qed.

Lemma distance_le_longer (a b : string) :
  (calculateLevenshteinDistance a b
   <= ofNat (Nat.max (String.length a) (String.length b)))%Q.
Proof.
  rewrite calculateLevenshteinDistance_unfold.
  destruct (falsy a || falsy b); [apply Qle_refl|].
  destruct (String.eqb a b); [apply ofNat_nonneg|].
  eapply Qle_trans; [apply Q.le_min_l|].
  eapply Qle_trans; [apply Q.le_min_l|].
  apply variantDistance_le.
Qed.

Lemma Q2R_distance_bounds (q t : string) (n : nat) :
  Nat.max (String.length q) (String.length t) <= n ->
  (0 <= Q2R (calculateLevenshteinDistance q t) <= INR n)%R.
Proof.
  intros H. split.
  - rewrite <- RMicromega.Q2R_0. apply Qle_Rle, distance_nonneg.
  - rewrite <- Q2R_ofNat. apply Qle_Rle.
    eapply Qle_trans; [apply distance_le_longer | now apply ofNat_le].
Qed.

(** A distance that does not exceed the longer length leaves a relevance
    of [exp (-2)] at least. *)
Lemma relevance_ge_exp_m2 (d : R) (L Qn : nat) :
  (0 <= d <= INR (Nat.max L Qn))%R ->
  (exp (-2) <= calculateRelevanceScore d L Qn)%R.
Proof.
  intros [H0 Hd]. pose proof exp_m2_upper as Hup.
  unfold calculateRelevanceScore.
  destruct (Req_dec_T d 0) as [E|N]; [lra|].
  destruct (Nat.max L Qn =? 0) eqn:Hmax.
  { apply Nat.eqb_eq in Hmax. rewrite Hmax in Hd. cbn in Hd. lra. }
  pose proof (INR_max_pos _ _ Hmax) as Hpos.
  apply Rmin_glb; [lra|].
  assert (Hb : (0 <= INR Qn / INR (Nat.max L Qn))%R)
    by (apply Rmult_le_pos; [apply pos_INR | left; now apply Rinv_0_lt_compat]).
  assert (Hn : (d / INR (Nat.max L Qn) <= 1)%R).
  { apply Rmult_le_reg_r with (INR (Nat.max L Qn)); [assumption|].
    unfold Rdiv. rewrite Rmult_assoc, Rinv_l by lra. lra. }
  assert (He : (exp (-2) <= exp (-2 * (d / INR (Nat.max L Qn))))%R)
    by (apply exp_le; lra).
  pose proof (exp_pos (-2 * (d / INR (Nat.max L Qn)))) as Hp.
  apply Rle_trans with (exp (-2 * (d / INR (Nat.max L Qn))) * 1)%R; [lra|].
  apply Rmult_le_compat_l; lra.
Qed.

Lemma wholeRelevance_ge (query text : string) :
  (exp (-2) <= wholeRelevance query text)%R.
Proof.
  unfold wholeRelevance, probe. apply relevance_ge_exp_m2.
  apply Q2R_distance_bounds.
  pose proof (length_trim (toLowerCase query)).
  pose proof (length_trim (toLowerCase text)).
  rewrite length_toLowerCase in *. lia.
Qed.

Lemma partRelevance_ge (query part : string) :
  (exp (-2) <= partRelevance query part)%R.
Proof.
  unfold partRelevance, probe. apply relevance_ge_exp_m2.
  apply Q2R_distance_bounds. rewrite length_toLowerCase. lia.
Qed.

Lemma split_cons (s : string) : exists w ws, split s = w :: ws.
Proof. unfold split. destruct (splitAux false s) as [w ws]. eauto. Qed.

Lemma total_nameWordStep_ge (query : string) (st : Agg) (w : string) :
  (totalRelevanceScore st + partRelevance query w * 2
   <= totalRelevanceScore (nameWordStep query st w))%R.
Proof.
  unfold nameWordStep. destruct (4 <? String.length w).
  - eapply Rle_trans; [|apply fold_total_le; apply total_nameSubstringStep].
    rewrite total_addScore. lra.
  - rewrite total_addScore. lra.
Qed.

(** The name alone brings the total to [5 * exp (-2)]: three times the
    relevance of the name and twice that of its first word. *)
Lemma total_ge_floor (query : string) (p : Product) :
  (5 * exp (-2) <= totalRelevanceScore (aggregate query p))%R.
Proof.
  unfold aggregate.
  eapply Rle_trans; [|apply total_scoreTags].
  eapply Rle_trans; [|apply total_scoreSku].
  eapply Rle_trans; [|apply total_scoreCategory].
  eapply Rle_trans; [|apply total_scoreDescription].
  unfold scoreName, nameWordsOf.
  destruct (split_cons (toLowerCase (name p))) as (w & ws & ->).
  cbn [fold_left].
  eapply Rle_trans; [|apply fold_total_le; apply total_nameWordStep].
  eapply Rle_trans; [|apply total_nameWordStep_ge].
  rewrite total_countIfAbove, total_addScore. cbn [totalRelevanceScore].
  pose proof (wholeRelevance_ge query (name p)).
  pose proof (partRelevance_ge query w). lra.
Qed.

Lemma ln_128_upper : (ln 128 <= 5.25)%R.
Proof.
  replace 128%R with (2 ^ 7)%R by (cbn; lra).
  rewrite ln_pow by lra. pose proof ln_2_upper. cbn [INR]. lra.
Qed.

Lemma ln_succ_upper (queryLength : nat) :
  queryLength <= 127 -> (ln (INR queryLength + 1) <= 5.25)%R.
Proof.
  intros H. eapply Rle_trans; [|apply ln_128_upper].
  apply le_INR in H. pose proof (pos_INR queryLength) as H0.
  replace (INR 127) with 127%R in H by (cbn; lra).
  destruct (Req_dec_T (INR queryLength + 1) 128) as [->|N]; [lra|].
  left. apply ln_increasing; lra.
Qed.

Lemma scoreProduct_kept (query : string) (p : Product) :
  String.length query <= 127 ->
  scoreProduct query p <> None.
Proof.
  intros Hq. unfold scoreProduct.
  pose proof (total_ge_floor query p) as Ht.
  pose proof exp_m2_lower as He.
  set (st := aggregate query p) in *.
  assert (Hfinal : jsGt (calculateFinalScore (totalRelevanceScore st)
                           (matchCount st) (String.length query))
                        (Fin 0.1%R) = true).
  { destruct (String.length query) as [|n] eqn:En.
    - rewrite calculateFinalScore_zero_length.
      destruct (Rlt_dec 0 (totalRelevanceScore st)); [reflexivity | lra].
    - rewrite calculateFinalScore_nonempty by lia.
      pose proof (ln_succ_pos (S n) ltac:(lia)) as Hl0.
      pose proof (ln_succ_upper (S n) Hq) as Hl.
      cbn [jsGt extLtb]. unfold Rltb.
      destruct (Rlt_dec _ _) as [|Hn]; [reflexivity|]. exfalso. apply Hn.
      eapply Rlt_le_trans; [|apply Rmax_r].
      assert (Hinv : (/ 5.25 <= / ln (INR (S n) + 1))%R)
        by (apply Rinv_le_contravar; assumption).
      pose proof (pos_INR (matchCount st)) as Hm.
      assert (HA : (0.6335 <= totalRelevanceScore st * (1 + INR (matchCount st) * 0.1))%R).
      { apply Rle_trans with (totalRelevanceScore st * 1)%R; [lra|].
        apply Rmult_le_compat_l; lra. }
      assert (HB : (0.6335 * / 5.25
                    <= totalRelevanceScore st * (1 + INR (matchCount st) * 0.1)
                       / ln (INR (S n) + 1))%R)
        by (unfold Rdiv; apply Rmult_le_compat; lra).
      assert (Hb : (1 <= if 2 <? matchCount st then 1.2 else 1)%R)
        by (destruct (2 <? matchCount st); lra).
      apply Rlt_le_trans with (0.6335 * / 5.25 * 1)%R; [lra|].
      apply Rmult_le_compat; lra. }
  rewrite Hfinal. discriminate.
Qed.

Lemma scoreAll_keeps_all (query : string) (allProducts : list Product) :
  String.length query <= 127 ->
  map product (scoreAll query allProducts) = allProducts.
Proof.
  intros Hq. unfold scoreAll.
  induction allProducts as [|p l IH]; [reflexivity|].
  cbn [flat_map]. pose proof (scoreProduct_kept query p Hq) as Hk.
  destruct (scoreProduct query p) as [s|] eqn:E; [|contradiction].
  cbn [app map]. rewrite IH. f_equal.
  unfold scoreProduct in E.
  destruct (_ || _); [|discriminate]. now inversion E.
Qed.



(* ================================================================== *)
(** * Properties of the search route as a whole                        *)
(* ================================================================== *)

Lemma evens_below (n : nat) :
  2 * List.length (filter Nat.even (seq 0 n))
  = n + (if Nat.even n then 0 else 1).
Proof.
  induction n as [|n IH]; [reflexivity|].
  rewrite seq_S, filter_app, length_app. cbn [filter Nat.add].
  rewrite Nat.even_succ. unfold Nat.odd.
  destruct (Nat.even n); cbn [List.length negb]; lia.
Qed.

Lemma flat_map_length_le {A B : Type} (f : A -> list B) (k : nat) (l : list A) :
  (forall x, In x l -> List.length (f x) <= k) ->
  List.length (flat_map f l) <= k * List.length l.
Proof.
  induction l as [|x l IH]; intros H; cbn [flat_map List.length]; [lia|].
  rewrite length_app.
  pose proof (H x (or_introl eq_refl)).
  assert (List.length (flat_map f l) <= k * List.length l)
    by (apply IH; intros y Hy; apply H; now right).
  lia.
Qed.

(** X13: the substrings of a name word that the search probes have
    between 3 and 5 characters, and there are at most three of them for
    every second character of the word. *)
Theorem nameSubstrings_bounded (nameWord : string) :
  Forall (fun s => 3 <= String.length s <= 5) (nameSubstrings nameWord) /\
  2 * List.length (nameSubstrings nameWord)
  <= 3 * (String.length nameWord - 1).
Proof.
  unfold nameSubstrings. split.
  - apply Forall_forall. intros s Hs.
    apply in_flat_map in Hs as (i & Hi & Hs).
    apply filter_In in Hi as [Hi _]. apply in_seq in Hi.
    apply in_map_iff in Hs as (j & <- & Hj). apply in_seq in Hj.
    unfold jsSubstring. rewrite length_substring; lia.
  - match goal with
    | |- 2 * List.length (flat_map ?f ?l) <= _ =>
        assert (H : List.length (flat_map f l) <= 3 * List.length l)
    end.
    { apply flat_map_length_le. intros i Hi.
      rewrite length_map, length_seq. lia. }
    pose proof (evens_below (String.length nameWord - 2)) as He.
    destruct (Nat.even (String.length nameWord - 2)); lia.
Qed.

Lemma filter_true {A : Type} (l : list A) : filter (fun _ => true) l = l.
Proof. induction l as [|x l IH]; cbn; congruence. Qed.

Lemma filter_filter {A : Type} (f g : A -> bool) (l : list A) :
  filter g (filter f l) = filter (fun x => f x && g x) l.
Proof.
  induction l as [|x l IH]; cbn; [reflexivity|].
  destruct (f x); cbn; [destruct (g x)|]; congruence.
Qed.

(** The two filters of the route are one filter by [withinPriceBounds]. *)
Lemma applyPriceFilters_filter {A : Type} (priceOf : A -> string)
    (minPrice maxPrice : option string) (results : list A) :
  applyPriceFilters priceOf minPrice maxPrice results =
  filter (fun x => withinPriceBounds minPrice maxPrice (priceOf x)) results.
Proof.
  unfold applyPriceFilters, withinPriceBounds.
  destruct minPrice as [lo|], maxPrice as [hi|];
    try destruct (falsy lo); try destruct (falsy hi); cbn [orb andb];
    rewrite ?filter_filter, ?filter_true; try reflexivity;
    apply filter_ext; intros x; now rewrite ?andb_true_r.
Qed.

Lemma Permutation_filter' {A : Type} (f : A -> bool) (l l' : list A) :
  Permutation l l' -> Permutation (filter f l) (filter f l').
Proof.
  induction 1 as [|x l l' _ IH|x y l|l l' l'' _ IH1 _ IH2]; cbn.
  - constructor.
  - destruct (f x); auto.
  - destruct (f x), (f y); auto using perm_swap.
  - eauto using Permutation_trans.
Qed.

(** X14: the ranking neither loses nor invents a result: the results of
    the smart search are, in some order, the kept products whose price
    passes the bounds. *)
Theorem smart_results_are_kept_products_in_range
    (sort : forall A : Type, (A -> A -> ext R) -> list A -> list A)
    (localeCompare : string -> string -> Z)
    (query : string) (minPrice maxPrice : option string)
    (allProducts : list Product) :
  SortContract sort ->
  Permutation
    (filter (fun s => withinPriceBounds minPrice maxPrice (price (product s)))
       (scoreAll query allProducts))
    (searchSmart sort localeCompare query minPrice maxPrice allProducts).
Proof.
  intros Hsort. unfold searchSmart, rankResults.
  rewrite applyPriceFilters_filter.
  apply Permutation_filter'. apply Hsort.
Qed.

Lemma smart_results_are_kept_products_in_range_witness :
  Permutation
    (filter (fun s => withinPriceBounds (Some "30") None (price (product s)))
       (scoreAll "lamp" showroom))
    (searchSmart (@v8SortShort) codeUnitCompare "lamp" (Some "30") None showroom).
Proof.
  apply smart_results_are_kept_products_in_range.
  exact v8SortShort_contract.
Defined.

Lemma scoreAll_length (query : string) (allProducts : list Product) :
  List.length (scoreAll query allProducts) <= List.length allProducts.
Proof.
  unfold scoreAll. induction allProducts as [|p l IH]; cbn [flat_map List.length]; [lia|].
  rewrite length_app. destruct (scoreProduct query p); cbn [List.length]; lia.
Qed.

Lemma respond_counts {A : Type} (smart : bool) (results : list A)
    (allProducts : list Product) :
  List.length (respResults (respond smart results allProducts))
  = Nat.min 50 (respCount (respond smart results allProducts)).
Proof.
  cbn [respond respResults respCount]. unfold sliceResults.
  apply length_firstn.
Qed.

(** X15: in the response of the smart search the array [results] holds
    the first 50 results, [count] is the number of results before that
    cut and never exceeds [totalProducts], and [comparisons] is five
    times [totalProducts]. *)
Theorem smart_response_counts
    (sort : forall A : Type, (A -> A -> ext R) -> list A -> list A)
    (localeCompare : string -> string -> Z)
    (query : string) (minPrice maxPrice : option string)
    (allProducts : list Product) :
  SortContract sort ->
  let r := smartSearchResponse sort localeCompare query minPrice maxPrice
             allProducts in
  List.length (respResults r) = Nat.min 50 (respCount r) /\
  respCount r <= respTotalProducts r /\
  respTotalProducts r = List.length allProducts /\
  respComparisons r = respTotalProducts r * 5.
Proof.
  intros Hsort r. subst r. unfold smartSearchResponse.
  split; [apply respond_counts|]. split; [|split; reflexivity].
  cbn [respond respCount respTotalProducts].
  unfold searchSmart, rankResults. rewrite applyPriceFilters_filter.
  eapply Nat.le_trans; [apply filter_length_le|].
  rewrite <- (Permutation_length (proj1 (Hsort _ (compareResults localeCompare)
                                           (scoreAll query allProducts)))).
  apply scoreAll_length.
Qed.

Lemma smart_response_counts_witness :
  let r := smartSearchResponse (@v8SortShort) codeUnitCompare "lamp"
             (Some "30") None showroom in
  List.length (respResults r) = Nat.min 50 (respCount r) /\
  respCount r <= respTotalProducts r /\
  respTotalProducts r = List.length showroom /\
  respComparisons r = respTotalProducts r * 5.
Proof.
  apply (smart_response_counts (@v8SortShort) codeUnitCompare "lamp"
           (Some "30") None showroom).
  exact v8SortShort_contract.
Defined.

(** ** The order of the results *)

Lemma rankedBefore_filter (before : Scored -> Scored -> Prop)
    (f : Scored -> bool) (out : list Scored) :
  rankedBefore before out -> rankedBefore before (filter f out).
Proof.
  intros H i j x y Hx Hy Hb.
  destruct (filter_positions f out i j x y Hx Hy) as (i' & j' & Hx' & Hy' & Hij).
  apply Hij. eapply H; eauto.
Qed.

Lemma rankedBefore_sliceResults (before : Scored -> Scored -> Prop)
    (out : list Scored) :
  rankedBefore before out -> rankedBefore before (sliceResults out).
Proof.
  intros H i j x y Hx Hy Hb. unfold sliceResults in *.
  apply nth_error_firstn_Some in Hx. apply nth_error_firstn_Some in Hy.
  eapply H; eauto.
Qed.





(** ** The simple mode and the price bounds *)







(* ================================================================== *)
(** * Properties of the reconnect strategy and of the order total      *)
(* ================================================================== *)

(** X19: the reconnect strategy waits 100 ms per retry for the first ten
    retries and gives up from the eleventh on; the wait never exceeds
    1000 ms, so the cap of 3000 ms is never applied. *)
Theorem reconnect_delay_never_capped (retries : nat) :
  reconnectStrategy retries =
  (if retries <=? 10 then RetryAfter (retries * 100)
   else GiveUp "Redis reconnection limit exceeded") /\
  (forall ms, reconnectStrategy retries = RetryAfter ms -> ms <= 1000).
Proof.
  unfold reconnectStrategy.
  destruct (10 <? retries) eqn:E.
  - apply Nat.ltb_lt in E.
    assert (E' : (retries <=? 10) = false) by (apply Nat.leb_gt; lia).
    rewrite E'. split; [reflexivity | discriminate].
  - apply Nat.ltb_ge in E.
    assert (E' : (retries <=? 10) = true) by (apply Nat.leb_le; lia).
    rewrite E'. split.
    + f_equal. lia.
    + intros ms H. inversion H. lia.
Qed.

Lemma orderLines_spec (findByPk : string -> option Product)
    (items : list OrderLine) :
  forall (totalAmount : ext Q) (orderItems : list OrderItemRow)
         (total : ext Q) (rows : list OrderItemRow),
    orderLines findByPk items totalAmount orderItems = inr (total, rows) ->
    exists added,
      rows = (orderItems ++ added)%list /\
      total = sumSubtotals totalAmount added /\
      map rowProductId added = map lineProductId items /\
      map rowQuantity added = map lineQuantity items /\
      Forall (fun r =>
                (exists product, findByPk (rowProductId r) = Some product /\
                                 rowPrice r = price product) /\
                rowSubtotal r = extMulQ (parseFloat (rowPrice r)) (rowQuantity r))
             added.
Proof.
  induction items as [|item rest IH]; intros totalAmount orderItems total rows H;
    cbn [orderLines] in H.
  - inversion H; subst. exists []. rewrite app_nil_r.
    repeat split; constructor.
  - destruct (findByPk (lineProductId item)) as [product|] eqn:E; [|discriminate].
    apply IH in H as (added & -> & -> & Hid & Hq & Hall).
    eexists (_ :: added). rewrite <- app_assoc. cbn [app].
    split; [reflexivity|]. split; [reflexivity|].
    cbn [map rowProductId rowQuantity]. rewrite Hid, Hq.
    repeat split. constructor; [|exact Hall].
    cbn [rowProductId rowPrice rowSubtotal rowQuantity]. split; eauto.
Qed.

(** X20: when the loop over the items of a new order ends, the total is
    the sum of the subtotals of the order items, there is one order item
    for each item of the request, in order and with its product
    identifier and quantity, and each subtotal is the price of the
    product found for it times the quantity. *)
Theorem order_total_is_sum_of_subtotals
    (findByPk : string -> option Product) (items : list OrderLine)
    (total : ext Q) (rows : list OrderItemRow) :
  orderTotal findByPk items = inr (total, rows) ->
  total = sumSubtotals (Fin 0%Q) rows /\
  map rowProductId rows = map lineProductId items /\
  map rowQuantity rows = map lineQuantity items /\
  Forall (fun r =>
            (exists product, findByPk (rowProductId r) = Some product /\
                             rowPrice r = price product) /\
            rowSubtotal r = extMulQ (parseFloat (rowPrice r)) (rowQuantity r))
         rows.
Proof.
  intros H. apply orderLines_spec in H as (added & -> & -> & Hid & Hq & Hall).
  cbn [app]. auto.
Qed.

Lemma order_total_is_sum_of_subtotals_witness :
  exists total rows,
    orderTotal (fun id => if String.eqb id "p1" then Some cable else None)
      [mkOrderLine "p1" 2; mkOrderLine "p1" 0.5] = inr (total, rows) /\
    (total = sumSubtotals (Fin 0%Q) rows /\
     map rowProductId rows
     = map lineProductId [mkOrderLine "p1" 2; mkOrderLine "p1" 0.5] /\
     map rowQuantity rows
     = map lineQuantity [mkOrderLine "p1" 2; mkOrderLine "p1" 0.5] /\
     Forall (fun r =>
               (exists product,
                   (if String.eqb (rowProductId r) "p1" then Some cable else None)
                   = Some product /\
                   rowPrice r = price product) /\
               rowSubtotal r = extMulQ (parseFloat (rowPrice r)) (rowQuantity r))
            rows).
Proof.
  eexists _, _. split; [reflexivity|].
  apply (order_total_is_sum_of_subtotals
           (fun id => if String.eqb id "p1" then Some cable else None)
           [mkOrderLine "p1" 2; mkOrderLine "p1" 0.5]).
  reflexivity.
Defined.

Lemma orderLines_missing (findByPk : string -> option Product)
    (items : list OrderLine) :
  forall (totalAmount : ext Q) (orderItems : list OrderItemRow) (id : string),
    orderLines findByPk items totalAmount orderItems = inl id <->
    exists before item after,
      items = (before ++ item :: after)%list /\
      Forall (fun x => findByPk (lineProductId x) <> None) before /\
      findByPk (lineProductId item) = None /\
      id = lineProductId item.
Proof.
  induction items as [|item rest IH]; intros totalAmount orderItems id;
    cbn [orderLines].
  - split; [discriminate|].
    intros (before & x & after & H & _). destruct before; discriminate.
  - destruct (findByPk (lineProductId item)) as [product|] eqn:E.
    + rewrite IH. split.
      * intros (before & x & after & -> & Hb & Hx & ->).
        exists (item :: before), x, after. repeat split; auto.
        constructor; [congruence | exact Hb].
      * intros (before & x & after & H & Hb & Hx & ->).
        destruct before as [|y before]; cbn in H; inversion H; subst.
        { congruence. }
        exists before, x, after. repeat split; auto.
        now inversion Hb.
    + split.
      * intros H. inversion H; subst.
        exists [], item, rest. repeat split; auto.
      * intros (before & x & after & H & Hb & Hx & ->).
        destruct before as [|y before]; cbn in H; inversion H; subst.
        { reflexivity. }
        inversion Hb; subst. contradiction.
Qed.

(** X21: the loop over the items of a new order ends with "Product ...
    not found" exactly when a product of the request is missing, and the
    identifier in the answer is that of the first item whose product is
    missing. *)
Theorem order_rejected_at_first_missing_product
    (findByPk : string -> option Product) (items : list OrderLine)
    (id : string) :
  orderTotal findByPk items = inl id <->
  exists before item after,
    items = (before ++ item :: after)%list /\
    Forall (fun x => findByPk (lineProductId x) <> None) before /\
    findByPk (lineProductId item) = None /\
    id = lineProductId item.
Proof. apply orderLines_missing. Qed.

(* ================================================================== *)
(** * The earlier search: the bubble sort and the character count      *)
(* ================================================================== *)

Lemma nth_error_middle {A : Type} (pre : list A) (c : A) (rest : list A) :
  nth_error (pre ++ c :: rest) (List.length pre) = Some c.
Proof. induction pre as [|x pre IH]; cbn; auto. Qed.

Lemma upd_middle {A : Type} (pre : list A) (c x : A) (rest : list A) :
  upd (pre ++ c :: rest) (List.length pre) x = pre ++ x :: rest.
Proof. induction pre as [|y pre IH]; cbn; congruence. Qed.

(** From position [j] on, the inner loop is the recursion that carries
    the element at [j]. *)
Lemma bubbleStep_fold (rest : list SlowScored) :
  forall (pre : list SlowScored) (c : SlowScored),
    fold_left bubbleStep (seq (List.length pre) (List.length rest))
      (pre ++ c :: rest)
    = pre ++ bubbleFrom c rest.
Proof.
  induction rest as [|b r IH]; intros pre c; [reflexivity|].
  cbn [List.length seq fold_left bubbleFrom]. unfold bubbleStep at 2.
  rewrite nth_error_middle.
  replace (pre ++ c :: b :: r) with ((pre ++ [c]) ++ b :: r) at 1
    by (now rewrite <- app_assoc).
  replace (List.length pre + 1) with (List.length (pre ++ [c]))
    by (rewrite length_app; reflexivity).
  rewrite nth_error_middle.
  destruct (Qltb (slowSearchScore c) (slowSearchScore b)).
  - rewrite upd_middle.
    replace (pre ++ b :: b :: r) with ((pre ++ [b]) ++ b :: r)
      by (now rewrite <- app_assoc).
    replace (List.length (pre ++ [c])) with (List.length (pre ++ [b]))
      by (rewrite !length_app; reflexivity).
    rewrite upd_middle.
    replace (S (List.length pre)) with (List.length (pre ++ [b]))
      by (rewrite length_app; cbn; lia).
    rewrite IH. now rewrite <- app_assoc.
  - replace (S (List.length pre)) with (List.length (pre ++ [c]))
      by (rewrite length_app; cbn; lia).
    replace (pre ++ c :: b :: r) with ((pre ++ [c]) ++ b :: r)
      by (now rewrite <- app_assoc).
    rewrite IH. now rewrite <- app_assoc.
Qed.

Lemma bubblePass_cons (a : SlowScored) (l : list SlowScored) :
  bubblePass (a :: l) = bubbleFrom a l.
Proof.
  unfold bubblePass.
  replace (List.length (a :: l) - 1) with (List.length l) by (cbn; lia).
  apply (bubbleStep_fold l [] a).
Qed.

Lemma bubbleFrom_perm (l : list SlowScored) :
  forall c, Permutation (c :: l) (bubbleFrom c l).
Proof.
  induction l as [|b r IH]; intros c; cbn [bubbleFrom]; [reflexivity|].
  destruct (Qltb (slowSearchScore c) (slowSearchScore b)).
  - rewrite perm_swap. constructor. apply IH.
  - constructor. apply IH.
Qed.

Lemma Qltb_false (x y : Q) : Qltb x y = false <-> (y <= x)%Q.
Proof.
  unfold Qltb. rewrite negb_false_iff. apply Qle_bool_iff.
Qed.

Lemma Qltb_true (x y : Q) : Qltb x y = true <-> (x < y)%Q.
Proof.
  unfold Qltb. rewrite negb_true_iff. split.
  - intros H. apply Qnot_le_lt. intros Hle.
    apply Qle_bool_iff in Hle. congruence.
  - intros H. destruct (Qle_bool y x) eqn:E; [|reflexivity].
    apply Qle_bool_iff in E. exfalso. now apply (Qlt_not_le _ _ H).
Qed.

(** A pass ends on an element that no element before it scores below. *)
Lemma bubbleFrom_last (l : list SlowScored) :
  forall c, exists init m,
    bubbleFrom c l = init ++ [m] /\
    forall x, In x init -> scoresAtLeast x m.
Proof.
  induction l as [|b r IH]; intros c; cbn [bubbleFrom].
  - exists [], c. split; [reflexivity | intros x []].
  - destruct (Qltb (slowSearchScore c) (slowSearchScore b)) eqn:E.
    + destruct (IH c) as (init & m & Heq & Hm).
      exists (b :: init), m. rewrite Heq. split; [reflexivity|].
      intros x [<-|Hx]; [|now apply Hm].
      apply Qltb_true in E. unfold scoresAtLeast.
      assert (Hcm : scoresAtLeast c m \/ c = m).
      { assert (Hin : In c (init ++ [m]))
          by (rewrite <- Heq; apply (Permutation_in _ (bubbleFrom_perm r c));
              now left).
        apply in_app_or in Hin as [Hin|[<-|[]]]; [left; now apply Hm | now right]. }
      destruct Hcm as [Hcm|<-].
      * unfold scoresAtLeast in Hcm.
        apply Qlt_le_weak. eapply Qle_lt_trans; eauto.
      * now apply Qlt_le_weak.
    + destruct (IH b) as (init & m & Heq & Hm).
      exists (c :: init), m. rewrite Heq. split; [reflexivity|].
      intros x [<-|Hx]; [|now apply Hm].
      apply Qltb_false in E. unfold scoresAtLeast.
      assert (Hbm : scoresAtLeast b m \/ b = m).
      { assert (Hin : In b (init ++ [m]))
          by (rewrite <- Heq; apply (Permutation_in _ (bubbleFrom_perm r b));
              now left).
        apply in_app_or in Hin as [Hin|[<-|[]]]; [left; now apply Hm | now right]. }
      destruct Hbm as [Hbm|<-]; [|exact E].
      unfold scoresAtLeast in Hbm. eapply Qle_trans; eauto.
Qed.

(** A pass leaves a descending list as it is. *)
Lemma bubbleFrom_sorted (s : list SlowScored) :
  forall c, StronglySorted scoresAtLeast (c :: s) -> bubbleFrom c s = c :: s.
Proof.
  induction s as [|b s IH]; intros c H; cbn [bubbleFrom]; [reflexivity|].
  apply StronglySorted_inv in H as [Hs Hall].
  assert (E : Qltb (slowSearchScore c) (slowSearchScore b) = false).
  { apply Qltb_false. apply Forall_inv in Hall. exact Hall. }
  rewrite E. f_equal. now apply IH.
Qed.

(** A pass does not touch a descending tail that the elements before it
    all dominate. *)
Lemma bubbleFrom_tail (u s : list SlowScored) :
  forall c,
    StronglySorted scoresAtLeast s ->
    (forall x y, In x (c :: u) -> In y s -> scoresAtLeast x y) ->
    bubbleFrom c (u ++ s) = bubbleFrom c u ++ s.
Proof.
  induction u as [|b u IH]; intros c Hs Hdom.
  - cbn [app bubbleFrom]. apply bubbleFrom_sorted.
    constructor; [exact Hs|]. apply Forall_forall. intros y Hy.
    apply Hdom; [now left | exact Hy].
  - cbn [app bubbleFrom].
    destruct (Qltb (slowSearchScore c) (slowSearchScore b)).
    + cbn [app]. f_equal. apply IH; [exact Hs|].
      intros x y [<-|Hx] Hy; apply Hdom; cbn; auto.
    + cbn [app]. f_equal. apply IH; [exact Hs|].
      intros x y Hx Hy; apply Hdom; cbn; auto.
Qed.

Lemma bubblePass_perm (l : list SlowScored) : Permutation l (bubblePass l).
Proof.
  destruct l as [|a l]; [reflexivity|].
  rewrite bubblePass_cons. apply bubbleFrom_perm.
Qed.

(** The invariant of the outer loop: a head of at most [d] elements,
    then a descending tail that the head dominates. *)
Lemma bubblePass_invariant (d : nat) (u s : list SlowScored) :
  List.length u <= S d ->
  StronglySorted scoresAtLeast s ->
  (forall x y, In x u -> In y s -> scoresAtLeast x y) ->
  exists u' s',
    bubblePass (u ++ s) = u' ++ s' /\
    List.length u' <= d /\
    StronglySorted scoresAtLeast s' /\
    (forall x y, In x u' -> In y s' -> scoresAtLeast x y).
Proof.
  intros Hlen Hs Hdom. destruct u as [|c u].
  - exists [], s. cbn [app].
    split; [|split; [cbn; lia | split; [exact Hs | intros x y []]]].
    destruct s as [|a s]; [reflexivity|].
    rewrite bubblePass_cons. now apply bubbleFrom_sorted.
  - cbn [app]. rewrite bubblePass_cons, bubbleFrom_tail by assumption.
    destruct (bubbleFrom_last u c) as (init & m & Heq & Hm).
    assert (Hperm : Permutation (c :: u) (init ++ [m]))
      by (rewrite <- Heq; apply bubbleFrom_perm).
    exists init, (m :: s). rewrite Heq, <- app_assoc. cbn [app].
    split; [reflexivity|]. split.
    { apply Permutation_length in Hperm.
      rewrite length_app in Hperm. cbn in Hperm, Hlen. lia. }
    assert (Hin : forall x, In x (init ++ [m]) -> In x (c :: u))
      by (intros x Hx; eapply Permutation_in; [symmetry; exact Hperm | exact Hx]).
    split.
    { constructor; [exact Hs|]. apply Forall_forall. intros y Hy.
      apply Hdom; [|exact Hy]. apply Hin, in_or_app. right. now left. }
    intros x y Hx [<-|Hy]; [now apply Hm|].
    apply Hdom; [|exact Hy]. apply Hin, in_or_app. now left.
Qed.

Lemma bubblePasses_sorted (passes : list nat) :
  forall (u s : list SlowScored),
    List.length u <= List.length passes ->
    StronglySorted scoresAtLeast s ->
    (forall x y, In x u -> In y s -> scoresAtLeast x y) ->
    StronglySorted scoresAtLeast
      (fold_left (fun results _ => bubblePass results) passes (u ++ s)).
Proof.
  induction passes as [|i passes IH]; intros u s Hlen Hs Hdom.
  - destruct u; [exact Hs | cbn in Hlen; lia].
  - cbn [fold_left].
    destruct (bubblePass_invariant (List.length passes) u s Hlen Hs Hdom)
      as (u' & s' & -> & Hlen' & Hs' & Hdom').
    now apply IH.
Qed.

Lemma bubblePasses_perm (passes : list nat) :
  forall l : list SlowScored,
    Permutation l (fold_left (fun results _ => bubblePass results) passes l).
Proof.
  induction passes as [|i passes IH]; intros l; cbn [fold_left]; [reflexivity|].
  eapply Permutation_trans; [apply bubblePass_perm | apply IH].
Qed.

Lemma bubbleFrom_stable (q : Q) (l : list SlowScored) :
  forall c,
    filter (fun x => Qeq_bool (slowSearchScore x) q) (bubbleFrom c l)
    = filter (fun x => Qeq_bool (slowSearchScore x) q) (c :: l).
Proof.
  induction l as [|b r IH]; intros c; cbn [bubbleFrom]; [reflexivity|].
  destruct (Qltb (slowSearchScore c) (slowSearchScore b)) eqn:E.
  - cbn [filter]. rewrite IH. cbn [filter].
    destruct (Qeq_bool (slowSearchScore b) q) eqn:Eb,
             (Qeq_bool (slowSearchScore c) q) eqn:Ec; try reflexivity.
    exfalso. apply Qltb_true in E.
    apply Qeq_bool_iff in Eb. apply Qeq_bool_iff in Ec.
    rewrite Eb, Ec in E. exact (Qlt_irrefl _ E).
  - cbn [filter]. rewrite IH. reflexivity.
Qed.

Lemma bubblePasses_stable (q : Q) (passes : list nat) :
  forall l : list SlowScored,
    filter (fun x => Qeq_bool (slowSearchScore x) q)
      (fold_left (fun results _ => bubblePass results) passes l)
    = filter (fun x => Qeq_bool (slowSearchScore x) q) l.
Proof.
  induction passes as [|i passes IH]; intros l; cbn [fold_left]; [reflexivity|].
  rewrite IH. destruct l as [|a l]; [reflexivity|].
  rewrite bubblePass_cons. apply bubbleFrom_stable.
Qed.

(** X22: the bubble sort of the earlier search returns the scored
    products in descending order of score: it is a rearrangement of its
    input in which no product stands before one with a higher score.
    It is stable: the products that have a given score come out in the
    order in which they went in. *)
Theorem bubbleSort_sorts (results : list SlowScored) :
  Permutation results (bubbleSort results) /\
  (forall i j x y,
      i < j ->
      nth_error (bubbleSort results) i = Some x ->
      nth_error (bubbleSort results) j = Some y ->
      (slowSearchScore y <= slowSearchScore x)%Q) /\
  (forall score : Q,
      filter (fun x => Qeq_bool (slowSearchScore x) score) (bubbleSort results)
      = filter (fun x => Qeq_bool (slowSearchScore x) score) results).
Proof.
  split; [apply bubblePasses_perm|].
  split; [|intros score; apply bubblePasses_stable].
  assert (H : StronglySorted scoresAtLeast (bubbleSort results)).
  { unfold bubbleSort. rewrite <- (app_nil_r results) at 2.
    apply bubblePasses_sorted.
    - rewrite length_seq. lia.
    - constructor.
    - intros x y _ []. }
  intros i j x y Hij Hx Hy.
  exact (StronglySorted_nth scoresAtLeast _ H i j x y Hij Hx Hy).
Qed.

(** ** The character count *)

Lemma countInner_bounds (qi : ascii) (step : Q) (text : list ascii) :
  (0 <= step)%Q ->
  forall score,
    (score <= fold_left
                (fun score tj =>
                   if Ascii.eqb (lower_ascii qi) (lower_ascii tj)
                   then score + step else score) text score
     <= score + ofNat (List.length text) * step)%Q.
Proof.
  intros Hstep. induction text as [|tj text IH]; intros score.
  - cbn [fold_left List.length]. change (ofNat 0) with 0%Q. Lqa.lra.
  - cbn [fold_left List.length]. pose proof (ofNat_S (List.length text)) as HS.
    pose proof (ofNat_nonneg (List.length text)) as Hn.
    destruct (Ascii.eqb (lower_ascii qi) (lower_ascii tj)).
    + destruct (IH (score + step)%Q) as [H1 H2]. split; Lqa.nra.
    + destruct (IH score) as [H1 H2]. split; Lqa.nra.
Qed.

Lemma length_list_of_string (s : string) :
  List.length (list_ascii_of_string s) = String.length s.
Proof. induction s as [|c s IH]; cbn; congruence. Qed.

Lemma countCharMatches_bounds (query text : string) (step : Q) :
  (0 <= step)%Q ->
  forall score,
    (score <= countCharMatches query text step score
     <= score + ofNat (String.length query) * ofNat (String.length text) * step)%Q.
Proof.
  intros Hstep. unfold countCharMatches.
  induction query as [|qi query IH]; intros score.
  - cbn [list_ascii_of_string fold_left String.length].
    change (ofNat 0) with 0%Q. Lqa.lra.
  - cbn [list_ascii_of_string fold_left String.length].
    pose proof (ofNat_S (String.length query)) as HS.
    pose proof (countInner_bounds qi step (list_ascii_of_string text) Hstep score)
      as [H1 H2].
    rewrite length_list_of_string in H2.
    set (score' := fold_left _ (list_ascii_of_string text) score) in *.
    destruct (IH score') as [H3 H4]. split; Lqa.nra.
Qed.

(** X23: the score of the earlier search lies between 0 and the number
    of pairs of positions: the length of the query times the length of
    the name, plus half the length of the query times the length of the
    description.  For the empty query the score is 0 and no product
    passes the test [score > 0]: the results are empty. *)
Theorem slowScore_bounds (query : string) (p : Product) :
  (0 <= slowScore query p
   <= ofNat (String.length query) * ofNat (String.length (name p))
      + ofNat (String.length query)
        * ofNat (match description p with
                 | Some d => String.length d
                 | None => 0
                 end) * 0.5)%Q /\
  (forall allProducts, slowResults EmptyString allProducts = []).
Proof.
  split.
  - unfold slowScore.
    pose proof (countCharMatches_bounds query (name p) 1 ltac:(discriminate) 0)
      as [H1 H2].
    pose proof (ofNat_nonneg (String.length query)) as Hq.
    destruct (description p) as [d|].
    + pose proof (ofNat_nonneg (String.length d)) as Hd.
      destruct (falsy d) eqn:Fd.
      * split; Lqa.nra.
      * pose proof (countCharMatches_bounds query d 0.5 ltac:(discriminate)
                      (countCharMatches query (name p) 1 0)) as [H3 H4].
        split; Lqa.nra.
    + change (ofNat 0) with 0%Q. split; Lqa.nra.
  - intros allProducts. unfold slowResults.
    induction allProducts as [|q l IH]; [reflexivity|].
    cbn [flat_map]. rewrite IH.
    assert (E : slowScore EmptyString q = 0%Q).
    { unfold slowScore. cbn. destruct (description q) as [d|]; [|reflexivity].
      destruct (falsy d); reflexivity. }
    rewrite E. reflexivity.
Qed.

(* ================================================================== *)
(** * The scores that the comparator meets                             *)
(* ================================================================== *)

Lemma scoreProduct_inv (query : string) (p : Product) (s : Scored) :
  scoreProduct query p = Some s ->
  s = mkScored p
        (calculateFinalScore (totalRelevanceScore (aggregate query p))
           (matchCount (aggregate query p)) (String.length query))
        (matchCount (aggregate query p)).
Proof.
  unfold scoreProduct. destruct (_ || _); [|discriminate].
  intros H. now inversion H.
Qed.

Lemma scoreAll_In (query : string) (allProducts : list Product) (s : Scored) :
  In s (scoreAll query allProducts) ->
  exists p, In p allProducts /\ scoreProduct query p = Some s.
Proof.
  unfold scoreAll. intros H. apply in_flat_map in H as (p & Hp & Hs).
  exists p. split; [exact Hp|].
  destruct (scoreProduct query p) as [s'|]; [|destruct Hs].
  destruct Hs as [<-|[]]. reflexivity.
Qed.

Lemma kept_score (query : string) (allProducts : list Product) (s : Scored) :
  In s (scoreAll query allProducts) ->
  if String.length query =? 0 then searchScore s = PInf
  else exists x : R, searchScore s = Fin x /\ (0 <= x)%R.
Proof.
  intros H. apply scoreAll_In in H as (p & _ & H).
  apply scoreProduct_inv in H. subst s. cbn [searchScore].
  destruct (String.length query) as [|n] eqn:En; cbn [Nat.eqb].
  - rewrite calculateFinalScore_zero_length.
    pose proof (total_ge_floor query p). pose proof exp_m2_lower.
    destruct (Rlt_dec 0 (totalRelevanceScore (aggregate query p)));
      [reflexivity | lra].
  - rewrite calculateFinalScore_nonempty by lia.
    eexists. split; [reflexivity | apply Rmax_l].
Qed.

(** X24: the final score of a kept product is never [NaN] and never
    negative: it is [Infinity] when the query is empty, and a finite
    number that is not negative otherwise. *)
Theorem kept_scores_are_numbers (query : string) (allProducts : list Product) :
  Forall
    (fun s =>
       if String.length query =? 0 then searchScore s = PInf
       else exists x : R, searchScore s = Fin x /\ (0 <= x)%R)
    (scoreAll query allProducts).
Proof.
  apply Forall_forall. intros s. apply kept_score.
Qed.

(** X25: for a non-empty query the comparator of the ranking is
    consistent on the kept products as soon as being within 0.01 of each
    other is transitive among their final scores and [localeCompare] is
    consistent on their names. *)
Theorem comparator_consistent_for_nonempty_query
    (localeCompare : string -> string -> Z)
    (query : string) (allProducts : list Product) :
  1 <= String.length query ->
  (forall a b c,
      In a (scoreAll query allProducts) ->
      In b (scoreAll query allProducts) ->
      In c (scoreAll query allProducts) ->
      nearTie a b -> nearTie b c -> nearTie a c) ->
  ConsistentComparator (fun a b : string => Fin (IZR (localeCompare a b)))
    (map (fun s => name (product s)) (scoreAll query allProducts)) ->
  ConsistentComparator (compareResults localeCompare)
    (scoreAll query allProducts).
Proof.
  intros Hq Hties Hnames.
  apply compareResults_consistent; [|exact Hties | exact Hnames].
  intros a Ha. pose proof (kept_score query allProducts a Ha) as H.
  destruct (String.length query); [lia|].
  cbn [Nat.eqb] in H. destruct H as (x & Hx & _). eauto.
Qed.

Lemma shelf_ties_transitive (a b c : Scored) :
  In a (scoreAll "7" shelf) -> In b (scoreAll "7" shelf) ->
  In c (scoreAll "7" shelf) ->
  nearTie a b -> nearTie b c -> nearTie a c.
Proof.
  rewrite shelf_scores. intros Ha Hb Hc Hab Hbc.
  repeat match goal with
         | H : In _ (_ :: _) |- _ => destruct H as [<-|H]
         | H : In _ [] |- _ => destruct H
         end;
    try assumption; apply nearTie_Fin; lra.
Qed.

Lemma vase_lamp_names_consistent :
  ConsistentComparator (fun a b : string => Fin (IZR (codeUnitCompare a b)))
    ["Vase"; "Lamp"].
Proof.
  assert (Cvv : codeUnitCompare "Vase" "Vase" = 0%Z) by reflexivity.
  assert (Cll : codeUnitCompare "Lamp" "Lamp" = 0%Z) by reflexivity.
  assert (Cvl : codeUnitCompare "Vase" "Lamp" = 1%Z) by reflexivity.
  assert (Clv : codeUnitCompare "Lamp" "Vase" = (-1)%Z) by reflexivity.
  assert (N0 : isNeg (Fin (IZR 0)) = false) by (apply isNeg_Fin_false; lra).
  assert (P0 : isPos (Fin (IZR 0)) = false) by (apply isPos_Fin_false; lra).
  assert (N1 : isNeg (Fin (IZR 1)) = false) by (apply isNeg_Fin_false; lra).
  assert (P1 : isPos (Fin (IZR 1)) = true) by (apply isPos_Fin; lra).
  assert (Nm : isNeg (Fin (IZR (-1))) = true) by (apply isNeg_Fin; lra).
  assert (Pm : isPos (Fin (IZR (-1))) = false) by (apply isPos_Fin_false; lra).
  constructor; unfold eqCF, ltCF, gtCF; intros;
    repeat match goal with
           | H : In _ (_ :: _) |- _ => destruct H as [<-|H]
           | H : In _ [] |- _ => destruct H
           end;
    rewrite ?Cvv, ?Cll, ?Cvl, ?Clv, ?N0, ?P0, ?N1, ?P1, ?Nm, ?Pm in *;
    intuition congruence.
Qed.

Lemma shelf_names (query : string) :
  String.length query <= 127 ->
  map (fun s => name (product s)) (scoreAll query shelf) = ["Vase"; "Lamp"].
Proof.
  intros H. rewrite <- (map_map product name), scoreAll_keeps_all by exact H.
  reflexivity.
Qed.

Lemma comparator_consistent_for_nonempty_query_witness :
  ConsistentComparator (compareResults codeUnitCompare) (scoreAll "7" shelf).
Proof.
  apply comparator_consistent_for_nonempty_query.
  - cbn. lia.
  - exact shelf_ties_transitive.
  - rewrite shelf_names by (cbn; lia). exact vase_lamp_names_consistent.
Defined.

(* ================================================================== *)
(** * The ranking for the empty query                                  *)
(* ================================================================== *)

Lemma compareResults_PInf (localeCompare : string -> string -> Z)
    (p1 p2 : Product) (m1 m2 : nat) :
  compareResults localeCompare (mkScored p1 PInf m1) (mkScored p2 PInf m2) =
  if negb (m1 =? m2) then Fin (IZR (Z.of_nat m2 - Z.of_nat m1))
  else Fin (IZR (localeCompare (name p1) (name p2))).
Proof. reflexivity. Qed.

Lemma compareResults_PInf_lt (localeCompare : string -> string -> Z)
    (p1 p2 : Product) (m1 m2 : nat) :
  ltCF (compareResults localeCompare) (mkScored p1 PInf m1) (mkScored p2 PInf m2) <->
  m2 < m1 \/ (m1 = m2 /\ (localeCompare (name p1) (name p2) < 0)%Z).
Proof.
  unfold ltCF. rewrite compareResults_PInf.
  destruct (m1 =? m2) eqn:E; cbn [negb]; rewrite isNeg_Fin.
  - apply Nat.eqb_eq in E. split.
    + intros H. apply lt_IZR in H. auto.
    + intros [H|[_ H]]; [lia | now apply IZR_lt].
  - apply Nat.eqb_neq in E. split.
    + intros H. apply lt_IZR in H. left. lia.
    + intros [H|[H _]]; [apply IZR_lt; lia | contradiction].
Qed.

Lemma compareResults_PInf_gt (localeCompare : string -> string -> Z)
    (p1 p2 : Product) (m1 m2 : nat) :
  gtCF (compareResults localeCompare) (mkScored p1 PInf m1) (mkScored p2 PInf m2) <->
  m1 < m2 \/ (m1 = m2 /\ (0 < localeCompare (name p1) (name p2))%Z).
Proof.
  unfold gtCF. rewrite compareResults_PInf.
  destruct (m1 =? m2) eqn:E; cbn [negb]; rewrite isPos_Fin.
  - apply Nat.eqb_eq in E. split.
    + intros H. apply lt_IZR in H. auto.
    + intros [H|[_ H]]; [lia | now apply IZR_lt].
  - apply Nat.eqb_neq in E. split.
    + intros H. apply lt_IZR in H. left. lia.
    + intros [H|[H _]]; [apply IZR_lt; lia | contradiction].
Qed.

Lemma compareResults_PInf_eq (localeCompare : string -> string -> Z)
    (p1 p2 : Product) (m1 m2 : nat) :
  eqCF (compareResults localeCompare) (mkScored p1 PInf m1) (mkScored p2 PInf m2) <->
  m1 = m2 /\ localeCompare (name p1) (name p2) = 0%Z.
Proof.
  unfold eqCF. rewrite compareResults_PInf.
  destruct (m1 =? m2) eqn:E; cbn [negb]; rewrite isNeg_Fin_false, isPos_Fin_false.
  - apply Nat.eqb_eq in E. split.
    + intros [H1 H2]. apply le_IZR in H1. apply le_IZR in H2. split; [exact E | lia].
    + intros [_ H]. rewrite H. lra.
  - apply Nat.eqb_neq in E. split.
    + intros [H1 H2]. apply le_IZR in H1. apply le_IZR in H2. lia.
    + intros [H _]. contradiction.
Qed.

Section EmptyQueryComparator.
Variable localeCompare : string -> string -> Z.
Variable results : list Scored.

Hypothesis infinite_scores : forall a, In a results -> searchScore a = PInf.
Hypothesis names_consistent :
  ConsistentComparator (fun a b : string => Fin (IZR (localeCompare a b)))
    (map (fun s => name (product s)) results).

Ltac reveal a Ha :=
  let E := fresh "E" in
  pose proof (infinite_scores a Ha) as E;
  destruct a as [? ? ?]; cbn [searchScore] in E; subst;
  cbn [product] in *.

(** When every score is [Infinity] the comparator orders by match count,
    then by name: it is consistent if [localeCompare] is. *)
Lemma compareResults_consistent_PInf :
  ConsistentComparator (compareResults localeCompare) results.
Proof.
  constructor.
  - intros a Ha. pose proof (lc_refl _ _ names_consistent a Ha) as Hr.
    reveal a Ha. apply compareResults_PInf_eq. auto.
  - intros a b Ha Hb. pose proof (lc_sym _ _ names_consistent a b Ha Hb) as Hs.
    reveal a Ha. reveal b Hb.
    rewrite !compareResults_PInf_eq. intros [Hm Hl]. auto.
  - intros a b c Ha Hb Hc.
    pose proof (lc_eq_trans _ _ names_consistent a b c Ha Hb Hc) as Hs.
    reveal a Ha. reveal b Hb. reveal c Hc.
    rewrite !compareResults_PInf_eq. intros [Hm1 Hl1] [Hm2 Hl2].
    split; [lia | auto].
  - intros a b c Ha Hb Hc.
    pose proof (lc_lt_trans _ _ names_consistent a b c Ha Hb Hc) as Hs.
    reveal a Ha. reveal b Hb. reveal c Hc.
    rewrite !compareResults_PInf_lt.
    intros [O1|[E1 L1]] [O2|[E2 L2]]; try (left; lia).
    right. split; [lia | auto].
  - intros a b c Ha Hb Hc.
    pose proof (lc_gt_trans _ _ names_consistent a b c Ha Hb Hc) as Hs.
    reveal a Ha. reveal b Hb. reveal c Hc.
    rewrite !compareResults_PInf_gt.
    intros [O1|[E1 L1]] [O2|[E2 L2]]; try (left; lia).
    right. split; [lia | auto].
Qed.
End EmptyQueryComparator.

Lemma empty_query_scores (allProducts : list Product) (s : Scored) :
  In s (scoreAll EmptyString allProducts) -> searchScore s = PInf.
Proof. intros H. exact (kept_score EmptyString allProducts s H). Qed.

(** X26: for the empty query every final score is [Infinity] and the
    tolerance test of the comparator never fires, so the comparator is
    consistent as soon as [localeCompare] is consistent on the names, and
    the results are ordered by match count, the larger first, then by
    name. *)
Theorem empty_query_ranked_by_matches_then_name
    (sort : forall A : Type, (A -> A -> ext R) -> list A -> list A)
    (localeCompare : string -> string -> Z)
    (minPrice maxPrice : option string) (allProducts : list Product) :
  SortContract sort ->
  ConsistentComparator (fun a b : string => Fin (IZR (localeCompare a b)))
    (map (fun s => name (product s)) (scoreAll EmptyString allProducts)) ->
  ConsistentComparator (compareResults localeCompare)
    (scoreAll EmptyString allProducts) /\
  rankedBefore (moreMatchesOrName localeCompare)
    (sliceResults
       (searchSmart sort localeCompare EmptyString minPrice maxPrice
          allProducts)).
Proof.
  intros Hsort Hnames.
  assert (CC : ConsistentComparator (compareResults localeCompare)
                 (scoreAll EmptyString allProducts))
    by (apply compareResults_consistent_PInf;
        [apply empty_query_scores | exact Hnames]).
  split; [exact CC|].
  apply rankedBefore_sliceResults.
  unfold searchSmart. rewrite applyPriceFilters_filter.
  apply rankedBefore_filter.
  intros i j x y Hx Hy Hb. unfold rankResults in *.
  destruct (Hsort _ (compareResults localeCompare)
              (scoreAll EmptyString allProducts)) as [Hperm Hord].
  apply (Hord CC i j x y Hx Hy).
  assert (Ix : In x (scoreAll EmptyString allProducts))
    by (eapply Permutation_in; [symmetry; exact Hperm | eapply nth_error_In; eauto]).
  assert (Iy : In y (scoreAll EmptyString allProducts))
    by (eapply Permutation_in; [symmetry; exact Hperm | eapply nth_error_In; eauto]).
  apply empty_query_scores in Ix. apply empty_query_scores in Iy.
  destruct x as [px sx mx], y as [py sy my]. cbn [searchScore] in Ix, Iy. subst.
  apply compareResults_PInf_lt. exact Hb.
Qed.

Lemma empty_query_ranked_by_matches_then_name_witness :
  ConsistentComparator (compareResults codeUnitCompare)
    (scoreAll EmptyString shelf) /\
  rankedBefore (moreMatchesOrName codeUnitCompare)
    (sliceResults
       (searchSmart (@v8SortShort) codeUnitCompare EmptyString None None shelf)).
Proof.
  apply empty_query_ranked_by_matches_then_name.
  - exact v8SortShort_contract.
  - rewrite shelf_names by (cbn; lia). exact vase_lamp_names_consistent.
Defined.
